(** * The watch Factory of k9s: informer factories per namespace, the
    authorization gate in front of them, and the port-forward registry.

    Shallow embedding of [internal/watch/factory.go] (package [watch]), of
    [internal/client/client.go] (package [client]) and of
    [internal/render/alias.go] (package [render]).  Go strings are byte
    strings and are modelled by [string]; Go maps by [gmap]; a Go panic and
    the calls made on the collaborators (client-go informer factories,
    listers, the API server, port-forwarders) are explicit: a computation
    returns an [outcome] and appends to a trace of [event]s.  Logging calls
    are left out. *)

From Stdlib Require Import ZArith Ascii String List Lia.
From stdpp Require Import base option list strings gmap fin_maps.

Local Open Scope Z_scope.

(** ** Go runtime panics *)

Inductive panic :=
| IndexOutOfRange (index : nat) (len : nat)
| CloseOfNilChannel
| CloseOfClosedChannel
| NilDereference
| DialFailed.

(** A value, or the panic that the evaluation raised. *)
Inductive res (A : Type) :=
| Ok (a : A)
| Raise (p : panic).
Arguments Ok {A} a.
Arguments Raise {A} p.

Definition res_bind {A B} (r : res A) (k : A -> res B) : res B :=
  match r with
  | Ok a => k a
  | Raise p => Raise p
  end.

(** ** The parts of Go's [strings] and [path] packages that the code calls,
    all with the one-byte separator ["/"]. *)

Definition slash : ascii := "/"%char.

(** [strings.Split(s, sep)] for a one-byte [sep]: the substrings between the
    separators, [Count(s, sep) + 1] of them. *)
Fixpoint Split (s : string) (sep : ascii) : list string :=
  match s with
  | EmptyString => [EmptyString]
  | String c s' =>
      if Ascii.eqb c sep then EmptyString :: Split s' sep
      else match Split s' sep with
           | [] => [String c EmptyString]
           | t :: ts => String c t :: ts
           end
  end.

(** [strings.LastIndexByte(s, c)]: the index of the last [c] in [s], or -1. *)
Fixpoint LastIndexByte (s : string) (c : ascii) : Z :=
  match s with
  | EmptyString => -1
  | String a s' =>
      let i := LastIndexByte s' c in
      if 0 <=? i then i + 1
      else if Ascii.eqb a c then 0 else -1
  end.

(** The slice expressions [s[:i]] and [s[i:]] for [0 <= i <= len(s)]. *)
Definition slice_to (s : string) (i : Z) : string :=
  substring 0 (Z.to_nat i) s.
Definition slice_from (s : string) (i : Z) : string :=
  substring (Z.to_nat i) (String.length s - Z.to_nat i) s.

(** [path.Split]: [i := LastIndexByte(path, '/'); return path[:i+1], path[i+1:]]. *)
Definition path_Split (p : string) : string * string :=
  let i := LastIndexByte p slash in
  (slice_to p (i + 1), slice_from p (i + 1)).

(** [strings.Trim(s, cutset)] for a one-byte ASCII cutset is
    [trimLeftByte(trimRightByte(s, c), c)]. *)
Fixpoint trimLeftByte (s : string) (c : ascii) : string :=
  match s with
  | EmptyString => EmptyString
  | String a s' => if Ascii.eqb a c then trimLeftByte s' c else s
  end.

Fixpoint trimRightByte (s : string) (c : ascii) : string :=
  match s with
  | EmptyString => EmptyString
  | String a s' =>
      match trimRightByte s' c with
      | EmptyString => if Ascii.eqb a c then EmptyString else String a EmptyString
      | r => String a r
      end
  end.

Definition Trim (s : string) (c : ascii) : string :=
  trimLeftByte (trimRightByte s c) c.

(** [s] holds the byte [c]. *)
Fixpoint has_byte (s : string) (c : ascii) : bool :=
  match s with
  | EmptyString => false
  | String a s' => Ascii.eqb a c || has_byte s' c
  end.

(** [n] copies of the byte [c]. *)
Fixpoint bytes (n : nat) (c : ascii) : string :=
  match n with
  | O => EmptyString
  | S n' => String c (bytes n' c)
  end.

Definition first_byte (s : string) : option ascii :=
  match s with
  | EmptyString => None
  | String a _ => Some a
  end.

Fixpoint last_byte (s : string) : option ascii :=
  match s with
  | EmptyString => None
  | String a EmptyString => Some a
  | String _ s' => last_byte s'
  end.

(** ** Resource identities and paths *)

(** [schema.GroupVersionResource]. *)
Record GVR := mkGVR { Group : string; Version : string; Resource : string }.

(** [tokens[i]]: indexing a slice panics out of range. *)
Definition index_at (tokens : list string) (i : nat) : res string :=
  match tokens !! i with
  | Some t => Ok t
  | None => Raise (IndexOutOfRange i (length tokens))
  end.

(** [toGVR]: split on ["/"], prepend ONE empty token when fewer than three
    tokens came out, then read positions 0, 1 and 2. *)
Definition toGVR (gvr : string) : res GVR :=
  let tokens := Split gvr slash in
  let tokens := if (length tokens <? 3)%nat then EmptyString :: tokens else tokens in
  res_bind (index_at tokens 0) (fun g =>
  res_bind (index_at tokens 1) (fun v =>
  res_bind (index_at tokens 2) (fun r =>
  Ok {| Group := g; Version := v; Resource := r |}))).

(** [namespaced]: [ns, po := path.Split(n); return strings.Trim(ns, "/"), po]. *)
Definition namespaced (n : string) : string * string :=
  let '(ns, po) := path_Split n in
  (Trim ns slash, po).

(** ** Collaborators of the Factory *)

(** [labels.Selector] and [runtime.Object] are opaque to the Factory. *)
Definition Selector := string.
Definition Object := string.

(** Error values: one handed back by a collaborator, and the three that the
    code builds with [fmt.Errorf]. *)
Inductive error :=
| ErrRemote (msg : string)
| ErrAccessDenied (verb ns gvr : string)
| ErrInsufficientAccess (verb gvr : string)
| ErrNoResource (gvr : string).

(** A [Forwarder] value: the port-forward it points to, and what its [Path()]
    method returns. *)
Record Forwarder := mkForwarder { fwd_ref : nat; Path : string }.

(** A [GenericInformer] handed out by an informer factory for a resource. *)
Record Informer := mkInformer { inf_factory : nat; inf_gvr : GVR }.

(** The calls the code makes on its collaborators, in the order made. *)
Inductive event :=
| EvCanI (ns gvr : string) (verbs : list string)
| EvDynDial
| EvNewInformerFactory (fac : nat) (ns : string)
| EvForResource (fac : nat) (r : GVR)
| EvFactoryStart (fac : nat) (stop : option nat)
| EvWaitForCacheSync (fac : nat) (stop : option nat)
| EvList (inf : Informer) (sel : Selector)
| EvListByNamespace (inf : Informer) (ns : string) (sel : Selector)
| EvGet (inf : Informer) (name : string)
| EvGetByNamespace (inf : Informer) (ns name : string)
| EvListKeys (inf : Informer)
| EvClose (ch : nat)
| EvForwarderStop (pf : Forwarder).

(** [client.Connection] as the Factory uses it: the authorization check and
    the dynamic dial handle ([false]: [DynDialOrDie] dies). *)
Class Connection := {
  conn_CanI : string -> string -> list string -> bool * option error;
  conn_DynDial : bool
}.

(** The informer factories of client-go: whether [ForResource] hands out an
    informer for a resource, and what the informer's lister answers. *)
Class Informers := {
  informer_for : nat -> GVR -> bool;
  lister_List : Informer -> option string -> Selector -> option (list Object) * option error;
  lister_Get : Informer -> option string -> string -> option Object * option error
}.

(** ** The Factory *)

(** [10 * time.Minute], in seconds. *)
Definition defaultResync : Z := 10 * 60.
Definition allNamespaces : string := "".
Definition clusterScope : string := "-".

(** The [Factory] struct ([factories], [stopChan], [activeNS], [forwarders];
    the [client] field is the [Connection] instance), together with the part
    of the heap it refers to: the next informer-factory reference to be
    allocated, the channels closed so far, and the trace of collaborator
    calls. *)
Record Factory := mkFactory {
  factories : gmap string nat;
  stopChan : option nat;
  activeNS : string;
  forwarders : gmap string Forwarder;
  next_ref : nat;
  closed : gset nat;
  trace : list event
}.

Inductive outcome (A : Type) :=
| Done (a : A) (f : Factory)
| Panicked (p : panic) (f : Factory)
| OutOfFuel.
Arguments Done {A} a f.
Arguments Panicked {A} p f.
Arguments OutOfFuel {A}.

Definition M (A : Type) : Type := Factory -> outcome A.

Definition ret {A} (a : A) : M A := fun f => Done a f.

Definition bind {A B} (m : M A) (k : A -> M B) : M B :=
  fun f =>
    match m f with
    | Done a f' => k a f'
    | Panicked p f' => Panicked p f'
    | OutOfFuel => OutOfFuel
    end.

Notation "'let!' x ':=' m 'in' k" := (bind m (fun x => k))
  (at level 10, x name, m at level 100, k at level 200).
Notation "'do!' m 'in' k" := (bind m (fun _ => k))
  (at level 10, m at level 100, k at level 200).

Definition gets {A} (proj : Factory -> A) : M A := fun f => Done (proj f) f.
Definition modify (g : Factory -> Factory) : M unit := fun f => Done tt (g f).
Definition raise {A} (p : panic) : M A := fun f => Panicked p f.
Definition lift {A} (r : res A) : M A :=
  match r with
  | Ok a => ret a
  | Raise p => raise p
  end.

Definition set_factories (g : gmap string nat -> gmap string nat) (f : Factory) : Factory :=
  mkFactory (g (factories f)) (stopChan f) (activeNS f) (forwarders f)
            (next_ref f) (closed f) (trace f).
Definition set_stopChan (c : option nat) (f : Factory) : Factory :=
  mkFactory (factories f) c (activeNS f) (forwarders f)
            (next_ref f) (closed f) (trace f).
Definition set_activeNS (ns : string) (f : Factory) : Factory :=
  mkFactory (factories f) (stopChan f) ns (forwarders f)
            (next_ref f) (closed f) (trace f).
Definition set_forwarders (g : gmap string Forwarder -> gmap string Forwarder) (f : Factory) : Factory :=
  mkFactory (factories f) (stopChan f) (activeNS f) (g (forwarders f))
            (next_ref f) (closed f) (trace f).
Definition set_next_ref (n : nat) (f : Factory) : Factory :=
  mkFactory (factories f) (stopChan f) (activeNS f) (forwarders f)
            n (closed f) (trace f).
Definition set_closed (g : gset nat -> gset nat) (f : Factory) : Factory :=
  mkFactory (factories f) (stopChan f) (activeNS f) (forwarders f)
            (next_ref f) (g (closed f)) (trace f).
Definition log (es : list event) (f : Factory) : Factory :=
  mkFactory (factories f) (stopChan f) (activeNS f) (forwarders f)
            (next_ref f) (closed f) (trace f ++ es).

Definition emit (e : event) : M unit := modify (log [e]).

Section FactoryCode.
Context `{Connection} `{Informers}.

(** [f.Client().CanI(ns, gvr, verbs)]. *)
Definition client_CanI (ns gvr : string) (verbs : list string) : M (bool * option error) :=
  do! emit (EvCanI ns gvr verbs) in
  ret (conn_CanI ns gvr verbs).

(** [f.client.DynDialOrDie()]. *)
Definition client_DynDialOrDie : M unit :=
  do! emit EvDynDial in
  if conn_DynDial then ret tt else raise DialFailed.

(** [di.NewFilteredDynamicSharedInformerFactory(dial, defaultResync, ns, nil)]:
    a fresh informer factory. *)
Definition NewFilteredDynamicSharedInformerFactory (ns : string) : M nat :=
  let! fac := gets next_ref in
  do! modify (set_next_ref (S fac)) in
  do! emit (EvNewInformerFactory fac ns) in
  ret fac.

(** The informer that an informer factory hands out ([nil]: none). *)
Definition informer_of (fac : nat) (r : GVR) : option Informer :=
  if informer_for fac r then Some (mkInformer fac r) else None.

(** [fact.ForResource(r)] on an informer factory. *)
Definition fact_ForResource (fac : nat) (r : GVR) : M (option Informer) :=
  do! emit (EvForResource fac r) in
  ret (informer_of fac r).

(** [fact.Start(stopChan)]. *)
Definition fact_Start (fac : nat) (stop : option nat) : M unit :=
  emit (EvFactoryStart fac stop).

Definition isClusterWide : M bool :=
  gets (fun f => match factories f !! allNamespaces with
                 | Some _ => true
                 | None => false
                 end).

(** [ForResource], [preload] and [ensureFactory] call each other; the first
    two are written over the [ensureFactory] they call. *)
Definition ForResource_with (ensure : string -> M (option nat))
    (ns gvr : string) : M (option Informer) :=
  let! fact := ensure ns in
  let! r := lift (toGVR gvr) in
  match fact with
  | None => raise NilDereference
  | Some fac =>
      let! inf := fact_ForResource fac r in
      let! stop := gets stopChan in
      do! fact_Start fac stop in
      ret inf
  end.

Definition gvr_pods : string := "v1/pods".
Definition gvr_crds : string := "apiextensions.k8s.io/v1beta1/customresourcedefinitions".
Definition gvr_clusterroles : string := "rbac.authorization.k8s.io/v1/clusterroles".
Definition gvr_roles : string := "rbac.authorization.k8s.io/v1/roles".

Definition preload_with (ensure : string -> M (option nat)) (ns : string) : M unit :=
  do! ForResource_with ensure ns gvr_pods in
  do! ForResource_with ensure allNamespaces gvr_crds in
  do! ForResource_with ensure clusterScope gvr_clusterroles in
  do! ForResource_with ensure allNamespaces gvr_roles in
  ret tt.

(** [ensureFactory], with the depth of the recursion through [preload] as
    fuel. *)
Fixpoint ensureFactory_rec (fuel : nat) (ns : string) : M (option nat) :=
  match fuel with
  | O => fun _ => OutOfFuel
  | S fuel' =>
      let! cw := isClusterWide in
      let ns := if cw : bool then allNamespaces else ns in
      let! facs := gets factories in
      match facs !! ns with
      | Some fac => ret (Some fac)
      | None =>
          do! client_DynDialOrDie in
          let! fac := NewFilteredDynamicSharedInformerFactory ns in
          do! modify (set_factories <[ns := fac]>) in
          do! preload_with (ensureFactory_rec fuel') ns in
          let! facs := gets factories in
          ret (facs !! ns)
      end
  end.

(** The recursion is never deeper than three calls of [ensureFactory]
    (lemma [ensureFactory_rec_depth]). *)
Definition call_depth : nat := 3.

Definition ensureFactory : string -> M (option nat) := ensureFactory_rec call_depth.
Definition ForResource : string -> string -> M (option Informer) :=
  ForResource_with ensureFactory.
Definition preload : string -> M unit := preload_with ensureFactory.

Definition Preload (ns gvr : string) : M unit :=
  do! ForResource ns gvr in ret tt.

Definition FactoryFor (ns : string) : M (option nat) :=
  gets (fun f => factories f !! ns).

(** The lister of an informer: [Lister().List(sel)], [Lister().Get(n)] and
    the same behind [ByNamespace(ns)]. *)
Definition Lister_List (inf : Informer) (sel : Selector) : M (option (list Object) * option error) :=
  do! emit (EvList inf sel) in ret (lister_List inf None sel).
Definition Lister_ByNamespace_List (inf : Informer) (ns : string) (sel : Selector)
    : M (option (list Object) * option error) :=
  do! emit (EvListByNamespace inf ns sel) in ret (lister_List inf (Some ns) sel).
Definition Lister_Get (inf : Informer) (n : string) : M (option Object * option error) :=
  do! emit (EvGet inf n) in ret (lister_Get inf None n).
Definition Lister_ByNamespace_Get (inf : Informer) (ns n : string)
    : M (option Object * option error) :=
  do! emit (EvGetByNamespace inf ns n) in ret (lister_Get inf (Some ns) n).

(** [inf.Informer().GetStore().ListKeys()], whose keys are only logged. *)
Definition Informer_ListKeys (inf : option Informer) : M unit :=
  match inf with
  | None => raise NilDereference
  | Some inf => emit (EvListKeys inf)
  end.

(** [Dump] only logs the keys of the scope map. *)
Definition Dump : M unit := ret tt.

Definition Debug (gvr : string) : M unit :=
  let! facs := gets factories in
  let! r := lift (toGVR gvr) in
  match facs !! allNamespaces with
  | None => raise NilDereference
  | Some fac =>
      let! inf := fact_ForResource fac r in
      Informer_ListKeys inf
  end.

Definition Show (ns gvr : string) : M unit :=
  let! inf := ForResource ns gvr in
  Informer_ListKeys inf.

Definition List (gvr ns : string) (sel : Selector) : M (option (list Object) * option error) :=
  let! r := client_CanI ns gvr ["list"] in
  match r with
  | (_, Some err) => ret (None, Some err)
  | (false, None) => ret (None, Some (ErrInsufficientAccess "list" gvr))
  | (true, None) =>
      let! inf := ForResource ns gvr in
      match inf with
      | None => ret (None, Some (ErrNoResource gvr))
      | Some inf =>
          if String.eqb ns clusterScope then Lister_List inf sel
          else Lister_ByNamespace_List inf ns sel
      end
  end.

Definition Get (gvr path : string) (sel : Selector) : M (option Object * option error) :=
  let '(ns, n) := namespaced path in
  let! r := client_CanI ns gvr ["get"] in
  match r with
  | (_, Some err) => ret (None, Some err)
  | (false, None) => ret (None, Some (ErrInsufficientAccess "get" gvr))
  | (true, None) =>
      let! inf := ForResource ns gvr in
      match inf with
      | None => ret (None, Some (ErrNoResource gvr))
      | Some inf =>
          if String.eqb ns clusterScope then Lister_Get inf n
          else Lister_ByNamespace_Get inf ns n
      end
  end.

(** [for ... := range m { body }] over the entries of a map, in the order
    [map_to_list] gives them (Go leaves the order open). *)
Fixpoint for_each {A} (l : list A) (body : A -> M unit) : M unit :=
  match l with
  | [] => ret tt
  | x :: l' => do! body x in for_each l' body
  end.

Definition WaitForCacheSync : M unit :=
  let! facs := gets factories in
  let! stop := gets stopChan in
  for_each (map_to_list facs) (fun kv => emit (EvWaitForCacheSync kv.2 stop)).

Definition Start (stop : option nat) : M unit :=
  let! facs := gets factories in
  for_each (map_to_list facs) (fun kv => fact_Start kv.2 stop).

Definition Init : M unit :=
  let! stop := gets stopChan in
  Start stop.

(** [close(ch)]: panics on a nil channel and on a closed one. *)
Definition close (ch : option nat) : M unit :=
  match ch with
  | None => raise CloseOfNilChannel
  | Some c =>
      let! cl := gets closed in
      if decide (c ∈ cl) then raise CloseOfClosedChannel
      else do! modify (set_closed (fun s => {[c]} ∪ s)) in emit (EvClose c)
  end.

(** [fwd.Stop()], a method of the [Forwarder] interface: an implementation
    is handed the session and runs on the Factory as it is when the method is
    called. *)
Class ForwarderStop := fwd_Stop : Forwarder -> M unit.

(** The sessions of this model: [Stop()] returns, and the call is recorded in
    the trace. *)
#[global] Instance Forwarder_Stop : ForwarderStop :=
  fun pf => emit (EvForwarderStop pf).

(** Modelled from the spec: [Forwarders.DeleteAll] is declared outside the
    given sources; "terminateAll(): stops and removes every session; safe on
    an empty registry". *)
Definition Forwarders_DeleteAll : M unit :=
  let! fwds := gets forwarders in
  for_each (map_to_list fwds) (fun kv =>
    do! Forwarder_Stop kv.2 in
    modify (set_forwarders (delete kv.1))).

Definition Terminate : M unit :=
  let! stop := gets stopChan in
  do! match stop with
      | Some _ => do! close stop in modify (set_stopChan None)
      | None => ret tt
      end in
  let! facs := gets factories in
  do! for_each (map_to_list facs) (fun kv => modify (set_factories (delete kv.1))) in
  Forwarders_DeleteAll.

Definition DeleteForwarder `{ForwarderStop} (path : string) : M unit :=
  let! fwds := gets forwarders in
  match fwds !! path with
  | Some fwd =>
      do! fwd_Stop fwd in
      modify (set_forwarders (delete path))
  | None => ret tt
  end.

Definition RegisterForwarder (pf : Forwarder) : M unit :=
  modify (set_forwarders <[Path pf := pf]>).

Definition Forwarders : M (gmap string Forwarder) := gets forwarders.

Definition ForwarderFor (path : string) : M (option Forwarder) :=
  gets (fun f => forwarders f !! path).

Definition SetActive (ns : string) : M unit :=
  let! cw := isClusterWide in
  do! (if negb cw then do! ensureFactory ns in ret tt else ret tt) in
  modify (set_activeNS ns).

(** The exported operations of a Factory (the accessors [Client],
    [Forwarders], [ForwarderFor] and [FactoryFor] change nothing and call
    nothing). *)
Inductive call :=
| CallDump
| CallDebug (gvr : string)
| CallShow (ns gvr : string)
| CallList (gvr ns : string) (sel : Selector)
| CallGet (gvr path : string) (sel : Selector)
| CallWaitForCacheSync
| CallInit
| CallStart (stop : option nat)
| CallTerminate
| CallDeleteForwarder (path : string)
| CallRegisterForwarder (pf : Forwarder)
| CallSetActive (ns : string)
| CallPreload (ns gvr : string)
| CallForResource (ns gvr : string).

Definition exec (c : call) : M unit :=
  match c with
  | CallDump => Dump
  | CallDebug gvr => Debug gvr
  | CallShow ns gvr => Show ns gvr
  | CallList gvr ns sel => do! List gvr ns sel in ret tt
  | CallGet gvr path sel => do! Get gvr path sel in ret tt
  | CallWaitForCacheSync => WaitForCacheSync
  | CallInit => Init
  | CallStart stop => Start stop
  | CallTerminate => Terminate
  | CallDeleteForwarder path => DeleteForwarder path
  | CallRegisterForwarder pf => RegisterForwarder pf
  | CallSetActive ns => SetActive ns
  | CallPreload ns gvr => Preload ns gvr
  | CallForResource ns gvr => do! ForResource ns gvr in ret tt
  end.

End FactoryCode.

(** [NewFactory]: empty maps and a fresh, open stop channel.
    Modelled from the spec: [NewForwarders] is declared outside the given
    sources; the registry starts empty. *)
Definition NewFactory : Factory :=
  {| factories := ∅; stopChan := Some 0%nat; activeNS := EmptyString;
     forwarders := ∅; next_ref := 0; closed := ∅; trace := [] |}.

(** The Factories that a program can hold: a new one, and what an exported
    operation that returned leaves behind (a panic of [DynDialOrDie] or of an
    index ends the program). *)
Inductive reachable `{Connection} `{Informers} : Factory -> Prop :=
| reach_new : reachable NewFactory
| reach_done c f a f' : reachable f -> exec c f = Done a f' -> reachable f'.

(** The Factory in which a computation ended, unless the fuel ran out. *)
Definition outcome_state {A} (o : outcome A) : option Factory :=
  match o with
  | Done _ f => Some f
  | Panicked _ f => Some f
  | OutOfFuel => None
  end.

(** How many events of a list satisfy [p]. *)
Definition count_events (p : event -> bool) (es : list event) : nat :=
  length (List.filter p es).

Definition is_close (e : event) : bool :=
  match e with
  | EvClose _ => true
  | _ => false
  end.

(** A cache is touched by constructing or starting an informer factory, by
    asking one for an informer, and by querying a store. *)
Definition touches_cache (e : event) : bool :=
  match e with
  | EvDynDial | EvNewInformerFactory _ _ | EvForResource _ _ | EvFactoryStart _ _
  | EvWaitForCacheSync _ _
  | EvList _ _ | EvListByNamespace _ _ _ | EvGet _ _ | EvGetByNamespace _ _ _
  | EvListKeys _ => true
  | EvCanI _ _ _ | EvClose _ | EvForwarderStop _ => false
  end.

(** ** What [ensureFactory] leaves behind when it constructs *)

Definition r_pods : GVR := mkGVR "" "v1" "pods".
Definition r_crds : GVR := mkGVR "apiextensions.k8s.io" "v1beta1" "customresourcedefinitions".
Definition r_clusterroles : GVR := mkGVR "rbac.authorization.k8s.io" "v1" "clusterroles".
Definition r_roles : GVR := mkGVR "rbac.authorization.k8s.io" "v1" "roles".

(** The calls of [ForResource] on informer factory [fac], once per resource. *)
Definition warm (fac : nat) (stop : option nat) (rs : list GVR) : list event :=
  flat_map (fun r => [EvForResource fac r; EvFactoryStart fac stop]) rs.

(** The calls of constructing informer factory [fac] for [ns]. *)
Definition construct (fac : nat) (ns : string) : list event :=
  [EvDynDial; EvNewInformerFactory fac ns].

(** After [ensureFactory] stored a fresh informer factory under [ns]. *)
Definition constructed (ns : string) (f : Factory) : Factory :=
  {| factories := <[ns := next_ref f]> (factories f);
     stopChan := stopChan f; activeNS := activeNS f; forwarders := forwarders f;
     next_ref := S (next_ref f); closed := closed f;
     trace := trace f ++ construct (next_ref f) ns |}.

(** After constructing the all-namespaces informer factory. *)
Definition created_all (f : Factory) : Factory :=
  let fac := next_ref f in
  {| factories := <[allNamespaces := fac]> (factories f);
     stopChan := stopChan f; activeNS := activeNS f; forwarders := forwarders f;
     next_ref := S fac; closed := closed f;
     trace := trace f ++ construct fac allNamespaces
              ++ warm fac (stopChan f) [r_pods; r_crds; r_clusterroles; r_roles] |}.

(** After constructing the informer factory of [ns], whose warm-up
    constructs the all-namespaces one. *)
Definition created_scoped (ns : string) (f : Factory) : Factory :=
  let fac := next_ref f in
  let cw := S fac in
  {| factories := <[allNamespaces := cw]> (<[ns := fac]> (factories f));
     stopChan := stopChan f; activeNS := activeNS f; forwarders := forwarders f;
     next_ref := S cw; closed := closed f;
     trace := trace f ++ construct fac ns ++ warm fac (stopChan f) [r_pods]
              ++ construct cw allNamespaces
              ++ warm cw (stopChan f) [r_pods; r_crds; r_clusterroles; r_roles]
              ++ warm cw (stopChan f) [r_crds; r_clusterroles; r_roles] |}.

(** [ensureFactory] without the recursion: what it returns and leaves behind,
    by the entries the scope map holds (lemma [ensureFactory_outcome]). *)
Definition ensure_outcome `{Connection} (ns : string) (f : Factory) : outcome (option nat) :=
  match factories f !! allNamespaces with
  | Some cw => Done (Some cw) f
  | None =>
      match factories f !! ns with
      | Some fac => Done (Some fac) f
      | None =>
          if conn_DynDial
          then Done (Some (next_ref f))
                    (if decide (ns = allNamespaces) then created_all f
                     else created_scoped ns f)
          else Panicked DialFailed (log [EvDynDial] f)
      end
  end.

(** The Factory after [Terminate]. *)
Definition terminated (f : Factory) : Factory :=
  {| factories := ∅; stopChan := None; activeNS := activeNS f; forwarders := ∅;
     next_ref := next_ref f;
     closed := match stopChan f with
               | Some c => {[c]} ∪ closed f
               | None => closed f
               end;
     trace := trace f
              ++ match stopChan f with
                 | Some c => [EvClose c]
                 | None => []
                 end
              ++ map (fun kv : string * Forwarder => EvForwarderStop kv.2)
                     (map_to_list (forwarders f)) |}.

(** The scope map is empty or holds the all-namespaces entry, and a stop
    channel that the Factory still holds is open. *)
Definition wf (f : Factory) : Prop :=
  (factories f = ∅ \/ is_Some (factories f !! allNamespaces)) /\
  (forall c, stopChan f = Some c -> c ∉ closed f).

(** [f'] is [f] with a longer trace. *)
Definition logged (f f' : Factory) : Prop := exists es, f' = log es f.

(** Deleting the key of every entry, in the order of the list. *)
Definition delete_keys {V} (l : list (string * V)) (m : gmap string V) : gmap string V :=
  foldl (fun acc kv => delete kv.1 acc) m l.

(** Stand-ins for the collaborators, for running the code. *)
Definition open_connection : Connection :=
  {| conn_CanI := fun _ _ _ => (true, None); conn_DynDial := true |}.
Definition closed_connection : Connection :=
  {| conn_CanI := fun ns _ _ => if String.eqb ns "kube-system"
                                then (false, None)
                                else (false, Some (ErrRemote "timeout"));
     conn_DynDial := true |}.
Definition plain_informers : Informers :=
  {| informer_for := fun _ _ => true;
     lister_List := fun _ _ _ => (Some [], None);
     lister_Get := fun _ _ n => (Some n, None) |}.

(** A [Stop()] that looks its session up in the registry: it panics when the
    session is no longer registered under its path. *)
Definition Stop_if_registered : ForwarderStop :=
  fun pf =>
    let! fwds := gets forwarders in
    match fwds !! Path pf with
    | Some _ => emit (EvForwarderStop pf)
    | None => raise NilDereference
    end.

(** Two sessions for the same container. *)
Definition web_forward : Forwarder := mkForwarder 7 "default/web-0/nginx".
Definition web_forward' : Forwarder := mkForwarder 8 "default/web-0/nginx".

(** ** Shapes of reachable Factories *)

(** A store query: a call on an informer's lister or store. *)
Definition is_store_query (e : event) : bool :=
  match e with
  | EvList _ _ | EvListByNamespace _ _ _ | EvGet _ _ | EvGetByNamespace _ _ _
  | EvListKeys _ => true
  | _ => false
  end.

(** A start of an informer factory with a nil stop channel. *)
Definition is_start_without_stop (e : event) : bool :=
  match e with
  | EvFactoryStart _ None => true
  | _ => false
  end.

Definition is_start_with_stop (e : event) : bool :=
  match e with
  | EvFactoryStart _ (Some _) => true
  | _ => false
  end.

(** What [ensureFactory] can have made of [f]: nothing, or, from an empty
    scope map, one of its two constructions. *)
Definition ensured `{Connection} (f f1 : Factory) : Prop :=
  f1 = f \/
  (factories f = ∅ /\ conn_DynDial = true /\
   (f1 = created_all f \/ exists ns, ns <> allNamespaces /\ f1 = created_scoped ns f)).

(** Informer-factory references are below the allocation counter; the scope
    map is empty, holds the all-namespaces entry alone, or holds it beside
    one other entry; and every session is registered under its own path. *)
Definition coherent (f : Factory) : Prop :=
  (forall k h, factories f !! k = Some h -> (h < next_ref f)%nat) /\
  (factories f = ∅ \/
   (exists cw, factories f = {[allNamespaces := cw]}) \/
   (exists ns fac cw, ns <> allNamespaces /\ fac <> cw /\
      factories f = <[allNamespaces := cw]> {[ns := fac]})) /\
  (forall k pf, forwarders f !! k = Some pf -> Path pf = k).

(** Stand-ins: informer factories that know no resource. *)
Definition no_informers : Informers :=
  {| informer_for := fun _ _ => false;
     lister_List := fun _ _ _ => (None, None);
     lister_Get := fun _ _ _ => (None, None) |}.

(** ** [APIClient]: the authorization check, cached handles and discovery
    queries *)

Module ClientConn.

(** [metav1.GroupVersionForDiscovery], [metav1.APIGroup], [metav1.APIResource]
    and [metav1.APIResourceList], with the fields the code reads. *)
Record GroupVersionForDiscovery := mkVersion { gv_GroupVersion : string; gv_Version : string }.
Record APIGroup := mkGroup { grp_Name : string; grp_Versions : list GroupVersionForDiscovery }.
Record APIResource := mkResource { ar_Name : string; ar_Namespaced : bool }.
Record APIResourceList :=
  mkResourceList { rl_GroupVersion : string; rl_APIResources : list APIResource }.

(** [authorizationv1.ResourceAttributes] of a [SelfSubjectAccessReview]. *)
Record ResourceAttributes := mkAttrs {
  ra_Namespace : string;
  ra_Verb : string;
  ra_Group : string;
  ra_Resource : string;
  ra_Subresource : string
}.

(** What [SelfSubjectAccessReviews().Create(sar)] answers: a response whose
    [Status.Allowed] is set or not, or an error. *)
Inductive review :=
| Allowed
| Denied
| Failed (msg : string).

(** The calls made on the collaborators: the [Config], the client
    constructors of client-go, a discovery client, and the access reviews
    created through a clientset. *)
Inductive call :=
| RESTConfig
| HomeDir
| NewClientset
| NewDynamic
| NewMetrics
| NewDiscovery
| ServerGroups (disc : nat)
| ServerPreferredResources (disc : nat)
| CurrentContextName
| SwitchContext (ctx : string)
| CreateReview (dial : nat) (sar : ResourceAttributes).

(** The error that a failed call handed back. *)
Inductive failure := FailureOf (c : call).

(** How a call ends that does not return: [log.Panic().Msgf], [log.Fatal()]
    sent with [Msg] (the process exits), [mustHomeDir], a method of a nil
    discovery client, and an index out of range. *)
Inductive death :=
| PanicMsg
| FatalExit
| HomeDirFailed
| NilPointer
| IndexPanic (index : Z) (len : nat).

(** The collaborators.  Each answer may depend on the calls made so far.
    [mustHomeDir], [metricsapi.GroupName] and the logger are declared
    outside the given sources: whether [mustHomeDir] returns, the group
    name, and whether a panic-level log event that is built but never sent
    ([log.Panic().Err(err)] without [Msg]) panics, are left open. *)
Class Cluster := {
  config_RESTConfig : list call -> bool;
  config_CurrentContextName : list call -> option string;
  config_SwitchContext : list call -> string -> bool;
  mustHomeDir : list call -> bool;
  kubernetes_NewForConfig : list call -> bool;
  dynamic_NewForConfig : list call -> bool;
  versioned_NewForConfig : list call -> bool;
  disk_NewCachedDiscoveryClientForConfig : list call -> bool;
  discovery_ServerGroups : list call -> nat -> option (list APIGroup);
  discovery_ServerPreferredResources :
    list call -> nat -> list APIResourceList * bool;
  metrics_GroupName : string;
  unsent_panic_event_panics : bool
}.

(** The API server's answer to an access review created through a clientset,
    which may depend on the calls made so far, and the [client.GVR]
    accessors ([NewGVR(gvr).AsGVR()], [NewGVR(gvr).SubResource()]), which are
    declared outside the given sources. *)
Class Server := {
  AsGVR : string -> GVR;
  SubResource : string -> string;
  sar_Create : list call -> nat -> ResourceAttributes -> review
}.

(** The [APIClient] struct (the [config] is among the collaborators, the
    mutex is left out: one caller at a time), with the next handle to be
    allocated and the calls made so far. *)
Record APIClient := mkClient {
  client : option nat;
  dClient : option nat;
  nsClient : option nat;
  mxsClient : option nat;
  cachedDiscovery : option nat;
  useMetricServer : bool;
  next_handle : nat;
  history : list call
}.

Inductive outcome (A : Type) :=
| Returns (a : A) (s : APIClient)
| Dies (d : death) (s : APIClient).
Arguments Returns {A} a s.
Arguments Dies {A} d s.

Definition M (A : Type) : Type := APIClient -> outcome A.

Definition ret {A} (a : A) : M A := fun s => Returns a s.
Definition bind {A B} (m : M A) (k : A -> M B) : M B :=
  fun s =>
    match m s with
    | Returns a s' => k a s'
    | Dies d s' => Dies d s'
    end.
Definition die {A} (d : death) : M A := fun s => Dies d s.
Definition gets {A} (proj : APIClient -> A) : M A := fun s => Returns (proj s) s.
Definition modify (g : APIClient -> APIClient) : M unit := fun s => Returns tt (g s).

Notation "'let?' x ':=' m 'in' k" := (bind m (fun x => k))
  (at level 10, x name, m at level 100, k at level 200).
Notation "'do?' m 'in' k" := (bind m (fun _ => k))
  (at level 10, m at level 100, k at level 200).

Definition set_client (h : option nat) (s : APIClient) : APIClient :=
  mkClient h (dClient s) (nsClient s) (mxsClient s) (cachedDiscovery s)
           (useMetricServer s) (next_handle s) (history s).
Definition set_dClient (h : option nat) (s : APIClient) : APIClient :=
  mkClient (client s) h (nsClient s) (mxsClient s) (cachedDiscovery s)
           (useMetricServer s) (next_handle s) (history s).
Definition set_mxsClient (h : option nat) (s : APIClient) : APIClient :=
  mkClient (client s) (dClient s) (nsClient s) h (cachedDiscovery s)
           (useMetricServer s) (next_handle s) (history s).
Definition set_cachedDiscovery (h : option nat) (s : APIClient) : APIClient :=
  mkClient (client s) (dClient s) (nsClient s) (mxsClient s) h
           (useMetricServer s) (next_handle s) (history s).
Definition set_useMetricServer (b : bool) (s : APIClient) : APIClient :=
  mkClient (client s) (dClient s) (nsClient s) (mxsClient s) (cachedDiscovery s)
           b (next_handle s) (history s).
Definition called (c : call) (s : APIClient) : APIClient :=
  mkClient (client s) (dClient s) (nsClient s) (mxsClient s) (cachedDiscovery s)
           (useMetricServer s) (next_handle s) (history s ++ [c]).
Definition allocated (s : APIClient) : APIClient :=
  mkClient (client s) (dClient s) (nsClient s) (mxsClient s) (cachedDiscovery s)
           (useMetricServer s) (S (next_handle s)) (history s).

(** [supportedMetricsAPIVersions]. *)
Definition supportedMetricsAPIVersions : list string := ["v1beta1"].

(** The inner loop of [checkMetricsVersion], over the supported versions. *)
Fixpoint is_supported (version : string) (supported : list string) : bool :=
  match supported with
  | [] => false
  | supportedVersion :: rest =>
      if String.eqb version supportedVersion then true else is_supported version rest
  end.

Fixpoint checkMetricsVersion_loop (versions : list GroupVersionForDiscovery) : bool :=
  match versions with
  | [] => false
  | version :: rest =>
      if is_supported (gv_Version version) supportedMetricsAPIVersions then true
      else checkMetricsVersion_loop rest
  end.

Definition checkMetricsVersion (grp : APIGroup) : bool :=
  checkMetricsVersion_loop (grp_Versions grp).

(** The loop of [SupportsRes]: the first group of the name decides. *)
Fixpoint SupportsRes_loop (group : string) (groups : list APIGroup)
    : M (string * bool * option failure) :=
  match groups with
  | [] => ret (EmptyString, false, None)
  | grp :: rest =>
      if negb (String.eqb (grp_Name grp) group) then SupportsRes_loop group rest
      else
        let i := Z.of_nat (length (grp_Versions grp)) - 1 in
        match (if i <? 0 then None else grp_Versions grp !! Z.to_nat i) with
        | Some v => ret (gv_Version v, true, None)
        | None => die (IndexPanic i (length (grp_Versions grp)))
        end
  end.

(** The loops of [IsNamespaced]. *)
Fixpoint IsNamespaced_resources (res : string) (rs : list APIResource) : option bool :=
  match rs with
  | [] => None
  | r :: rest =>
      if String.eqb (ar_Name r) res then Some (ar_Namespaced r)
      else IsNamespaced_resources res rest
  end.

Fixpoint IsNamespaced_loop (res : string) (list : list APIResourceList) : bool :=
  match list with
  | [] => false
  | l :: rest =>
      match IsNamespaced_resources res (rl_APIResources l) with
      | Some namespaced => namespaced
      | None => IsNamespaced_loop res rest
      end
  end.

(** The loop of [SupportsResource]. *)
Fixpoint SupportsResource_loop (group : string) (list : list APIResourceList) : bool :=
  match list with
  | [] => false
  | l :: rest =>
      if String.eqb (rl_GroupVersion l) group then true
      else SupportsResource_loop group rest
  end.

Section Code.
Context `{Cluster} `{Server}.

(** A call on a collaborator: recorded, and answered from the calls before
    it. *)
Definition ask {A} (c : call) (answer : list call -> A) : M A :=
  fun s => Returns (answer (history s)) (called c s).

(** A constructor of client-go that returned: a fresh handle. *)
Definition fresh : M nat :=
  fun s => Returns (next_handle s) (allocated s).

Definition RestConfigOrDie : M unit :=
  let? ok := ask RESTConfig config_RESTConfig in
  if ok : bool then ret tt else die PanicMsg.

Definition DialOrDie : M nat :=
  let? held := gets client in
  match held with
  | Some h => ret h
  | None =>
      do? RestConfigOrDie in
      let? ok := ask NewClientset kubernetes_NewForConfig in
      if ok : bool then
        let? h := fresh in
        do? modify (set_client (Some h)) in
        ret h
      else die FatalExit
  end.

Definition makeSAR (ns gvr : string) : ResourceAttributes :=
  let ns := if String.eqb ns "-" then EmptyString else ns in
  let res := AsGVR gvr in
  {| ra_Namespace := ns; ra_Verb := EmptyString; ra_Group := Group res;
     ra_Resource := Resource res; ra_Subresource := SubResource gvr |}.

(** [sar.Spec.ResourceAttributes.Verb = v]. *)
Definition set_Verb (v : string) (sar : ResourceAttributes) : ResourceAttributes :=
  {| ra_Namespace := ra_Namespace sar; ra_Verb := v; ra_Group := ra_Group sar;
     ra_Resource := ra_Resource sar; ra_Subresource := ra_Subresource sar |}.

(** The loop of [CanI]: one review per verb, created through the clientset
    [dial], until one is refused or fails. *)
Fixpoint CanI_loop (dial : nat) (ns gvr : string) (sar : ResourceAttributes)
    (verbs : list string) : M (bool * option error) :=
  match verbs with
  | [] => ret (true, None)
  | v :: verbs' =>
      let sar := set_Verb v sar in
      let? resp := ask (CreateReview dial sar) (fun h => sar_Create h dial sar) in
      match resp with
      | Failed msg => ret (false, Some (ErrRemote msg))
      | Denied => ret (false, Some (ErrAccessDenied v ns gvr))
      | Allowed => CanI_loop dial ns gvr sar verbs'
      end
  end.

Definition CanI (ns gvr : string) (verbs : list string) : M (bool * option error) :=
  let sar := makeSAR ns gvr in
  let? dial := DialOrDie in
  CanI_loop dial ns gvr sar verbs.

Definition call_mustHomeDir : M unit :=
  let? ok := ask HomeDir mustHomeDir in
  if ok : bool then ret tt else die HomeDirFailed.

Definition CachedDiscovery : M (option nat * option failure) :=
  let? held := gets cachedDiscovery in
  match held with
  | Some h => ret (Some h, None)
  | None =>
      do? RestConfigOrDie in
      do? call_mustHomeDir in
      do? call_mustHomeDir in
      let? ok := ask NewDiscovery disk_NewCachedDiscoveryClientForConfig in
      if ok : bool then
        let? h := fresh in
        do? modify (set_cachedDiscovery (Some h)) in
        ret (Some h, None)
      else
        do? modify (set_cachedDiscovery None) in
        ret (None, Some (FailureOf NewDiscovery))
  end.

Definition DynDialOrDie : M (option nat) :=
  let? held := gets dClient in
  match held with
  | Some h => ret (Some h)
  | None =>
      do? RestConfigOrDie in
      let? ok := ask NewDynamic dynamic_NewForConfig in
      if ok : bool then
        let? h := fresh in
        do? modify (set_dClient (Some h)) in
        ret (Some h)
      else
        do? modify (set_dClient None) in
        if unsent_panic_event_panics then die PanicMsg else ret None
  end.

Definition MXDial : M (option nat * option failure) :=
  let? held := gets mxsClient in
  match held with
  | Some h => ret (Some h, None)
  | None =>
      do? RestConfigOrDie in
      let? ok := ask NewMetrics versioned_NewForConfig in
      if ok : bool then
        let? h := fresh in
        do? modify (set_mxsClient (Some h)) in
        ret (Some h, None)
      else
        do? modify (set_mxsClient None) in
        ret (None, Some (FailureOf NewMetrics))
  end.

Definition reset : M unit :=
  modify (fun s => mkClient None None None None (cachedDiscovery s)
                            (useMetricServer s) (next_handle s) (history s)).

(** The loop of [supportsMxServer]: a group of another name is skipped, and
    so is a metrics group without a supported version. *)
Fixpoint supportsMxServer_loop (groups : list APIGroup) : bool :=
  match groups with
  | [] => false
  | grp :: rest =>
      if negb (String.eqb (grp_Name grp) metrics_GroupName) then supportsMxServer_loop rest
      else if checkMetricsVersion grp then true
      else supportsMxServer_loop rest
  end.

Definition supportsMxServer : M bool :=
  let? d := CachedDiscovery in
  match d with
  | (_, Some _) => ret false
  | (None, None) => die NilPointer
  | (Some disc, None) =>
      let? apiGroups := ask (ServerGroups disc) (fun h => discovery_ServerGroups h disc) in
      match apiGroups with
      | None => ret false
      | Some groups => ret (supportsMxServer_loop groups)
      end
  end.

Definition HasMetrics : M bool := gets useMetricServer.

Definition SwitchContextOrDie (ctx : string) : M unit :=
  let? current := ask CurrentContextName config_CurrentContextName in
  match current with
  | None => die FatalExit
  | Some currentCtx =>
      if negb (String.eqb currentCtx ctx) then
        do? modify (set_cachedDiscovery None) in
        do? reset in
        let? ok := ask (SwitchContext ctx) (fun h => config_SwitchContext h ctx) in
        if ok : bool then
          let? mx := supportsMxServer in
          modify (set_useMetricServer mx)
        else die FatalExit
      else ret tt
  end.

Definition SupportsRes (group : string) (versions : list string)
    : M (string * bool * option failure) :=
  let? d := CachedDiscovery in
  match d with
  | (_, Some err) => ret (EmptyString, false, Some err)
  | (None, None) => die NilPointer
  | (Some disc, None) =>
      let? apiGroups := ask (ServerGroups disc) (fun h => discovery_ServerGroups h disc) in
      match apiGroups with
      | None => ret (EmptyString, false, Some (FailureOf (ServerGroups disc)))
      | Some groups => SupportsRes_loop group groups
      end
  end.

Definition IsNamespaced (res : string) : M bool :=
  let? d := CachedDiscovery in
  match d with
  | (_, Some _) => ret false
  | (None, None) => die NilPointer
  | (Some disc, None) =>
      let? answer := ask (ServerPreferredResources disc)
                         (fun h => discovery_ServerPreferredResources h disc) in
      ret (IsNamespaced_loop res answer.1)
  end.

Definition SupportsResource (group : string) : M bool :=
  let? d := CachedDiscovery in
  match d with
  | (_, Some _) => ret false
  | (None, None) => die NilPointer
  | (Some disc, None) =>
      let? answer := ask (ServerPreferredResources disc)
                         (fun h => discovery_ServerPreferredResources h disc) in
      if answer.2 : bool then ret false
      else ret (SupportsResource_loop group answer.1)
  end.

(** [InitConnectionOrDie]: a client without handles, whose first act is to
    ask the cluster for its metrics support. *)
Definition empty_client : APIClient :=
  mkClient None None None None None false 0 [].

Definition InitConnectionOrDie : outcome unit :=
  (let? mx := supportsMxServer in modify (set_useMetricServer mx)) empty_client.

(** The exported operations that can change an [APIClient]
    ([ServerVersion] and [ValidNamespaces] change it through [DialOrDie] and
    [CachedDiscovery]). *)
Inductive op :=
| OpCanI (ns gvr : string) (verbs : list string)
| OpDialOrDie
| OpRestConfigOrDie
| OpCachedDiscovery
| OpDynDialOrDie
| OpMXDial
| OpSwitchContextOrDie (ctx : string)
| OpHasMetrics
| OpSupportsRes (group : string) (versions : list string)
| OpIsNamespaced (res : string)
| OpSupportsResource (group : string).

Definition run (o : op) : M unit :=
  match o with
  | OpCanI ns gvr verbs => do? CanI ns gvr verbs in ret tt
  | OpDialOrDie => do? DialOrDie in ret tt
  | OpRestConfigOrDie => RestConfigOrDie
  | OpCachedDiscovery => do? CachedDiscovery in ret tt
  | OpDynDialOrDie => do? DynDialOrDie in ret tt
  | OpMXDial => do? MXDial in ret tt
  | OpSwitchContextOrDie ctx => SwitchContextOrDie ctx
  | OpHasMetrics => do? HasMetrics in ret tt
  | OpSupportsRes group versions => do? SupportsRes group versions in ret tt
  | OpIsNamespaced res => do? IsNamespaced res in ret tt
  | OpSupportsResource group => do? SupportsResource group in ret tt
  end.

(** The clients that a program can hold. *)
Inductive reachable_client : APIClient -> Prop :=
| client_new s : InitConnectionOrDie = Returns tt s -> reachable_client s
| client_step o s s' : reachable_client s -> run o s = Returns tt s' -> reachable_client s'.

End Code.

(** The client after [a.RestConfigOrDie()] returned, and after the arguments
    of the discovery constructor were had. *)
Definition configured (s : APIClient) : APIClient := called RESTConfig s.
Definition homed (s : APIClient) : APIClient :=
  called HomeDir (called HomeDir (configured s)).

(** The client with every handle dropped, as [SwitchContextOrDie] leaves it
    before it asks the [Config] to switch. *)
Definition dropped (s : APIClient) : APIClient :=
  mkClient None None None None None (useMetricServer s) (next_handle s) (history s).

(** The client when [SwitchContextOrDie] has asked the [Config] to switch. *)
Definition switching (ctx : string) (s : APIClient) : APIClient :=
  called (SwitchContext ctx) (dropped (called CurrentContextName s)).

(** The handles that the client holds. *)
Definition handles (s : APIClient) : list (option nat) :=
  [client s; dClient s; nsClient s; mxsClient s; cachedDiscovery s].

(** Every handle held was allocated before the next one. *)
Definition handles_allocated (s : APIClient) : Prop :=
  forall x, Some x ∈ handles s -> (x < next_handle s)%nat.

(** A step after which every handle held is still an allocated one. *)
Definition grown (s s1 : APIClient) : Prop :=
  handles_allocated s1 /\ (next_handle s <= next_handle s1)%nat.

(** The client in which a computation ended. *)
Definition final {A} (o : outcome A) : APIClient :=
  match o with
  | Returns _ s => s
  | Dies _ s => s
  end.

(** The review that [CanI] creates for a namespace, a resource identifier
    and a verb, field by field. *)
Definition review_of `{Server} (ns gvr v : string) : ResourceAttributes :=
  {| ra_Namespace := if String.eqb ns "-" then EmptyString else ns;
     ra_Verb := v;
     ra_Group := Group (AsGVR gvr);
     ra_Resource := Resource (AsGVR gvr);
     ra_Subresource := SubResource gvr |}.

(** The client after the reviews [sent] were created, one after the other,
    through the clientset [dial]. *)
Definition reviewed (dial : nat) (sent : list ResourceAttributes) (s : APIClient)
    : APIClient :=
  foldl (fun s sar => called (CreateReview dial sar) s) s sent.

(** The server allows each of the reviews [sars], created one after the
    other through the clientset [dial] after the calls [hist]. *)
Fixpoint all_allowed `{Server} (dial : nat) (hist : list call)
    (sars : list ResourceAttributes) : Prop :=
  match sars with
  | [] => True
  | sar :: rest =>
      sar_Create hist dial sar = Allowed /\
      all_allowed dial (hist ++ [CreateReview dial sar]) rest
  end.

(** The error of a result is the one built for a denied verb. *)
Definition is_denial (r : bool * option error) : bool :=
  match r with
  | (_, Some (ErrAccessDenied _ _ _)) => true
  | _ => false
  end.

(** A cluster whose every call succeeds, with a metrics server. *)
Definition metrics_cluster : Cluster :=
  {| config_RESTConfig := fun _ => true;
     config_CurrentContextName := fun _ => Some "prod";
     config_SwitchContext := fun _ _ => true;
     mustHomeDir := fun _ => true;
     kubernetes_NewForConfig := fun _ => true;
     dynamic_NewForConfig := fun _ => true;
     versioned_NewForConfig := fun _ => true;
     disk_NewCachedDiscoveryClientForConfig := fun _ => true;
     discovery_ServerGroups := fun _ _ =>
       Some [mkGroup "apps" [mkVersion "apps/v1" "v1"];
             mkGroup "metrics.k8s.io" [mkVersion "metrics.k8s.io/v1beta1" "v1beta1"]];
     discovery_ServerPreferredResources := fun _ _ =>
       ([mkResourceList "v1" [mkResource "pods" true; mkResource "nodes" false];
         mkResourceList "apps/v1" [mkResource "deployments" true]], false);
     metrics_GroupName := "metrics.k8s.io";
     unsent_panic_event_panics := false |}.

(** A cluster of which neither the discovery client nor the metrics client
    can be built. *)
Definition offline_cluster : Cluster :=
  {| config_RESTConfig := fun _ => true;
     config_CurrentContextName := fun _ => None;
     config_SwitchContext := fun _ _ => false;
     mustHomeDir := fun _ => true;
     kubernetes_NewForConfig := fun _ => true;
     dynamic_NewForConfig := fun _ => true;
     versioned_NewForConfig := fun _ => false;
     disk_NewCachedDiscoveryClientForConfig := fun _ => false;
     discovery_ServerGroups := fun _ _ => None;
     discovery_ServerPreferredResources := fun _ _ => ([], true);
     metrics_GroupName := "metrics.k8s.io";
     unsent_panic_event_panics := false |}.

(** A cluster whose [Config] cannot give a REST configuration. *)
Definition unconfigured_cluster : Cluster :=
  {| config_RESTConfig := fun _ => false;
     config_CurrentContextName := fun _ => None;
     config_SwitchContext := fun _ _ => false;
     mustHomeDir := fun _ => true;
     kubernetes_NewForConfig := fun _ => true;
     dynamic_NewForConfig := fun _ => true;
     versioned_NewForConfig := fun _ => true;
     disk_NewCachedDiscoveryClientForConfig := fun _ => true;
     discovery_ServerGroups := fun _ _ => None;
     discovery_ServerPreferredResources := fun _ _ => ([], true);
     metrics_GroupName := "metrics.k8s.io";
     unsent_panic_event_panics := false |}.

(** An API server that allows reading, whose review of ["watch"] fails, and
    that denies the rest. *)
Definition reading_server : Server :=
  {| AsGVR := fun gvr => match toGVR gvr with
                         | Ok r => r
                         | Raise _ => mkGVR EmptyString EmptyString gvr
                         end;
     SubResource := fun _ => EmptyString;
     sar_Create := fun _ _ sar =>
       if String.eqb (ra_Verb sar) "get" || String.eqb (ra_Verb sar) "list" then Allowed
       else if String.eqb (ra_Verb sar) "watch" then Failed "timeout"
       else Denied |}.

(** The client that [InitConnectionOrDie] returns on [metrics_cluster]. *)
Definition connected_client : APIClient :=
  mkClient None None None None (Some 0%nat) true 1
           [RESTConfig; HomeDir; HomeDir; NewDiscovery; ServerGroups 0].

End ClientConn.

(** ** [render.Alias] *)

Module Render.

(** [AliasRes], and an [interface{}] value: an [AliasRes], or a value of
    another dynamic type, named as [%T] prints it. *)
Record AliasRes := mkAliasRes { res_GVR : string; Aliases : list string }.

Inductive object :=
| AliasResValue (a : AliasRes)
| OtherValue (type_name : string).

(** The fields of a [Row] that [Render] writes. *)
Record Row := mkRow { ID : string; Fields : list string }.

(** [fmt.Errorf("expected AliasRes, but got %T", o)]. *)
Inductive render_error := ExpectedAliasRes (got : string).

(** [client.GVR(gvr).ToRAndG()], declared outside the given sources. *)
Class GVRAccessors := { ToRAndG : string -> string * string }.

(** [strings.Join(elems, sep)]. *)
Fixpoint Join (elems : list string) (sep : string) : string :=
  match elems with
  | [] => EmptyString
  | [a] => a
  | a :: rest => a +:+ sep +:+ Join rest sep
  end.

(** The names of the [Header]s of [Alias.Header]. *)
Definition Header (ns : string) : list string := ["RESOURCE"; "COMMAND"; "APIGROUP"].

(** [Alias.Render]: the row pointed to is updated in place, or left alone
    with an error. *)
Definition Render `{GVRAccessors} (o : object) (gvr : string) (r : Row)
    : Row * option render_error :=
  match o with
  | OtherValue type_name => (r, Some (ExpectedAliasRes type_name))
  | AliasResValue a =>
      let '(grp, res) := ToRAndG (res_GVR a) in
      (mkRow gvr (Fields r ++ [res; Join (Aliases a) ","; grp]), None)
  end.

(** [AliasRes.DeepCopyObject] returns its receiver. *)
Definition DeepCopyObject (a : AliasRes) : AliasRes := a.

(** Accessors that read a resource identifier as [group/resource]. *)
Definition slash_accessors : GVRAccessors :=
  {| ToRAndG := fun gvr => match Split gvr slash with
                           | [g; r] => (g, r)
                           | _ => (EmptyString, gvr)
                           end |}.

End Render.

(** * Proofs *)

(** ** Byte strings *)

Lemma append_cons (x : ascii) (a b : string) : String x a +:+ b = String x (a +:+ b).
Proof. reflexivity. Qed.

Lemma append_nil (b : string) : EmptyString +:+ b = b.
Proof. reflexivity. Qed.

Ltac simpl_app := rewrite ?append_cons, ?append_nil; simpl.

Lemma append_assoc (a b c : string) : (a +:+ b) +:+ c = a +:+ (b +:+ c).
Proof. induction a as [|x a IH]; simpl_app; [reflexivity | now rewrite IH]. Qed.

Lemma append_empty_r (a : string) : a +:+ EmptyString = a.
Proof. induction a as [|x a IH]; simpl_app; [reflexivity | now rewrite IH]. Qed.

Lemma LastIndexByte_bounds (s : string) (c : ascii) :
  -1 <= LastIndexByte s c < Z.of_nat (String.length s).
Proof.
  induction s as [|a s IH]; simpl; [lia|].
  destruct (0 <=? LastIndexByte s c) eqn:E.
  - apply Z.leb_le in E. lia.
  - destruct (Ascii.eqb a c); lia.
Qed.

Lemma LastIndexByte_absent (s : string) (c : ascii) :
  has_byte s c = false -> LastIndexByte s c = -1.
Proof.
  induction s as [|a s IH]; simpl; [reflexivity|].
  intros Hb. apply orb_false_iff in Hb as [Ha Hs].
  rewrite (IH Hs), Ha. reflexivity.
Qed.

Lemma LastIndexByte_final (pre post : string) (c : ascii) :
  has_byte post c = false ->
  LastIndexByte (pre +:+ String c post) c = Z.of_nat (String.length pre).
Proof.
  intros Hb. induction pre as [|a pre IH].
  - simpl_app. rewrite (LastIndexByte_absent _ _ Hb), Ascii.eqb_refl. reflexivity.
  - rewrite append_cons. cbn [LastIndexByte String.length]. rewrite IH.
    destruct (0 <=? Z.of_nat (String.length pre)) eqn:E.
    + lia.
    + apply Z.leb_gt in E. lia.
Qed.

Lemma substring_whole (s : string) : substring 0 (String.length s) s = s.
Proof. induction s as [|a s IH]; simpl; [reflexivity | now rewrite IH]. Qed.

Lemma substring_prefix (a b : string) :
  substring 0 (String.length a) (a +:+ b) = a.
Proof.
  induction a as [|x a IH]; simpl_app.
  - destruct b; reflexivity.
  - now rewrite IH.
Qed.

Lemma substring_suffix (a b : string) :
  substring (String.length a) (String.length b) (a +:+ b) = b.
Proof.
  induction a as [|x a IH]; simpl_app; [apply substring_whole | exact IH].
Qed.

Lemma length_append (a b : string) :
  String.length (a +:+ b) = (String.length a + String.length b)%nat.
Proof. induction a as [|x a IH]; simpl_app; [reflexivity | now rewrite IH]. Qed.

Lemma path_Split_final (pre post : string) :
  has_byte post slash = false ->
  path_Split (pre +:+ String slash post) = (pre +:+ String slash EmptyString, post).
Proof.
  intros Hb. unfold path_Split, slice_to, slice_from.
  rewrite (LastIndexByte_final _ _ _ Hb).
  replace (Z.to_nat (Z.of_nat (String.length pre) + 1))
    with (String.length (pre +:+ String slash EmptyString))
    by (rewrite length_append; simpl; lia).
  replace (pre +:+ String slash post)
    with ((pre +:+ String slash EmptyString) +:+ post)
    by (rewrite append_assoc; reflexivity).
  rewrite substring_prefix.
  replace (String.length ((pre +:+ String slash EmptyString) +:+ post)
           - String.length (pre +:+ String slash EmptyString))%nat
    with (String.length post)
    by (rewrite (length_append (pre +:+ _) post); lia).
  now rewrite substring_suffix.
Qed.

Lemma path_Split_absent (s : string) :
  has_byte s slash = false -> path_Split s = (EmptyString, s).
Proof.
  intros Hb. unfold path_Split, slice_to, slice_from.
  rewrite (LastIndexByte_absent _ _ Hb). simpl.
  rewrite Nat.sub_0_r, substring_whole. destruct s; reflexivity.
Qed.

Lemma trimRightByte_snoc (s : string) (c : ascii) :
  trimRightByte (s +:+ String c EmptyString) c = trimRightByte s c.
Proof.
  induction s as [|a s IH]; simpl_app.
  - now rewrite Ascii.eqb_refl.
  - now rewrite IH.
Qed.

Lemma Trim_snoc (s : string) (c : ascii) :
  Trim (s +:+ String c EmptyString) c = Trim s c.
Proof. unfold Trim. now rewrite trimRightByte_snoc. Qed.

(** What [trimRightByte] cuts off is a run of [c], and what it leaves does not
    end in [c]. *)
Lemma trimRightByte_spec (s : string) (c : ascii) :
  last_byte (trimRightByte s c) <> Some c /\
  exists m, s = trimRightByte s c +:+ bytes m c.
Proof.
  induction s as [|a s [IHl [m IHm]]]; simpl.
  - split; [discriminate | exists 0%nat; reflexivity].
  - destruct (trimRightByte s c) as [|b r] eqn:E.
    + destruct (Ascii.eqb a c) eqn:Ea.
      * apply Ascii.eqb_eq in Ea as ->. split; [discriminate|].
        exists (S m). rewrite append_nil in *. simpl. now rewrite IHm at 1.
      * split.
        -- simpl. intros [= ->]. now rewrite Ascii.eqb_refl in Ea.
        -- exists m. rewrite append_nil in IHm. simpl_app. now rewrite IHm at 1.
    + split; [exact IHl|]. exists m. rewrite !append_cons in *. now rewrite IHm at 1.
Qed.

Lemma trimLeftByte_spec (s : string) (c : ascii) :
  first_byte (trimLeftByte s c) <> Some c /\
  exists n, s = bytes n c +:+ trimLeftByte s c.
Proof.
  induction s as [|a s [IHf [n IHn]]]; simpl.
  - split; [discriminate | exists 0%nat; reflexivity].
  - destruct (Ascii.eqb a c) eqn:Ea.
    + apply Ascii.eqb_eq in Ea as ->. split; [exact IHf|].
      exists (S n). simpl. rewrite append_cons. now rewrite IHn at 1.
    + split.
      * simpl. intros [= ->]. now rewrite Ascii.eqb_refl in Ea.
      * exists 0%nat. reflexivity.
Qed.

(** Cutting a prefix off a string that does not end in [c] leaves one that
    does not end in [c] either. *)
Lemma last_byte_trimLeftByte (s : string) (c : ascii) :
  last_byte s <> Some c -> last_byte (trimLeftByte s c) <> Some c.
Proof.
  induction s as [|a s IH]; simpl; [easy|].
  destruct (Ascii.eqb a c) eqn:Ea.
  - intros Hl. apply IH. destruct s; [discriminate | exact Hl].
  - easy.
Qed.

Lemma Trim_spec (s : string) (c : ascii) :
  first_byte (Trim s c) <> Some c /\ last_byte (Trim s c) <> Some c /\
  exists n m, s = bytes n c +:+ Trim s c +:+ bytes m c.
Proof.
  unfold Trim.
  destruct (trimRightByte_spec s c) as [Hl [m Hm]].
  destruct (trimLeftByte_spec (trimRightByte s c) c) as [Hf [n Hn]].
  split; [exact Hf|]. split; [now apply last_byte_trimLeftByte|].
  exists n, m. rewrite <- append_assoc, <- Hn. exact Hm.
Qed.

(** ** The path splitter *)

(** C9.  [namespaced] cuts its argument at the final ["/"]: the name is what
    follows it, and the namespace is what precedes it with every leading and
    trailing ["/"] removed (the part before the final separator is a run of
    separators, the namespace, and a run of separators, and the namespace
    neither starts nor ends with one).  Without a separator the namespace is
    empty and the name is the whole string.  ["default/pod-abc"] gives
    [("default", "pod-abc")] and ["pod-abc"] gives [("", "pod-abc")]. *)
Theorem namespaced_splits_at_final_separator :
  (forall pre post : string,
      has_byte post slash = false ->
      exists (ns : string) (n m : nat),
        namespaced (pre +:+ String slash post) = (ns, post) /\
        ns = Trim pre slash /\
        pre = bytes n slash +:+ ns +:+ bytes m slash /\
        first_byte ns <> Some slash /\ last_byte ns <> Some slash) /\
  (forall s : string,
      has_byte s slash = false -> namespaced s = (EmptyString, s)) /\
  namespaced "default/pod-abc" = ("default", "pod-abc") /\
  namespaced "pod-abc" = ("", "pod-abc").
Proof.
  split; [|split; [|split; reflexivity]].
  - intros pre post Hb.
    destruct (Trim_spec pre slash) as [Hf [Hl [n [m Hpre]]]].
    exists (Trim pre slash), n, m.
    unfold namespaced. rewrite (path_Split_final _ _ Hb), Trim_snoc.
    repeat split; assumption.
  - intros s Hb. unfold namespaced. now rewrite (path_Split_absent _ Hb).
Qed.

Lemma namespaced_splits_witness :
  exists (ns : string) (n m : nat),
    namespaced ("/team//a/" +:+ String slash "web-0") = (ns, "web-0") /\
    ns = Trim "/team//a/" slash /\
    "/team//a/" = bytes n slash +:+ ns +:+ bytes m slash /\
    first_byte ns <> Some slash /\ last_byte ns <> Some slash.
Proof.
  apply (proj1 namespaced_splits_at_final_separator "/team//a/" "web-0").
  reflexivity.
Defined.

(** ** The resource identity resolver *)

Lemma Split_nonempty (s : string) (sep : ascii) : Split s sep <> [].
Proof.
  destruct s as [|a s]; simpl; [discriminate|].
  destruct (Ascii.eqb a sep); [discriminate|].
  destruct (Split s sep); discriminate.
Qed.

Lemma Split_absent (s : string) (sep : ascii) :
  has_byte s sep = false -> Split s sep = [s].
Proof.
  induction s as [|a s IH]; simpl; [reflexivity|].
  intros Hb. apply orb_false_iff in Hb as [Ha Hs].
  now rewrite Ha, (IH Hs).
Qed.

Lemma Split_present (s : string) (sep : ascii) :
  has_byte s sep = true -> (2 <= length (Split s sep))%nat.
Proof.
  induction s as [|a s IH]; simpl; [discriminate|].
  destruct (Ascii.eqb a sep) eqn:Ea; simpl.
  - intros _. pose proof (Split_nonempty s sep).
    destruct (Split s sep); [congruence | simpl; lia].
  - intros Hs. specialize (IH Hs).
    destruct (Split s sep); simpl in *; lia.
Qed.

(** X1.  An identifier that holds a ["/"] resolves: [toGVR] returns a
    triple. *)
Lemma toGVR_with_separator (gvr : string) :
  has_byte gvr slash = true -> exists r, toGVR gvr = Ok r.
Proof.
  intros Hb. pose proof (Split_present _ _ Hb) as Hlen. unfold toGVR.
  destruct (Split gvr slash) as [|t0 [|t1 [|t2 ts]]]; simpl in *; try lia;
    eexists; reflexivity.
Qed.

(** X2.  For every identifier without a ["/"] the one token becomes two, and
    reading position 2 panics. *)
Lemma toGVR_without_separator (gvr : string) :
  has_byte gvr slash = false -> toGVR gvr = Raise (IndexOutOfRange 2 2).
Proof.
  intros Hb. unfold toGVR. now rewrite (Split_absent _ _ Hb).
Qed.

(** C3.  The identifier ["pods"] has no separator: splitting gives one token,
    one empty token is prepended, and reading [tokens[2]] of the two panics
    with an index out of range; no triple is returned. *)
Theorem toGVR_pods_panics :
  Split "pods" slash = ["pods"] /\
  toGVR "pods" = Raise (IndexOutOfRange 2 2) /\
  toGVR "" = Raise (IndexOutOfRange 2 2).
Proof. repeat split. Qed.

(** ** Running the Factory's code *)

Lemma bind_Done {A B} (m : M A) (k : A -> M B) (f f' : Factory) (a : A) :
  m f = Done a f' -> bind m k f = k a f'.
Proof. unfold bind. now intros ->. Qed.

Lemma bind_Panicked {A B} (m : M A) (k : A -> M B) (f f' : Factory) (p : panic) :
  m f = Panicked p f' -> bind m k f = Panicked p f'.
Proof. unfold bind. now intros ->. Qed.

Lemma log_log (es es' : list event) (f : Factory) :
  log es' (log es f) = log (es ++ es') f.
Proof. unfold log. simpl. now rewrite <- app_assoc. Qed.

Lemma toGVR_pods : toGVR gvr_pods = Ok r_pods.
Proof. reflexivity. Qed.
Lemma toGVR_crds : toGVR gvr_crds = Ok r_crds.
Proof. reflexivity. Qed.
Lemma toGVR_clusterroles : toGVR gvr_clusterroles = Ok r_clusterroles.
Proof. reflexivity. Qed.
Lemma toGVR_roles : toGVR gvr_roles = Ok r_roles.
Proof. reflexivity. Qed.

Section FactoryProofs.
Context `{Connection} `{Informers}.

Lemma ForResource_with_Some (ensure : string -> M (option nat)) (ns gvr : string)
    (r : GVR) (fac : nat) (f f1 : Factory) :
  ensure ns f = Done (Some fac) f1 ->
  toGVR gvr = Ok r ->
  ForResource_with ensure ns gvr f =
  Done (informer_of fac r) (log (warm fac (stopChan f1) [r]) f1).
Proof.
  intros Hens Hgvr. unfold ForResource_with.
  rewrite (bind_Done _ _ _ _ _ Hens), Hgvr.
  unfold bind, fact_ForResource, fact_Start, emit, modify, gets, ret, lift. simpl.
  now rewrite log_log.
Qed.

Lemma ForResource_with_panics (ensure : string -> M (option nat)) (ns gvr : string)
    (p : panic) (o : option nat) (f f1 : Factory) :
  ensure ns f = Done o f1 ->
  toGVR gvr = Raise p ->
  ForResource_with ensure ns gvr f = Panicked p f1.
Proof.
  intros Hens Hgvr. unfold ForResource_with.
  now rewrite (bind_Done _ _ _ _ _ Hens), Hgvr.
Qed.

(** The key is remapped and held: nothing is constructed. *)
Lemma ensureFactory_rec_cluster_wide (n : nat) (ns : string) (cw : nat) (f : Factory) :
  factories f !! allNamespaces = Some cw ->
  ensureFactory_rec (S n) ns f = Done (Some cw) f.
Proof.
  intros Hcw. cbn [ensureFactory_rec]. unfold bind, isClusterWide, gets.
  now rewrite Hcw, Hcw.
Qed.

(** The key is held on a Factory without an all-namespaces entry. *)
Lemma ensureFactory_rec_held (n : nat) (ns : string) (fac : nat) (f : Factory) :
  factories f !! allNamespaces = None ->
  factories f !! ns = Some fac ->
  ensureFactory_rec (S n) ns f = Done (Some fac) f.
Proof.
  intros Hcw Hns. cbn [ensureFactory_rec]. unfold bind, isClusterWide, gets.
  now rewrite Hcw, Hns.
Qed.

(** The key is not held and the dial handle cannot be had. *)
Lemma ensureFactory_rec_dial_fails (n : nat) (ns : string) (f : Factory) :
  factories f !! allNamespaces = None ->
  factories f !! ns = None ->
  conn_DynDial = false ->
  ensureFactory_rec (S n) ns f = Panicked DialFailed (log [EvDynDial] f).
Proof.
  intros Hcw Hns Hdial. cbn [ensureFactory_rec].
  unfold bind, isClusterWide, gets, client_DynDialOrDie, emit, modify.
  now rewrite Hcw, Hns, Hdial.
Qed.

(** The key is not held: the dial handle is had, an informer factory is
    constructed and stored, and the warm-up runs. *)
Lemma ensureFactory_rec_construct (n : nat) (ns : string) (f : Factory) :
  factories f !! allNamespaces = None ->
  factories f !! ns = None ->
  conn_DynDial = true ->
  ensureFactory_rec (S n) ns f =
  (do! preload_with (ensureFactory_rec n) ns in
   let! facs := gets factories in
   ret (facs !! ns)) (constructed ns f).
Proof.
  intros Hcw Hns Hdial. cbn [ensureFactory_rec].
  unfold bind, isClusterWide, gets, client_DynDialOrDie,
    NewFilteredDynamicSharedInformerFactory, emit, modify, ret.
  rewrite Hcw, Hns, Hdial. simpl.
  replace (log _ (set_next_ref _ (log _ f))) with
    (log (construct (next_ref f) ns) (set_next_ref (S (next_ref f)) f))
    by (unfold log, set_next_ref; simpl; now rewrite <- app_assoc).
  reflexivity.
Qed.

(** The warm-up on a Factory whose all-namespaces entry is [cw]. *)
Lemma preload_with_cluster_wide (n : nat) (ns : string) (cw : nat) (f : Factory) :
  factories f !! allNamespaces = Some cw ->
  preload_with (ensureFactory_rec (S n)) ns f =
  Done tt (log (warm cw (stopChan f) [r_pods; r_crds; r_clusterroles; r_roles]) f).
Proof.
  intros Hcw. unfold preload_with.
  assert (Hwarm : forall (ns' gvr : string) (r : GVR) (g : Factory),
             factories g !! allNamespaces = Some cw ->
             toGVR gvr = Ok r ->
             ForResource_with (ensureFactory_rec (S n)) ns' gvr g =
             Done (informer_of cw r) (log (warm cw (stopChan g) [r]) g)).
  { intros ns' gvr r g Hg Hr.
    apply ForResource_with_Some; [now apply ensureFactory_rec_cluster_wide | exact Hr]. }
  rewrite (bind_Done _ _ _ _ _ (Hwarm _ _ _ _ Hcw toGVR_pods)).
  rewrite (bind_Done _ _ _ _ _ (Hwarm _ _ _ _ (Hcw : factories (log _ f) !! _ = _) toGVR_crds)).
  rewrite (bind_Done _ _ _ _ _
    (Hwarm _ _ _ _ (Hcw : factories (log _ (log _ f)) !! _ = _) toGVR_clusterroles)).
  rewrite (bind_Done _ _ _ _ _
    (Hwarm _ _ _ _ (Hcw : factories (log _ (log _ (log _ f))) !! _ = _) toGVR_roles)).
  rewrite !log_log. reflexivity.
Qed.

(** Constructing the all-namespaces informer factory. *)
Lemma ensureFactory_rec_all (n : nat) (f : Factory) :
  factories f !! allNamespaces = None ->
  conn_DynDial = true ->
  ensureFactory_rec (S (S n)) allNamespaces f = Done (Some (next_ref f)) (created_all f).
Proof.
  intros Hcw Hdial.
  rewrite (ensureFactory_rec_construct _ _ _ Hcw Hcw Hdial).
  assert (Hc : factories (constructed allNamespaces f) !! allNamespaces = Some (next_ref f))
    by apply lookup_insert_eq.
  rewrite (bind_Done _ _ _ _ _ (preload_with_cluster_wide n _ _ _ Hc)).
  unfold bind, gets, ret. cbn [factories log]. rewrite Hc. f_equal.
  unfold created_all, constructed, log. simpl. now rewrite <- app_assoc.
Qed.

(** The warm-up for a scope that is held, on a Factory without an
    all-namespaces entry: pods are asked of the scope's informer factory, and
    asking for the custom resource definitions constructs the all-namespaces
    one, which serves the rest. *)
Lemma preload_with_scoped (n : nat) (ns : string) (fac : nat) (f : Factory) :
  factories f !! allNamespaces = None ->
  factories f !! ns = Some fac ->
  conn_DynDial = true ->
  preload_with (ensureFactory_rec (S (S n))) ns f =
  Done tt (log (warm (next_ref f) (stopChan f) [r_crds; r_clusterroles; r_roles])
             (created_all (log (warm fac (stopChan f) [r_pods]) f))).
Proof.
  intros Hcw Hns Hdial. unfold preload_with.
  rewrite (bind_Done _ _ _ _ _
    (ForResource_with_Some _ _ _ _ _ _ _
       (ensureFactory_rec_held (S n) _ _ _ Hcw Hns) toGVR_pods)).
  set (f2 := log _ f).
  assert (H2cw : factories f2 !! allNamespaces = None) by exact Hcw.
  rewrite (bind_Done _ _ _ _ _
    (ForResource_with_Some _ _ _ _ _ _ _
       (ensureFactory_rec_all n _ H2cw Hdial) toGVR_crds)).
  set (f3 := log _ (created_all f2)).
  assert (H3cw : factories f3 !! allNamespaces = Some (next_ref f))
    by (subst f3; simpl; apply lookup_insert_eq).
  rewrite (bind_Done _ _ _ _ _
    (ForResource_with_Some _ _ _ _ _ _ _
       (ensureFactory_rec_cluster_wide (S n) _ _ _ H3cw) toGVR_clusterroles)).
  rewrite (bind_Done _ _ _ _ _
    (ForResource_with_Some _ _ _ _ _ _ _
       (ensureFactory_rec_cluster_wide (S n) _ _ _
          (H3cw : factories (log _ f3) !! _ = _)) toGVR_roles)).
  subst f3. rewrite !log_log. reflexivity.
Qed.

(** Constructing the informer factory of another scope: its warm-up finds it
    for pods, and constructs the all-namespaces one for the rest. *)
Lemma ensureFactory_rec_scoped (n : nat) (ns : string) (f : Factory) :
  ns <> allNamespaces ->
  factories f !! allNamespaces = None ->
  factories f !! ns = None ->
  conn_DynDial = true ->
  ensureFactory_rec (S (S (S n))) ns f = Done (Some (next_ref f)) (created_scoped ns f).
Proof.
  intros Hne Hcw Hns Hdial.
  rewrite (ensureFactory_rec_construct _ _ _ Hcw Hns Hdial).
  assert (H1cw : factories (constructed ns f) !! allNamespaces = None)
    by (simpl; now rewrite lookup_insert_ne).
  assert (H1ns : factories (constructed ns f) !! ns = Some (next_ref f))
    by apply lookup_insert_eq.
  rewrite (bind_Done _ _ _ _ _ (preload_with_scoped n _ _ _ H1cw H1ns Hdial)).
  unfold bind, gets, ret. cbn [factories log created_all constructed].
  rewrite lookup_insert_ne by congruence. rewrite lookup_insert_eq. f_equal.
  unfold created_scoped, created_all, constructed, log. simpl.
  f_equal. now rewrite <- !app_assoc.
Qed.

Lemma ensureFactory_rec_outcome (n : nat) (ns : string) (f : Factory) :
  ensureFactory_rec (S (S (S n))) ns f = ensure_outcome ns f.
Proof.
  unfold ensure_outcome.
  destruct (factories f !! allNamespaces) as [cw|] eqn:Hcw.
  { now apply ensureFactory_rec_cluster_wide. }
  destruct (factories f !! ns) as [fac|] eqn:Hns.
  { now apply ensureFactory_rec_held. }
  destruct conn_DynDial eqn:Hdial.
  - destruct (decide (ns = allNamespaces)) as [->|Hne].
    + now apply ensureFactory_rec_all.
    + now apply ensureFactory_rec_scoped.
  - now apply ensureFactory_rec_dial_fails.
Qed.

Lemma ensureFactory_outcome (ns : string) (f : Factory) :
  ensureFactory ns f = ensure_outcome ns f.
Proof. exact (ensureFactory_rec_outcome 0 ns f). Qed.

(** X3.  [ensureFactory] terminates: three calls deep is deep enough, more
    fuel changes nothing, and the fuel never runs out. *)
Lemma ensureFactory_rec_depth (n : nat) (ns : string) (f : Factory) :
  (call_depth <= n)%nat ->
  ensureFactory_rec n ns f = ensureFactory ns f /\ ensureFactory ns f <> OutOfFuel.
Proof.
  intros Hn. split.
  - destruct n as [|[|[|n]]]; unfold call_depth in Hn; try lia.
    now rewrite ensureFactory_rec_outcome, ensureFactory_outcome.
  - rewrite ensureFactory_outcome. unfold ensure_outcome.
    destruct (factories f !! allNamespaces); [discriminate|].
    destruct (factories f !! ns); [discriminate|].
    destruct conn_DynDial; discriminate.
Qed.

Lemma ForResource_outcome (ns gvr : string) (f : Factory) :
  ForResource ns gvr f =
  match ensure_outcome ns f with
  | Done (Some fac) f1 =>
      match toGVR gvr with
      | Ok r => Done (informer_of fac r) (log (warm fac (stopChan f1) [r]) f1)
      | Raise p => Panicked p f1
      end
  | Done None f1 =>
      match toGVR gvr with
      | Ok _ => Panicked NilDereference f1
      | Raise p => Panicked p f1
      end
  | Panicked p f1 => Panicked p f1
  | OutOfFuel => OutOfFuel
  end.
Proof.
  unfold ForResource. rewrite <- ensureFactory_outcome.
  destruct (ensureFactory ns f) as [[fac|] f1|p f1|] eqn:He.
  - destruct (toGVR gvr) as [r|p] eqn:Hr.
    + now apply ForResource_with_Some.
    + now apply (ForResource_with_panics _ _ _ _ (Some fac)).
  - unfold ForResource_with. rewrite (bind_Done _ _ _ _ _ He).
    now destruct (toGVR gvr).
  - unfold ForResource_with. now rewrite (bind_Panicked _ _ _ _ _ He).
  - unfold ForResource_with, bind. now rewrite He.
Qed.

(** What a returning [ensureFactory] did: nothing when the key, remapped on a
    cluster-wide Factory, was held, and the construction otherwise. *)
Lemma ensure_outcome_Done (ns : string) (f f1 : Factory) (o : option nat) :
  ensure_outcome ns f = Done o f1 ->
  (f1 = f /\
   ((exists cw, factories f !! allNamespaces = Some cw /\ o = Some cw) \/
    (factories f !! allNamespaces = None /\
     exists fac, factories f !! ns = Some fac /\ o = Some fac))) \/
  (factories f !! allNamespaces = None /\ factories f !! ns = None /\
   conn_DynDial = true /\ o = Some (next_ref f) /\
   ((ns = allNamespaces /\ f1 = created_all f) \/
    (ns <> allNamespaces /\ f1 = created_scoped ns f))).
Proof.
  unfold ensure_outcome.
  destruct (factories f !! allNamespaces) as [cw|] eqn:Hcw.
  { intros [= <- <-]. left. split; [reflexivity|]. left. now exists cw. }
  destruct (factories f !! ns) as [fac|] eqn:Hns.
  { intros [= <- <-]. left. split; [reflexivity|]. right. split; [reflexivity|].
    now exists fac. }
  destruct conn_DynDial; [|discriminate].
  intros [= <- <-]. right. repeat split.
  destruct (decide (ns = allNamespaces)) as [->|Hne]; [left | right]; now split.
Qed.

Lemma ForResource_Done (ns gvr : string) (f f' : Factory) (o : option Informer) :
  ForResource ns gvr f = Done o f' ->
  exists (fac : nat) (r : GVR) (f1 : Factory),
    ensure_outcome ns f = Done (Some fac) f1 /\ toGVR gvr = Ok r /\
    o = informer_of fac r /\ f' = log (warm fac (stopChan f1) [r]) f1.
Proof.
  rewrite ForResource_outcome.
  destruct (ensure_outcome ns f) as [[fac|] f1|p f1|]; try discriminate.
  - destruct (toGVR gvr) as [r|p]; [|discriminate].
    intros [= <- <-]. now exists fac, r, f1.
  - now destruct (toGVR gvr).
Qed.

(** ** Loops over the maps *)

Lemma log_nil (f : Factory) : log [] f = f.
Proof. destruct f. unfold log. simpl. now rewrite app_nil_r. Qed.

Lemma for_each_emit {A} (l : list A) (e : A -> event) (f : Factory) :
  for_each l (fun x => emit (e x)) f = Done tt (log (map e l) f).
Proof.
  revert f. induction l as [|x l IH]; intros f; simpl.
  - now rewrite log_nil.
  - unfold bind, emit, modify. rewrite IH, log_log. reflexivity.
Qed.

Lemma delete_keys_all {V} (l : list (string * V)) (m : gmap string V) :
  (forall k v, m !! k = Some v -> exists v', (k, v') ∈ l) ->
  delete_keys l m = ∅.
Proof.
  revert m. induction l as [|[k0 v0] l IH]; intros m Hall; simpl.
  - apply map_empty. intros k. destruct (m !! k) as [v|] eqn:Hk; [|reflexivity].
    destruct (Hall k v Hk) as [v' Hin]. inversion Hin.
  - apply IH. intros k v Hk.
    destruct (decide (k = k0)) as [->|Hne].
    + now rewrite lookup_delete_eq in Hk.
    + rewrite lookup_delete_ne in Hk by congruence.
      destruct (Hall k v Hk) as [v' Hin]. exists v'.
      apply elem_of_cons in Hin as [[= -> ->]|Hin]; [congruence | exact Hin].
Qed.

Lemma delete_keys_map_to_list {V} (m : gmap string V) :
  delete_keys (map_to_list m) m = ∅.
Proof.
  apply delete_keys_all. intros k v Hk. exists v. now apply elem_of_map_to_list.
Qed.

Lemma for_each_delete_factories (l : list (string * nat)) (f : Factory) :
  for_each l (fun kv => modify (set_factories (delete kv.1))) f =
  Done tt (set_factories (delete_keys l) f).
Proof.
  revert f. induction l as [|x l IH]; intros f; simpl.
  - now destruct f.
  - unfold bind, modify. now rewrite IH.
Qed.

Lemma for_each_stop_forwarders (l : list (string * Forwarder)) (f : Factory) :
  for_each l (fun kv => do! Forwarder_Stop kv.2 in
                        modify (set_forwarders (delete kv.1))) f =
  Done tt (log (map (fun kv => EvForwarderStop kv.2) l)
             (set_forwarders (delete_keys l) f)).
Proof.
  revert f. induction l as [|x l IH]; intros f; simpl.
  - rewrite log_nil. now destruct f.
  - unfold bind, Forwarder_Stop, emit, modify. rewrite IH.
    unfold log, set_forwarders. simpl. now rewrite <- app_assoc.
Qed.

Lemma Forwarders_DeleteAll_outcome (f : Factory) :
  Forwarders_DeleteAll f =
  Done tt (log (map (fun kv => EvForwarderStop kv.2) (map_to_list (forwarders f)))
             (set_forwarders (fun _ => ∅) f)).
Proof.
  unfold Forwarders_DeleteAll, bind, gets. rewrite for_each_stop_forwarders.
  unfold set_forwarders. now rewrite delete_keys_map_to_list.
Qed.

(** [Terminate] on a Factory whose stop channel, if it still holds one, is
    open. *)
Lemma Terminate_outcome (f : Factory) :
  (forall c, stopChan f = Some c -> c ∉ closed f) ->
  Terminate f = Done tt (terminated f).
Proof.
  intros Hopen. unfold Terminate, bind, gets.
  destruct (stopChan f) as [c|] eqn:Hstop.
  - unfold close, bind, gets, modify, emit, modify.
    destruct (decide (c ∈ closed f)) as [Hin|_]; [now destruct (Hopen c eq_refl)|].
    cbn [factories log set_stopChan set_closed].
    rewrite for_each_delete_factories, Forwarders_DeleteAll_outcome.
    unfold terminated, log, set_forwarders, set_factories. simpl.
    rewrite delete_keys_map_to_list, Hstop. f_equal. now rewrite <- app_assoc.
  - unfold ret. rewrite for_each_delete_factories, Forwarders_DeleteAll_outcome.
    unfold terminated, log, set_forwarders, set_factories. simpl.
    now rewrite delete_keys_map_to_list, Hstop.
Qed.

(** [DeleteForwarder], unfolded. *)
Lemma DeleteForwarder_outcome (path : string) (f : Factory) :
  DeleteForwarder path f =
  match forwarders f !! path with
  | Some fwd => Done tt (set_forwarders (delete path) (log [EvForwarderStop fwd] f))
  | None => Done tt f
  end.
Proof.
  unfold DeleteForwarder, bind, gets.
  now destruct (forwarders f !! path).
Qed.

(** ** [List] and [Get], unfolded *)

Lemma List_outcome (gvr ns : string) (sel : Selector) (f : Factory) :
  List gvr ns sel f =
  match conn_CanI ns gvr ["list"] with
  | (_, Some err) => Done (None, Some err) (log [EvCanI ns gvr ["list"]] f)
  | (false, None) =>
      Done (None, Some (ErrInsufficientAccess "list" gvr)) (log [EvCanI ns gvr ["list"]] f)
  | (true, None) =>
      match ForResource ns gvr (log [EvCanI ns gvr ["list"]] f) with
      | Done None f1 => Done (None, Some (ErrNoResource gvr)) f1
      | Done (Some inf) f1 =>
          if String.eqb ns clusterScope
          then Done (lister_List inf None sel) (log [EvList inf sel] f1)
          else Done (lister_List inf (Some ns) sel) (log [EvListByNamespace inf ns sel] f1)
      | Panicked p f1 => Panicked p f1
      | OutOfFuel => OutOfFuel
      end
  end.
Proof.
  unfold List, client_CanI, bind, emit, modify, ret.
  destruct (conn_CanI ns gvr ["list"]) as [[|] [err|]]; try reflexivity.
  destruct (ForResource ns gvr (log [EvCanI ns gvr ["list"]] f)) as [[inf|] f1|p f1|];
    try reflexivity.
  now destruct (String.eqb ns clusterScope).
Qed.

Lemma Get_outcome (gvr path : string) (sel : Selector) (f : Factory) :
  Get gvr path sel f =
  let ns := (namespaced path).1 in
  let n := (namespaced path).2 in
  match conn_CanI ns gvr ["get"] with
  | (_, Some err) => Done (None, Some err) (log [EvCanI ns gvr ["get"]] f)
  | (false, None) =>
      Done (None, Some (ErrInsufficientAccess "get" gvr)) (log [EvCanI ns gvr ["get"]] f)
  | (true, None) =>
      match ForResource ns gvr (log [EvCanI ns gvr ["get"]] f) with
      | Done None f1 => Done (None, Some (ErrNoResource gvr)) f1
      | Done (Some inf) f1 =>
          if String.eqb ns clusterScope
          then Done (lister_Get inf None n) (log [EvGet inf n] f1)
          else Done (lister_Get inf (Some ns) n) (log [EvGetByNamespace inf ns n] f1)
      | Panicked p f1 => Panicked p f1
      | OutOfFuel => OutOfFuel
      end
  end.
Proof.
  unfold Get. destruct (namespaced path) as [ns n]. cbn [fst snd].
  unfold client_CanI, bind, emit, modify, ret.
  destruct (conn_CanI ns gvr ["get"]) as [[|] [err|]]; try reflexivity.
  destruct (ForResource ns gvr (log [EvCanI ns gvr ["get"]] f)) as [[inf|] f1|p f1|];
    try reflexivity.
  now destruct (String.eqb ns clusterScope).
Qed.

(** ** What every operation keeps *)

Lemma logged_refl (f : Factory) : logged f f.
Proof. exists []. now rewrite log_nil. Qed.

Lemma logged_log (es : list event) (f f' : Factory) : logged f f' -> logged f (log es f').
Proof. intros [es' ->]. exists (es' ++ es). apply log_log. Qed.

Lemma wf_logged (f f' : Factory) : logged f f' -> wf f -> wf f'.
Proof. now intros [es ->]. Qed.

Lemma wf_ensure_outcome (ns : string) (f f1 : Factory) (o : option nat) :
  wf f -> ensure_outcome ns f = Done o f1 -> wf f1.
Proof.
  intros [Hmap Hchan] Ho.
  apply ensure_outcome_Done in Ho
    as [[-> _] | (_ & _ & _ & _ & [[_ ->] | [_ ->]])]; [now split| |];
    (split; [right; simpl; rewrite lookup_insert_eq; eauto | exact Hchan]).
Qed.

Lemma wf_ForResource (ns gvr : string) (f f' : Factory) (o : option Informer) :
  wf f -> ForResource ns gvr f = Done o f' -> wf f'.
Proof.
  intros Hwf Hfr. apply ForResource_Done in Hfr as (fac & r & f1 & He & _ & _ & ->).
  exact (wf_ensure_outcome _ _ _ _ Hwf He).
Qed.

Lemma List_Done (gvr ns : string) (sel : Selector) (f f' : Factory)
    (r : option (list Object) * option error) :
  List gvr ns sel f = Done r f' ->
  logged f f' \/
  exists o f1, ForResource ns gvr (log [EvCanI ns gvr ["list"]] f) = Done o f1 /\ logged f1 f'.
Proof.
  rewrite List_outcome.
  destruct (conn_CanI ns gvr ["list"]) as [[|] [err|]];
    try (intros [= <- <-]; left; now eexists).
  destruct (ForResource ns gvr (log [EvCanI ns gvr ["list"]] f)) as [[inf|] f1|p f1|] eqn:Hfr;
    try discriminate.
  - destruct (String.eqb ns clusterScope); intros [= <- <-]; right;
      exists (Some inf), f1; (split; [reflexivity | now eexists]).
  - intros [= <- <-]. right. exists None, f1. split; [reflexivity | apply logged_refl].
Qed.

Lemma Get_Done (gvr path : string) (sel : Selector) (f f' : Factory)
    (r : option Object * option error) :
  Get gvr path sel f = Done r f' ->
  logged f f' \/
  exists o f1,
    ForResource (namespaced path).1 gvr
      (log [EvCanI (namespaced path).1 gvr ["get"]] f) = Done o f1 /\ logged f1 f'.
Proof.
  rewrite Get_outcome. cbv zeta.
  destruct (conn_CanI (namespaced path).1 gvr ["get"]) as [[|] [err|]];
    try (intros [= <- <-]; left; now eexists).
  destruct (ForResource (namespaced path).1 gvr _) as [[inf|] f1|p f1|] eqn:Hfr;
    try discriminate.
  - destruct (String.eqb (namespaced path).1 clusterScope); intros [= <- <-]; right;
      exists (Some inf), f1; (split; [reflexivity | now eexists]).
  - intros [= <- <-]. right. exists None, f1. split; [reflexivity | apply logged_refl].
Qed.

Lemma wf_terminated (f : Factory) : wf (terminated f).
Proof. split; [now left | discriminate]. Qed.

Lemma exec_wf (c : call) (f f' : Factory) (a : unit) :
  wf f -> exec c f = Done a f' -> wf f'.
Proof.
  intros Hwf. destruct a.
  destruct c as [|gvr|ns gvr|gvr ns sel|gvr path sel| | |stop| |path|pf|ns|ns gvr|ns gvr];
    cbn [exec].
  - unfold Dump, ret. now intros [= <-].
  - unfold Debug, bind, gets. destruct (toGVR gvr) as [r|p]; [|discriminate].
    cbn [lift ret]. destruct (factories f !! allNamespaces) as [fac|]; [|discriminate].
    unfold fact_ForResource, bind, emit, modify, ret.
    destruct (informer_of fac r); [|discriminate]. now intros [= <-].
  - unfold Show, bind.
    destruct (ForResource ns gvr f) as [[inf|] f1|p f1|] eqn:Hfr; try discriminate.
    intros [= <-]. exact (wf_ForResource _ _ _ _ _ Hwf Hfr).
  - unfold bind, ret. destruct (List gvr ns sel f) as [r f1|p f1|] eqn:Hl; try discriminate.
    intros [= <-]. apply List_Done in Hl as [Hlog | (o & f2 & Hfr & Hlog)].
    + exact (wf_logged _ _ Hlog Hwf).
    + apply (wf_logged _ _ Hlog). exact (wf_ForResource _ _ (log _ f) _ _ Hwf Hfr).
  - unfold bind, ret. destruct (Get gvr path sel f) as [r f1|p f1|] eqn:Hg; try discriminate.
    intros [= <-]. apply Get_Done in Hg as [Hlog | (o & f2 & Hfr & Hlog)].
    + exact (wf_logged _ _ Hlog Hwf).
    + apply (wf_logged _ _ Hlog). exact (wf_ForResource _ _ (log _ f) _ _ Hwf Hfr).
  - unfold WaitForCacheSync, bind, gets. rewrite for_each_emit. now intros [= <-].
  - unfold Init, Start, bind, gets, fact_Start. rewrite for_each_emit. now intros [= <-].
  - unfold Start, bind, gets, fact_Start. rewrite for_each_emit. now intros [= <-].
  - rewrite (Terminate_outcome f (proj2 Hwf)). intros [= <-]. apply wf_terminated.
  - rewrite DeleteForwarder_outcome. destruct (forwarders f !! path).
    + now intros [= <-].
    + now intros [= <-].
  - unfold RegisterForwarder, modify. now intros [= <-].
  - unfold SetActive, bind, isClusterWide, gets, modify.
    destruct (factories f !! allNamespaces) as [cw|] eqn:Hcw; cbn [negb].
    + unfold ret. now intros [= <-].
    + rewrite ensureFactory_outcome.
      destruct (ensure_outcome ns f) as [o f1|p f1|] eqn:He; try discriminate.
      unfold ret. intros [= <-]. exact (wf_ensure_outcome _ _ _ _ Hwf He).
  - unfold Preload, bind, ret.
    destruct (ForResource ns gvr f) as [o f1|p f1|] eqn:Hfr; try discriminate.
    intros [= <-]. exact (wf_ForResource _ _ _ _ _ Hwf Hfr).
  - unfold bind, ret.
    destruct (ForResource ns gvr f) as [o f1|p f1|] eqn:Hfr; try discriminate.
    intros [= <-]. exact (wf_ForResource _ _ _ _ _ Hwf Hfr).
Qed.

Lemma reachable_wf (f : Factory) : reachable f -> wf f.
Proof.
  induction 1 as [|c f a f' _ IH Hexec].
  - split; [now left | intros c [= <-]; set_solver].
  - exact (exec_wf _ _ _ _ IH Hexec).
Qed.

Lemma ensure_outcome_trace (ns : string) (f f1 : Factory) (o : option nat) :
  ensure_outcome ns f = Done o f1 -> exists es, trace f1 = trace f ++ es.
Proof.
  intros Ho.
  apply ensure_outcome_Done in Ho
    as [[-> _] | (_ & _ & _ & _ & [[_ ->] | [_ ->]])].
  - exists []. now rewrite app_nil_r.
  - now eexists.
  - now eexists.
Qed.

(** Returned or panicked, [ForResource] only added to the trace. *)
Lemma ForResource_state_trace (ns gvr : string) (f f' : Factory) :
  outcome_state (ForResource ns gvr f) = Some f' -> exists es, trace f' = trace f ++ es.
Proof.
  rewrite ForResource_outcome.
  assert (Hens : forall o f1, ensure_outcome ns f = o -> outcome_state o = Some f1 ->
                              exists es, trace f1 = trace f ++ es).
  { intros o f1 Ho. destruct o as [a g|p g|]; simpl; intros [= <-].
    - exact (ensure_outcome_trace _ _ _ _ Ho).
    - unfold ensure_outcome in Ho.
      destruct (factories f !! allNamespaces); [discriminate|].
      destruct (factories f !! ns); [discriminate|].
      destruct conn_DynDial; [discriminate|].
      injection Ho as _ <-. now eexists. }
  destruct (ensure_outcome ns f) as [[fac|] f1|p f1|] eqn:He; simpl.
  - destruct (Hens _ f1 eq_refl eq_refl) as [es Hes].
    destruct (toGVR gvr) as [r|p]; simpl; intros [= <-].
    + eexists. simpl. rewrite Hes, <- app_assoc. reflexivity.
    + now exists es.
  - destruct (Hens _ f1 eq_refl eq_refl) as [es Hes].
    destruct (toGVR gvr) as [r|p]; simpl; intros [= <-]; now exists es.
  - intros [= <-]. exact (Hens _ f1 eq_refl eq_refl).
  - discriminate.
Qed.

(** ** Authorization comes first *)

(** C1.  When the answer of the authorization check for ["list"] (for
    ["get"], on the namespace part of the path) is anything but
    [(true, nil)], that is the verb is denied or the check failed, [List]
    and [Get] return a nil result with an error (the check's own error, or
    the insufficient-access error when it gave none), and the only
    collaborator call made is the check: the scope map and the allocation
    counter are unchanged, and nothing is constructed, started or queried.
    In every run, returning or panicking, the check is the first call
    made. *)
Theorem denied_reads_touch_no_cache (gvr scope path : string) (sel : Selector) (f : Factory) :
  (conn_CanI scope gvr ["list"] <> (true, None) ->
   exists (err : error) (f' : Factory),
     List gvr scope sel f = Done (None, Some err) f' /\
     err = match (conn_CanI scope gvr ["list"]).2 with
           | Some e => e
           | None => ErrInsufficientAccess "list" gvr
           end /\
     factories f' = factories f /\ next_ref f' = next_ref f /\
     trace f' = trace f ++ [EvCanI scope gvr ["list"]] /\
     forallb (fun e => negb (touches_cache e)) [EvCanI scope gvr ["list"]] = true) /\
  (conn_CanI (namespaced path).1 gvr ["get"] <> (true, None) ->
   exists (err : error) (f' : Factory),
     Get gvr path sel f = Done (None, Some err) f' /\
     err = match (conn_CanI (namespaced path).1 gvr ["get"]).2 with
           | Some e => e
           | None => ErrInsufficientAccess "get" gvr
           end /\
     factories f' = factories f /\ next_ref f' = next_ref f /\
     trace f' = trace f ++ [EvCanI (namespaced path).1 gvr ["get"]] /\
     forallb (fun e => negb (touches_cache e))
             [EvCanI (namespaced path).1 gvr ["get"]] = true) /\
  (forall f', outcome_state (List gvr scope sel f) = Some f' ->
     exists es, trace f' = trace f ++ EvCanI scope gvr ["list"] :: es) /\
  (forall f', outcome_state (Get gvr path sel f) = Some f' ->
     exists es, trace f' = trace f ++ EvCanI (namespaced path).1 gvr ["get"] :: es).
Proof.
  split; [|split; [|split]].
  - intros Hden. rewrite List_outcome.
    destruct (conn_CanI scope gvr ["list"]) as [[|] [err|]]; try congruence;
      eexists; eexists; repeat split.
  - intros Hden. rewrite Get_outcome. cbv zeta.
    destruct (conn_CanI (namespaced path).1 gvr ["get"]) as [[|] [err|]]; try congruence;
      eexists; eexists; repeat split.
  - intros f'. rewrite List_outcome.
    destruct (conn_CanI scope gvr ["list"]) as [[|] [err|]];
      try (intros [= <-]; now exists []).
    pose proof (ForResource_state_trace scope gvr (log [EvCanI scope gvr ["list"]] f))
      as Htr.
    destruct (ForResource scope gvr _) as [[inf|] f1|p f1|]; try discriminate;
      destruct (Htr f1 eq_refl) as [es Hes]; simpl in Hes.
    + destruct (String.eqb scope clusterScope); intros [= <-]; eexists; simpl;
        rewrite Hes, <- !app_assoc; reflexivity.
    + intros [= <-]. exists es. now rewrite Hes, <- app_assoc.
    + intros [= <-]. exists es. now rewrite Hes, <- app_assoc.
  - intros f'. rewrite Get_outcome. cbv zeta.
    destruct (conn_CanI (namespaced path).1 gvr ["get"]) as [[|] [err|]];
      try (intros [= <-]; now exists []).
    pose proof (ForResource_state_trace (namespaced path).1 gvr
                  (log [EvCanI (namespaced path).1 gvr ["get"]] f)) as Htr.
    destruct (ForResource (namespaced path).1 gvr _) as [[inf|] f1|p f1|];
      try discriminate; destruct (Htr f1 eq_refl) as [es Hes]; simpl in Hes.
    + destruct (String.eqb (namespaced path).1 clusterScope); intros [= <-]; eexists;
        simpl; rewrite Hes, <- !app_assoc; reflexivity.
    + intros [= <-]. exists es. now rewrite Hes, <- app_assoc.
    + intros [= <-]. exists es. now rewrite Hes, <- app_assoc.
Qed.

(** ** The store queries *)

(** C7.  Once the check answered [(true, nil)] and [ForResource] handed out
    an informer: [List] with scope ["-"] asks the informer's lister for its
    whole listing, and with any other scope for the listing of that
    namespace; [Get] splits its path with [namespaced] and, when the
    namespace part is ["-"], asks the lister for the name alone, and
    otherwise for the name within that namespace.  The query is the last
    call made and its answer is returned as it is. *)
Theorem reads_query_by_scope (gvr ns path : string) (sel : Selector) (f : Factory) :
  (forall (inf : Informer) (f1 : Factory),
      conn_CanI ns gvr ["list"] = (true, None) ->
      ForResource ns gvr (log [EvCanI ns gvr ["list"]] f) = Done (Some inf) f1 ->
      (ns = clusterScope ->
       List gvr ns sel f = Done (lister_List inf None sel) (log [EvList inf sel] f1)) /\
      (ns <> clusterScope ->
       List gvr ns sel f =
       Done (lister_List inf (Some ns) sel) (log [EvListByNamespace inf ns sel] f1))) /\
  (forall (inf : Informer) (f1 : Factory),
      conn_CanI (namespaced path).1 gvr ["get"] = (true, None) ->
      ForResource (namespaced path).1 gvr
        (log [EvCanI (namespaced path).1 gvr ["get"]] f) = Done (Some inf) f1 ->
      ((namespaced path).1 = clusterScope ->
       Get gvr path sel f =
       Done (lister_Get inf None (namespaced path).2)
            (log [EvGet inf (namespaced path).2] f1)) /\
      ((namespaced path).1 <> clusterScope ->
       Get gvr path sel f =
       Done (lister_Get inf (Some (namespaced path).1) (namespaced path).2)
            (log [EvGetByNamespace inf (namespaced path).1 (namespaced path).2] f1))).
Proof.
  split; intros inf f1 Hauth Hfr; split; intros Hns.
  - rewrite List_outcome, Hauth, Hfr. now rewrite (proj2 (String.eqb_eq _ _) Hns).
  - rewrite List_outcome, Hauth, Hfr. now rewrite (proj2 (String.eqb_neq _ _) Hns).
  - rewrite Get_outcome. cbv zeta. rewrite Hauth, Hfr.
    now rewrite (proj2 (String.eqb_eq _ _) Hns).
  - rewrite Get_outcome. cbv zeta. rewrite Hauth, Hfr.
    now rewrite (proj2 (String.eqb_neq _ _) Hns).
Qed.

(** ** The port-forward registry *)

(** C8.  [RegisterForwarder] stores the session under its [Path()], whatever
    the registry held there, and stops nothing (the trace is unchanged), so
    [ForwarderFor] on that path finds the session registered last.
    [DeleteForwarder] on a path that holds a session first stops it and then
    removes it: whatever the session's [Stop()] does, it is called on the
    Factory in which the session is still registered; when it returns, the
    entry is deleted from the Factory it left and nothing else is changed;
    when it panics, nothing is deleted.  With a [Stop()] that returns, the
    trace grows by that one call and the path is free afterwards.  On a path
    that holds no session [DeleteForwarder] calls nothing and changes
    nothing. *)
Theorem forwarder_registry (f : Factory) (pf : Forwarder) (path : string) :
  (exists f' : Factory,
      RegisterForwarder pf f = Done tt f' /\
      forwarders f' = <[Path pf := pf]> (forwarders f) /\
      trace f' = trace f /\
      ForwarderFor (Path pf) f' = Done (Some pf) f' /\
      (forall pf2 : Forwarder, Path pf2 = Path pf ->
         exists f2, RegisterForwarder pf2 f' = Done tt f2 /\ trace f2 = trace f /\
                    ForwarderFor (Path pf) f2 = Done (Some pf2) f2)) /\
  match forwarders f !! path with
  | Some fwd =>
      (forall Stop : Forwarder -> M unit,
          match Stop fwd f with
          | Done _ f1 =>
              exists f2 : Factory,
                @DeleteForwarder Stop path f = Done tt f2 /\
                forwarders f2 = delete path (forwarders f1) /\
                trace f2 = trace f1 /\ factories f2 = factories f1 /\
                stopChan f2 = stopChan f1 /\ activeNS f2 = activeNS f1 /\
                next_ref f2 = next_ref f1 /\ closed f2 = closed f1
          | Panicked p f1 => @DeleteForwarder Stop path f = Panicked p f1
          | OutOfFuel => @DeleteForwarder Stop path f = OutOfFuel
          end) /\
      exists f2 : Factory,
        DeleteForwarder path f = Done tt f2 /\
        trace f2 = trace f ++ [EvForwarderStop fwd] /\
        forwarders f2 = delete path (forwarders f) /\
        forwarders f2 !! path = None /\
        factories f2 = factories f /\ stopChan f2 = stopChan f /\
        activeNS f2 = activeNS f /\ next_ref f2 = next_ref f /\ closed f2 = closed f /\
        ForwarderFor path f2 = Done None f2
  | None =>
      DeleteForwarder path f = Done tt f /\
      forall Stop : Forwarder -> M unit, @DeleteForwarder Stop path f = Done tt f
  end.
Proof.
  split.
  - exists (set_forwarders <[Path pf := pf]> f). repeat split.
    + unfold ForwarderFor, gets. simpl. now rewrite lookup_insert_eq.
    + intros pf2 Hpath. eexists. split; [reflexivity|]. split; [reflexivity|].
      unfold ForwarderFor, gets. simpl. rewrite <- Hpath. now rewrite lookup_insert_eq.
  - destruct (forwarders f !! path) as [fwd|] eqn:Hfwd.
    + split.
      * intros Stop. unfold DeleteForwarder, fwd_Stop, bind, gets. rewrite Hfwd.
        destruct (Stop fwd f) as [[] f1|p f1|]; try reflexivity.
        exists (set_forwarders (delete path) f1). now repeat split.
      * rewrite DeleteForwarder_outcome, Hfwd.
        exists (set_forwarders (delete path) (log [EvForwarderStop fwd] f)).
        repeat split.
        -- apply lookup_delete_eq.
        -- unfold ForwarderFor, gets. simpl. now rewrite lookup_delete_eq.
    + split; [now rewrite DeleteForwarder_outcome, Hfwd|].
      intros Stop. unfold DeleteForwarder, bind, gets. now rewrite Hfwd.
Qed.

(** ** Termination *)

Lemma no_close_among_stops (l : list (string * Forwarder)) :
  count_events is_close (map (fun kv => EvForwarderStop kv.2) l) = 0%nat.
Proof. induction l as [|x l IH]; [reflexivity | exact IH]. Qed.

(** C5.  [Terminate] on a Factory that a program can hold returns.  It closes
    the stop channel once when the Factory still holds one, and sets the
    field to nil; it leaves the scope map and the registry empty, and it
    stops every session that was registered (the calls made are the close,
    if any, and one stop per registered session).  A second [Terminate]
    returns as well, closes nothing and changes nothing. *)
Theorem Terminate_twice (f : Factory) :
  reachable f ->
  exists (f1 : Factory) (es : list event),
    Terminate f = Done tt f1 /\
    trace f1 = trace f ++ es /\
    es = match stopChan f with
         | Some c => [EvClose c]
         | None => []
         end ++ map (fun kv => EvForwarderStop kv.2) (map_to_list (forwarders f)) /\
    count_events is_close es = match stopChan f with
                               | Some _ => 1%nat
                               | None => 0%nat
                               end /\
    stopChan f1 = None /\
    factories f1 = ∅ /\
    forwarders f1 = ∅ /\
    (forall path pf, forwarders f !! path = Some pf -> EvForwarderStop pf ∈ es) /\
    Terminate f1 = Done tt f1.
Proof.
  intros Hreach. pose proof (reachable_wf f Hreach) as [_ Hopen].
  exists (terminated f). eexists. split; [now apply Terminate_outcome|].
  split; [reflexivity|]. split; [reflexivity|].
  split; [|split; [reflexivity|split; [reflexivity|split; [reflexivity|split]]]].
  - unfold count_events. rewrite List.filter_app, length_app.
    fold (count_events is_close (map (fun kv : string * Forwarder => EvForwarderStop kv.2)
                                     (map_to_list (forwarders f)))).
    rewrite no_close_among_stops. now destruct (stopChan f).
  - intros path pf Hpf. apply elem_of_app. right.
    apply (list_elem_of_fmap_2 (fun kv : string * Forwarder => EvForwarderStop kv.2)
             _ (path, pf)).
    now apply elem_of_map_to_list.
  - rewrite (Terminate_outcome (terminated f)) by discriminate. f_equal.
    unfold terminated. simpl. rewrite map_to_list_empty. simpl.
    now rewrite !app_nil_r.
Qed.

(** ** The scope map *)

Lemma logged_fields (f f' : Factory) :
  logged f f' -> factories f' = factories f /\ next_ref f' = next_ref f.
Proof. now intros [es ->]. Qed.

Lemma ensure_outcome_cluster_wide (ns : string) (cw : nat) (f : Factory) :
  factories f !! allNamespaces = Some cw -> ensure_outcome ns f = Done (Some cw) f.
Proof. intros Hcw. unfold ensure_outcome. now rewrite Hcw. Qed.

Lemma ForResource_cluster_wide (ns gvr : string) (cw : nat) (f f' : Factory)
    (o : option Informer) :
  factories f !! allNamespaces = Some cw ->
  ForResource ns gvr f = Done o f' -> logged f f'.
Proof.
  intros Hcw Hfr. apply ForResource_Done in Hfr as (fac & r & f1 & He & _ & _ & ->).
  rewrite (ensure_outcome_cluster_wide _ _ _ Hcw) in He. injection He as _ <-.
  now eexists.
Qed.

(** C2.  On a Factory whose scope map holds the all-namespaces entry,
    [ensureFactory] returns that entry for every key and changes nothing;
    [SetActive] returns in a Factory whose [activeNS] is the namespace given
    and whose every other field, the trace of calls included, is as before;
    and no exported operation other than [Terminate] changes the scope map or
    allocates an informer factory, so no entry is ever added under another
    key. *)
Theorem cluster_wide_absorbs_every_scope (f : Factory) (cw : nat) (ns : string) :
  factories f !! allNamespaces = Some cw ->
  ensureFactory ns f = Done (Some cw) f /\
  (forall n, ensureFactory_rec (S n) ns f = Done (Some cw) f) /\
  (exists f' : Factory,
      SetActive ns f = Done tt f' /\
      activeNS f' = ns /\
      factories f' = factories f /\ next_ref f' = next_ref f /\
      trace f' = trace f /\ stopChan f' = stopChan f /\
      forwarders f' = forwarders f /\ closed f' = closed f) /\
  (forall (c : call) (f' : Factory),
      c <> CallTerminate -> exec c f = Done tt f' ->
      factories f' = factories f /\ next_ref f' = next_ref f).
Proof.
  intros Hcw. split; [|split; [|split]].
  - now apply ensureFactory_rec_cluster_wide.
  - intros n. now apply ensureFactory_rec_cluster_wide.
  - exists (set_activeNS ns f). split; [|now repeat split].
    unfold SetActive, bind, isClusterWide, gets. now rewrite Hcw.
  - intros c f' Hc.
    destruct c as [|gvr|s gvr|gvr s sel|gvr path sel| | |stop| |path|pf|s|s gvr|s gvr];
      cbn [exec].
    + unfold Dump, ret. now intros [= <-].
    + unfold Debug, bind, gets. destruct (toGVR gvr) as [r|p]; [|discriminate].
      cbn [lift ret]. rewrite Hcw.
      unfold fact_ForResource, bind, emit, modify, ret.
      destruct (informer_of cw r); [|discriminate]. now intros [= <-].
    + unfold Show, bind.
      destruct (ForResource s gvr f) as [[inf|] f1|p f1|] eqn:Hfr; try discriminate.
      intros [= <-]. apply (ForResource_cluster_wide _ _ _ _ _ _ Hcw) in Hfr.
      now apply logged_fields in Hfr.
    + unfold bind, ret. destruct (List gvr s sel f) as [r f1|p f1|] eqn:Hl; try discriminate.
      intros [= <-]. apply List_Done in Hl as [Hlog | (o & f2 & Hfr & Hlog)].
      * now apply logged_fields.
      * apply (ForResource_cluster_wide _ _ cw (log _ f)) in Hfr; [|exact Hcw].
        apply logged_fields in Hlog as [-> ->]. exact (logged_fields _ _ Hfr).
    + unfold bind, ret. destruct (Get gvr path sel f) as [r f1|p f1|] eqn:Hg;
        try discriminate.
      intros [= <-]. apply Get_Done in Hg as [Hlog | (o & f2 & Hfr & Hlog)].
      * now apply logged_fields.
      * apply (ForResource_cluster_wide _ _ cw (log _ f)) in Hfr; [|exact Hcw].
        apply logged_fields in Hlog as [-> ->]. exact (logged_fields _ _ Hfr).
    + unfold WaitForCacheSync, bind, gets. rewrite for_each_emit. now intros [= <-].
    + unfold Init, Start, bind, gets, fact_Start. rewrite for_each_emit. now intros [= <-].
    + unfold Start, bind, gets, fact_Start. rewrite for_each_emit. now intros [= <-].
    + congruence.
    + rewrite DeleteForwarder_outcome. destruct (forwarders f !! path).
      * now intros [= <-].
      * now intros [= <-].
    + unfold RegisterForwarder, modify. now intros [= <-].
    + unfold SetActive, bind, isClusterWide, gets, modify. rewrite Hcw. cbn [negb].
      unfold ret. now intros [= <-].
    + unfold Preload, bind, ret.
      destruct (ForResource s gvr f) as [o f1|p f1|] eqn:Hfr; try discriminate.
      intros [= <-]. apply logged_fields. exact (ForResource_cluster_wide _ _ _ _ _ _ Hcw Hfr).
    + unfold bind, ret.
      destruct (ForResource s gvr f) as [o f1|p f1|] eqn:Hfr; try discriminate.
      intros [= <-]. apply logged_fields. exact (ForResource_cluster_wide _ _ _ _ _ _ Hcw Hfr).
Qed.

(** C6, as the code has it.  After an [ensureFactory] that returned, a second
    one for the same key returns an informer factory, constructs nothing,
    warms nothing up and leaves the Factory as it is.  It returns the one the
    first call returned when the key is the all-namespaces key or the first
    call found its key held (it changed nothing).  When the first call
    constructed an informer factory under another key, the second returns
    the all-namespaces one that the first call's warm-up constructed, which
    is not the one the first call returned. *)
Theorem ensureFactory_second_call (ns : string) (f f1 : Factory) (o1 : option nat) :
  ensureFactory ns f = Done o1 f1 ->
  exists fac2 : nat,
    ensureFactory ns f1 = Done (Some fac2) f1 /\
    (ns = allNamespaces \/ f1 = f -> o1 = Some fac2) /\
    (ns <> allNamespaces -> f1 <> f ->
     factories f1 !! allNamespaces = Some fac2 /\
     factories f1 !! ns = o1 /\ o1 <> Some fac2).
Proof.
  rewrite !ensureFactory_outcome. intros Ho.
  apply ensure_outcome_Done in Ho
    as [[-> [(cw & Hcw & ->) | (Hcw & fac & Hns & ->)]]
       | (Hcw & Hns & Hdial & -> & [[-> ->] | [Hne ->]])].
  - exists cw. rewrite (ensure_outcome_cluster_wide _ _ _ Hcw).
    repeat split; congruence.
  - exists fac. unfold ensure_outcome. rewrite Hcw, Hns.
    repeat split; congruence.
  - exists (next_ref f).
    rewrite (ensure_outcome_cluster_wide _ (next_ref f)) by apply lookup_insert_eq.
    repeat split; congruence.
  - exists (S (next_ref f)).
    rewrite (ensure_outcome_cluster_wide _ (S (next_ref f))) by apply lookup_insert_eq.
    split; [reflexivity|]. split.
    + intros [Heq | Heq]; [congruence|].
      apply (f_equal next_ref) in Heq. simpl in Heq. lia.
    + intros _ _. split; [apply lookup_insert_eq|]. split.
      * simpl. rewrite lookup_insert_ne by congruence. apply lookup_insert_eq.
      * intros [= Heq]. lia.
Qed.

(** C10.  On a Factory that a program can hold and whose scope map has no
    all-namespaces entry, [ensureFactory] for any key (the dial handle being
    had) constructs the all-namespaces informer factory: for the
    all-namespaces key as the one asked for, and for any other key while
    warming up the one asked for, whose warm-up asks for the custom resource
    definitions under the all-namespaces key.  From then on [ensureFactory]
    returns the all-namespaces informer factory for every key and changes
    nothing. *)
Theorem first_ensure_makes_cluster_wide (ns : string) (f : Factory) :
  reachable f ->
  factories f !! allNamespaces = None ->
  conn_DynDial = true ->
  exists (fac cw : nat) (f1 : Factory) (es : list event),
    ensureFactory ns f = Done (Some fac) f1 /\
    factories f1 !! allNamespaces = Some cw /\
    trace f1 = trace f ++ es /\
    EvNewInformerFactory cw allNamespaces ∈ es /\
    EvForResource cw r_crds ∈ es /\
    (ns <> allNamespaces ->
     fac <> cw /\ EvNewInformerFactory fac ns ∈ es /\ factories f1 !! ns = Some fac) /\
    (forall ns' : string, ensureFactory ns' f1 = Done (Some cw) f1).
Proof.
  intros Hreach Hcw Hdial.
  destruct (reachable_wf f Hreach) as [[Hempty | [cw' Hcw']] _]; [|congruence].
  assert (Hns : factories f !! ns = None) by (rewrite Hempty; apply lookup_empty).
  destruct (decide (ns = allNamespaces)) as [->|Hne].
  - exists (next_ref f), (next_ref f), (created_all f). eexists.
    split; [|split; [apply lookup_insert_eq|split; [reflexivity|]]].
    { rewrite ensureFactory_outcome. unfold ensure_outcome. rewrite Hcw, Hdial.
      now rewrite decide_True. }
    split; [|split; [|split; [congruence|]]].
    + unfold construct. set_solver.
    + unfold construct, warm. simpl. set_solver.
    + intros ns'. rewrite ensureFactory_outcome.
      apply ensure_outcome_cluster_wide, lookup_insert_eq.
  - exists (next_ref f), (S (next_ref f)), (created_scoped ns f). eexists.
    split; [|split; [apply lookup_insert_eq|split; [reflexivity|]]].
    { rewrite ensureFactory_outcome. unfold ensure_outcome. rewrite Hcw, Hns, Hdial.
      now rewrite decide_False. }
    split; [|split; [|split]].
    + unfold construct. set_solver.
    + unfold construct, warm. simpl. set_solver.
    + intros _. split; [lia|]. split; [unfold construct; set_solver|].
      simpl. rewrite lookup_insert_ne by congruence. apply lookup_insert_eq.
    + intros ns'. rewrite ensureFactory_outcome.
      apply ensure_outcome_cluster_wide, lookup_insert_eq.
Qed.

End FactoryProofs.

(** ** The theorems at work *)

Lemma denied_reads_witness :
  (exists (err : error) (f' : Factory),
      @List closed_connection plain_informers "v1/pods" "kube-system" "app=web" NewFactory
      = Done (None, Some err) f' /\
      err = ErrInsufficientAccess "list" "v1/pods" /\
      trace f' = [EvCanI "kube-system" "v1/pods" ["list"]]) /\
  (exists (err : error) (f' : Factory),
      @Get closed_connection plain_informers "v1/pods" "default/web-0" "app=web" NewFactory
      = Done (None, Some err) f' /\
      err = ErrRemote "timeout" /\
      trace f' = [EvCanI "default" "v1/pods" ["get"]]).
Proof.
  destruct (@denied_reads_touch_no_cache closed_connection plain_informers
              "v1/pods" "kube-system" "default/web-0" "app=web" NewFactory)
    as (Hlist & Hget & _).
  split.
  - destruct Hlist as (err & f' & Hrun & Herr & _ & _ & Htrace & _);
      [vm_compute; discriminate|].
    exists err, f'. repeat split; assumption.
  - destruct Hget as (err & f' & Hrun & Herr & _ & _ & Htrace & _);
      [vm_compute; discriminate|].
    exists err, f'. repeat split; assumption.
Defined.

Lemma reads_query_witness :
  (exists (inf : Informer) (f1 : Factory),
      @ForResource open_connection plain_informers "-" "v1/pods"
        (log [EvCanI "-" "v1/pods" ["list"]] NewFactory) = Done (Some inf) f1 /\
      @List open_connection plain_informers "v1/pods" "-" "app=web" NewFactory
      = Done (Some [], None) (log [EvList inf "app=web"] f1)) /\
  (exists (inf : Informer) (f1 : Factory),
      @ForResource open_connection plain_informers "default" "v1/pods"
        (log [EvCanI "default" "v1/pods" ["get"]] NewFactory) = Done (Some inf) f1 /\
      @Get open_connection plain_informers "v1/pods" "default/web-0" "app=web" NewFactory
      = Done (Some "web-0", None) (log [EvGetByNamespace inf "default" "web-0"] f1)).
Proof.
  pose proof (@reads_query_by_scope open_connection plain_informers
                "v1/pods" "-" "default/web-0" "app=web" NewFactory) as [Hlist Hget].
  split.
  - eexists. eexists. split; [vm_compute; reflexivity|].
    apply Hlist; [reflexivity | vm_compute; reflexivity | reflexivity].
  - eexists. eexists. split; [vm_compute; reflexivity|].
    apply Hget; [reflexivity | vm_compute; reflexivity | discriminate].
Defined.

Lemma forwarder_registry_witness :
  (exists f2 : Factory,
      RegisterForwarder web_forward' (set_forwarders <[Path web_forward := web_forward]> NewFactory)
      = Done tt f2 /\
      trace f2 = [] /\
      ForwarderFor "default/web-0/nginx" f2 = Done (Some web_forward') f2) /\
  DeleteForwarder "default/db-0/pg" NewFactory = Done tt NewFactory /\
  (exists f2 : Factory,
      @DeleteForwarder Stop_if_registered "default/web-0/nginx"
        (set_forwarders <[Path web_forward := web_forward]> NewFactory) = Done tt f2 /\
      trace f2 = [EvForwarderStop web_forward] /\
      forwarders f2 = delete "default/web-0/nginx" {[Path web_forward := web_forward]}) /\
  (exists f2 : Factory,
      DeleteForwarder "default/web-0/nginx"
        (set_forwarders <[Path web_forward := web_forward]> NewFactory) = Done tt f2 /\
      trace f2 = [EvForwarderStop web_forward] /\
      forwarders f2 !! "default/web-0/nginx" = None).
Proof.
  destruct (forwarder_registry NewFactory web_forward "default/db-0/pg")
    as [(f' & Hreg & _ & _ & _ & Hagain) [Hdel _]].
  injection Hreg as <-.
  pose proof (forwarder_registry
                (set_forwarders <[Path web_forward := web_forward]> NewFactory)
                web_forward "default/web-0/nginx") as [_ Hheld].
  change (forwarders (set_forwarders <[Path web_forward := web_forward]> NewFactory)
            !! "default/web-0/nginx") with (Some web_forward) in Hheld.
  destruct Hheld as [Hany (f2 & Hrun & Htrace & _ & Hgone & _)].
  split; [|split; [|split]].
  - destruct (Hagain web_forward' eq_refl) as (f2' & Hreg2 & Htrace2 & Hfor).
    exists f2'. repeat split; assumption.
  - exact Hdel.
  - destruct (Hany Stop_if_registered) as (f3 & Hrun3 & Hfwds & Htrace3 & _).
    exists f3. split; [exact Hrun3|]. split; [exact Htrace3 | exact Hfwds].
  - exists f2. repeat split; assumption.
Defined.

Lemma Terminate_twice_witness :
  exists f1 : Factory,
    Terminate (set_forwarders <[Path web_forward := web_forward]> NewFactory) = Done tt f1 /\
    trace f1 = [EvClose 0%nat; EvForwarderStop web_forward] /\
    stopChan f1 = None /\ factories f1 = ∅ /\ forwarders f1 = ∅ /\
    Terminate f1 = Done tt f1.
Proof.
  destruct (@Terminate_twice open_connection plain_informers
              (set_forwarders <[Path web_forward := web_forward]> NewFactory))
    as (f1 & es & Hrun & Htrace & Hes & _ & Hstop & Hfacs & Hfwds & _ & Hagain).
  - apply (reach_done (CallRegisterForwarder web_forward) NewFactory tt);
      [apply reach_new | reflexivity].
  - exists f1. repeat split; try assumption.
    rewrite Htrace, Hes. vm_compute. reflexivity.
Defined.

Lemma cluster_wide_witness :
  @ensureFactory open_connection plain_informers "default" (created_all NewFactory)
  = Done (Some 0%nat) (created_all NewFactory) /\
  exists f' : Factory,
    @SetActive open_connection plain_informers "default" (created_all NewFactory)
    = Done tt f' /\
    activeNS f' = "default" /\
    factories f' = factories (created_all NewFactory) /\
    trace f' = trace (created_all NewFactory).
Proof.
  destruct (@cluster_wide_absorbs_every_scope open_connection plain_informers
              (created_all NewFactory) 0%nat "default") as (Hens & _ & Hact & _).
  - vm_compute. reflexivity.
  - split; [exact Hens|].
    destruct Hact as (f' & Hrun & Hns & Hfacs & _ & Htrace & _).
    exists f'. repeat split; assumption.
Defined.

(** On a new Factory the first [ensureFactory "default"] returns the informer
    factory constructed for ["default"] (reference 0) and the second the
    all-namespaces one (reference 1): two different informer factories. *)
Lemma ensureFactory_twice_differs :
  @ensureFactory open_connection plain_informers "default" NewFactory
  = Done (Some 0%nat) (created_scoped "default" NewFactory) /\
  @ensureFactory open_connection plain_informers "default" (created_scoped "default" NewFactory)
  = Done (Some 1%nat) (created_scoped "default" NewFactory) /\
  Some 0%nat <> Some 1%nat.
Proof.
  split; [|split; [|discriminate]].
  - rewrite ensureFactory_outcome. vm_compute. reflexivity.
  - rewrite ensureFactory_outcome. vm_compute. reflexivity.
Qed.

Lemma ensureFactory_second_call_witness :
  exists fac2 : nat,
    @ensureFactory open_connection plain_informers "default"
      (created_scoped "default" NewFactory)
    = Done (Some fac2) (created_scoped "default" NewFactory) /\
    factories (created_scoped "default" NewFactory) !! allNamespaces = Some fac2.
Proof.
  destruct (@ensureFactory_second_call open_connection plain_informers "default"
              NewFactory (created_scoped "default" NewFactory) (Some 0%nat))
    as (fac2 & Hrun & _ & Hdiff).
  - rewrite ensureFactory_outcome. vm_compute. reflexivity.
  - exists fac2. split; [exact Hrun|].
    apply Hdiff; [discriminate|]. intros Heq. apply (f_equal next_ref) in Heq. discriminate.
Defined.

Lemma first_ensure_witness :
  exists (fac cw : nat) (f1 : Factory),
    @ensureFactory open_connection plain_informers "default" NewFactory = Done (Some fac) f1 /\
    factories f1 !! allNamespaces = Some cw /\
    fac <> cw /\
    @ensureFactory open_connection plain_informers "kube-system" f1 = Done (Some cw) f1.
Proof.
  destruct (@first_ensure_makes_cluster_wide open_connection plain_informers
              "default" NewFactory)
    as (fac & cw & f1 & es & Hrun & Hcw & _ & _ & _ & Hscoped & Hall).
  - apply reach_new.
  - reflexivity.
  - reflexivity.
  - exists fac, cw, f1. repeat split; try assumption.
    + apply Hscoped. discriminate.
    + apply Hall.
Defined.

Lemma toGVR_with_separator_witness : exists r, toGVR "v1/pods" = Ok r.
Proof. apply (toGVR_with_separator "v1/pods"). reflexivity. Defined.

Lemma toGVR_without_separator_witness : toGVR "nodes" = Raise (IndexOutOfRange 2 2).
Proof. apply (toGVR_without_separator "nodes"). reflexivity. Defined.

Lemma ensureFactory_rec_depth_witness :
  @ensureFactory_rec open_connection plain_informers 5 "default" NewFactory
  = @ensureFactory open_connection plain_informers "default" NewFactory /\
  @ensureFactory open_connection plain_informers "default" NewFactory <> OutOfFuel.
Proof.
  apply (@ensureFactory_rec_depth open_connection plain_informers 5 "default" NewFactory).
  unfold call_depth. lia.
Defined.

(** * More of the Factory *)

Section FactoryShapes.
Context `{Connection} `{Informers}.

Lemma ensure_outcome_ensured (ns : string) (f f1 : Factory) (o : option nat) :
  wf f -> ensure_outcome ns f = Done o f1 -> ensured f f1.
Proof.
  intros [Hmap _] Ho.
  apply ensure_outcome_Done in Ho
    as [[-> _] | (Hcw & _ & Hdial & _ & Hmade)]; [now left|].
  right. split; [|split; [exact Hdial|]].
  - destruct Hmap as [Hempty | [cw Hheld]]; [exact Hempty | congruence].
  - destruct Hmade as [[_ ->] | [Hne ->]]; [now left | right; now exists ns].
Qed.

Lemma ForResource_ensured (ns gvr : string) (f f' : Factory) (o : option Informer) :
  wf f -> ForResource ns gvr f = Done o f' ->
  exists f1, ensured f f1 /\ logged f1 f'.
Proof.
  intros Hwf Hfr. apply ForResource_Done in Hfr as (fac & r & f1 & He & _ & _ & ->).
  exists f1. split; [exact (ensure_outcome_ensured _ _ _ _ Hwf He) | now eexists].
Qed.

(** What a returning exported operation made of a Factory. *)
Lemma exec_shape (c : call) (f f' : Factory) :
  wf f -> exec c f = Done tt f' ->
  match c with
  | CallTerminate => f' = terminated f
  | CallRegisterForwarder pf => f' = set_forwarders <[Path pf := pf]> f
  | CallDeleteForwarder path =>
      match forwarders f !! path with
      | Some fwd => f' = set_forwarders (delete path) (log [EvForwarderStop fwd] f)
      | None => f' = f
      end
  | CallSetActive ns => exists f1, ensured f f1 /\ f' = set_activeNS ns f1
  | _ => exists f0 f1, logged f f0 /\ ensured f0 f1 /\ logged f1 f'
  end.
Proof.
  intros Hwf.
  destruct c as [|gvr|ns gvr|gvr ns sel|gvr path sel| | |stop| |path|pf|ns|ns gvr|ns gvr];
    cbn [exec].
  - unfold Dump, ret. intros [= <-]. exists f, f.
    split; [apply logged_refl|]. split; [now left | apply logged_refl].
  - unfold Debug, bind, gets. destruct (toGVR gvr) as [r|p]; [|discriminate].
    cbn [lift ret]. destruct (factories f !! allNamespaces) as [fac|]; [|discriminate].
    unfold fact_ForResource, bind, emit, modify, ret.
    destruct (informer_of fac r); [|discriminate]. intros [= <-].
    exists f, f. split; [apply logged_refl|]. split; [now left|].
    apply logged_log. now eexists.
  - unfold Show, bind.
    destruct (ForResource ns gvr f) as [[inf|] f1|p f1|] eqn:Hfr; try discriminate.
    unfold Informer_ListKeys, emit, modify. intros [= <-].
    destruct (ForResource_ensured _ _ _ _ _ Hwf Hfr) as (f2 & Hens & Hlog).
    exists f, f2. split; [apply logged_refl|]. split; [exact Hens|].
    now apply logged_log.
  - unfold bind, ret. destruct (List gvr ns sel f) as [r f1|p f1|] eqn:Hl; try discriminate.
    intros [= <-]. apply List_Done in Hl as [Hlog | (o & f2 & Hfr & Hlog)].
    + exists f, f. split; [apply logged_refl|]. split; [now left | exact Hlog].
    + destruct (ForResource_ensured _ _ (log _ f) _ _ Hwf Hfr) as (f3 & Hens & Hlog3).
      exists (log [EvCanI ns gvr ["list"]] f), f3.
      split; [now eexists|]. split; [exact Hens|].
      destruct Hlog3 as [es3 ->]. destruct Hlog as [es ->].
      exists (es3 ++ es). apply log_log.
  - unfold bind, ret. destruct (Get gvr path sel f) as [r f1|p f1|] eqn:Hg; try discriminate.
    intros [= <-]. apply Get_Done in Hg as [Hlog | (o & f2 & Hfr & Hlog)].
    + exists f, f. split; [apply logged_refl|]. split; [now left | exact Hlog].
    + destruct (ForResource_ensured _ _ (log _ f) _ _ Hwf Hfr) as (f3 & Hens & Hlog3).
      exists (log [EvCanI (namespaced path).1 gvr ["get"]] f), f3.
      split; [now eexists|]. split; [exact Hens|].
      destruct Hlog3 as [es3 ->]. destruct Hlog as [es ->].
      exists (es3 ++ es). apply log_log.
  - unfold WaitForCacheSync, bind, gets. rewrite for_each_emit. intros [= <-].
    exists f, f. split; [apply logged_refl|]. split; [now left | now eexists].
  - unfold Init, Start, bind, gets, fact_Start. rewrite for_each_emit. intros [= <-].
    exists f, f. split; [apply logged_refl|]. split; [now left | now eexists].
  - unfold Start, bind, gets, fact_Start. rewrite for_each_emit. intros [= <-].
    exists f, f. split; [apply logged_refl|]. split; [now left | now eexists].
  - rewrite (Terminate_outcome f (proj2 Hwf)). now intros [= <-].
  - rewrite DeleteForwarder_outcome. destruct (forwarders f !! path).
    + now intros [= <-].
    + now intros [= <-].
  - unfold RegisterForwarder, modify. now intros [= <-].
  - unfold SetActive, bind, isClusterWide, gets, modify.
    destruct (factories f !! allNamespaces) as [cw|] eqn:Hcw; cbn [negb].
    + unfold ret. intros [= <-]. exists f. split; [now left | reflexivity].
    + rewrite ensureFactory_outcome.
      destruct (ensure_outcome ns f) as [o f1|p f1|] eqn:He; try discriminate.
      unfold ret. intros [= <-]. exists f1.
      split; [exact (ensure_outcome_ensured _ _ _ _ Hwf He) | reflexivity].
  - unfold Preload, bind, ret.
    destruct (ForResource ns gvr f) as [o f1|p f1|] eqn:Hfr; try discriminate.
    intros [= <-]. destruct (ForResource_ensured _ _ _ _ _ Hwf Hfr) as (f2 & Hens & Hlog).
    exists f, f2. split; [apply logged_refl|]. now split.
  - unfold bind, ret.
    destruct (ForResource ns gvr f) as [o f1|p f1|] eqn:Hfr; try discriminate.
    intros [= <-]. destruct (ForResource_ensured _ _ _ _ _ Hwf Hfr) as (f2 & Hens & Hlog).
    exists f, f2. split; [apply logged_refl|]. now split.
Qed.

Lemma coherent_logged (f f' : Factory) : logged f f' -> coherent f -> coherent f'.
Proof. now intros [es ->]. Qed.

Lemma coherent_ensured (f f1 : Factory) : ensured f f1 -> coherent f -> coherent f1.
Proof.
  intros [-> | (Hempty & _ & [-> | (ns & Hne & ->)])] (Hrefs & Hshape & Hfwd);
    [now repeat split| |].
  - split; [|split; [|exact Hfwd]].
    + simpl. rewrite Hempty. intros k h Hk.
      apply lookup_insert_Some in Hk as [[_ <-] | [_ Hk]]; [lia|].
      now rewrite lookup_empty in Hk.
    + right. left. exists (next_ref f). simpl. rewrite Hempty. apply insert_empty.
  - split; [|split; [|exact Hfwd]].
    + simpl. rewrite Hempty. intros k h Hk.
      apply lookup_insert_Some in Hk as [[_ <-] | [_ Hk]]; [lia|].
      apply lookup_insert_Some in Hk as [[_ <-] | [_ Hk]]; [lia|].
      now rewrite lookup_empty in Hk.
    + right. right. exists ns, (next_ref f), (S (next_ref f)).
      split; [exact Hne|]. split; [lia|]. simpl. rewrite Hempty.
      now rewrite insert_empty.
Qed.

Lemma exec_coherent (c : call) (f f' : Factory) :
  wf f -> coherent f -> exec c f = Done tt f' -> coherent f'.
Proof.
  intros Hwf Hco Hexec. pose proof (exec_shape c f f' Hwf Hexec) as Hshape.
  destruct c as [|gvr|ns gvr|gvr ns sel|gvr path sel| | |stop| |path|pf|ns|ns gvr|ns gvr];
    try (destruct Hshape as (f0 & f1 & Hl0 & Hens & Hl1);
         apply (coherent_logged _ _ Hl1), (coherent_ensured _ _ Hens),
           (coherent_logged _ _ Hl0), Hco).
  - subst f'. destruct Hco as (Hrefs & _ & _). split; [|split].
    + simpl. intros k h Hk. now rewrite lookup_empty in Hk.
    + now left.
    + simpl. intros k pf Hk. now rewrite lookup_empty in Hk.
  - destruct Hco as (Hrefs & Hmap & Hfwd).
    destruct (forwarders f !! path) as [fwd|]; subst f'; [|now repeat split].
    split; [exact Hrefs|]. split; [exact Hmap|]. simpl. intros k pf Hk.
    apply lookup_delete_Some in Hk as [_ Hk]. now apply Hfwd.
  - subst f'. destruct Hco as (Hrefs & Hmap & Hfwd).
    split; [exact Hrefs|]. split; [exact Hmap|]. simpl. intros k pf' Hk.
    apply lookup_insert_Some in Hk as [[<- <-] | [_ Hk]]; [reflexivity | now apply Hfwd].
  - destruct Hshape as (f1 & Hens & ->).
    exact (coherent_ensured _ _ Hens Hco).
Qed.

Lemma reachable_coherent (f : Factory) : reachable f -> coherent f.
Proof.
  induction 1 as [|c f a f' Hreach IH Hexec].
  - split; [|split].
    + simpl. intros k h Hk. now rewrite lookup_empty in Hk.
    + now left.
    + simpl. intros k pf Hk. now rewrite lookup_empty in Hk.
  - destruct a. exact (exec_coherent _ _ _ (reachable_wf _ Hreach) IH Hexec).
Qed.

Lemma coherent_refs_distinct (f : Factory) (k1 k2 : string) (h : nat) :
  coherent f -> factories f !! k1 = Some h -> factories f !! k2 = Some h -> k1 = k2.
Proof.
  intros (_ & Hshape & _) H1 H2.
  destruct Hshape as [Hm | [[cw Hm] | (ns & fac & cw & Hne & Hdiff & Hm)]];
    rewrite Hm in *.
  - now rewrite lookup_empty in H1.
  - apply lookup_singleton_Some in H1 as [<- _].
    now apply lookup_singleton_Some in H2 as [<- _].
  - apply lookup_insert_Some in H1 as [[<- <-] | [Hk1 H1]];
      apply lookup_insert_Some in H2 as [[<- Heq] | [Hk2 H2]]; try reflexivity.
    + apply lookup_singleton_Some in H2 as [_ H2]. congruence.
    + apply lookup_singleton_Some in H1 as [_ H1]. congruence.
    + apply lookup_singleton_Some in H1 as [<- _].
      now apply lookup_singleton_Some in H2 as [<- _].
Qed.

End FactoryShapes.

Section FactoryExtras.
Context `{Connection} `{Informers}.

(** X5.  Every Factory that a program can hold keeps at most two informer
    factories: whenever the scope map holds any entry it holds the
    all-namespaces one, beside at most one other; different keys hold
    different informer factories, all allocated before the next reference. *)
Theorem reachable_scope_map (f : Factory) :
  reachable f ->
  (size (factories f) <= 2)%nat /\
  (forall k, is_Some (factories f !! k) -> is_Some (factories f !! allNamespaces)) /\
  (forall k1 k2 h, factories f !! k1 = Some h -> factories f !! k2 = Some h -> k1 = k2) /\
  (forall k h, factories f !! k = Some h -> (h < next_ref f)%nat).
Proof.
  intros Hreach. destruct (reachable_coherent f Hreach) as (Hrefs & Hshape & _).
  split; [|split; [|split; [|exact Hrefs]]].
  - destruct Hshape as [-> | [[cw ->] | (ns & fac & cw & Hne & _ & ->)]].
    + rewrite map_size_empty. lia.
    + rewrite map_size_singleton. lia.
    + rewrite map_size_insert_None by (now rewrite lookup_singleton_ne).
      rewrite map_size_singleton. lia.
  - intros k [h Hk].
    destruct Hshape as [Hm | [[cw Hm] | (ns & fac & cw & _ & _ & Hm)]]; rewrite Hm in *.
    + now rewrite lookup_empty in Hk.
    + rewrite lookup_singleton_eq. eauto.
    + rewrite lookup_insert_eq. eauto.
  - intros k1 k2 h. apply coherent_refs_distinct. exact (reachable_coherent f Hreach).
Qed.

(** X6.  After any returning [SetActive] on a Factory that a program can
    hold, [activeNS] is the namespace given and the scope map holds the
    all-namespaces entry, whatever the namespace; and [SetActive] returns
    whenever the dial handle is had. *)
Theorem SetActive_makes_cluster_wide (ns : string) (f : Factory) :
  reachable f ->
  (forall f', SetActive ns f = Done tt f' ->
     activeNS f' = ns /\ is_Some (factories f' !! allNamespaces) /\
     forwarders f' = forwarders f /\ stopChan f' = stopChan f) /\
  (conn_DynDial = true -> exists f', SetActive ns f = Done tt f').
Proof.
  intros Hreach. destruct (reachable_wf f Hreach) as [Hmap _].
  unfold SetActive, bind, isClusterWide, gets, modify.
  destruct (factories f !! allNamespaces) as [cw|] eqn:Hcw; cbn [negb].
  - unfold ret. split; [|eauto]. intros f' [= <-]. simpl. rewrite Hcw. eauto.
  - destruct Hmap as [Hempty | [cw Hheld]]; [|congruence].
    rewrite ensureFactory_outcome. unfold ensure_outcome. rewrite Hcw, Hempty, lookup_empty.
    destruct conn_DynDial; [|split; [discriminate | discriminate]].
    unfold ret. split; [|eauto]. intros f' [= <-].
    destruct (decide (ns = allNamespaces)); simpl; rewrite lookup_insert_eq; eauto.
Qed.

(** X7.  Nothing keeps a terminated Factory from being used again: after
    [Terminate], [ensureFactory] (the dial handle being had) constructs
    informer factories anew, and every one it starts is started with a nil
    stop channel. *)
Theorem ensureFactory_after_Terminate (ns : string) (f : Factory) :
  reachable f ->
  conn_DynDial = true ->
  exists (f1 f2 : Factory) (es : list event),
    Terminate f = Done tt f1 /\
    ensureFactory ns f1 = Done (Some (next_ref f)) f2 /\
    trace f2 = trace f1 ++ es /\
    stopChan f2 = None /\
    EvNewInformerFactory (next_ref f) ns ∈ es /\
    is_Some (factories f2 !! allNamespaces) /\
    (0 < count_events is_start_without_stop es)%nat /\
    count_events is_start_with_stop es = 0%nat.
Proof.
  intros Hreach Hdial. destruct (reachable_wf f Hreach) as [_ Hopen].
  exists (terminated f).
  assert (He : ensureFactory ns (terminated f) =
               Done (Some (next_ref f))
                    (if decide (ns = allNamespaces) then created_all (terminated f)
                     else created_scoped ns (terminated f))).
  { rewrite ensureFactory_outcome. unfold ensure_outcome. simpl.
    now rewrite !lookup_empty, Hdial. }
  destruct (decide (ns = allNamespaces)) as [->|Hne].
  - exists (created_all (terminated f)). eexists.
    split; [now apply Terminate_outcome|]. split; [exact He|].
    split; [reflexivity|]. split; [reflexivity|].
    split; [unfold construct; set_solver|].
    split; [simpl; rewrite lookup_insert_eq; eauto|].
    split; [unfold count_events, construct, warm; simpl; lia | reflexivity].
  - exists (created_scoped ns (terminated f)). eexists.
    split; [now apply Terminate_outcome|]. split; [exact He|].
    split; [reflexivity|]. split; [reflexivity|].
    split; [unfold construct; set_solver|].
    split; [simpl; rewrite lookup_insert_eq; eauto|].
    split; [unfold count_events, construct, warm; simpl; lia | reflexivity].
Qed.

(** X8.  With a resource identifier that holds no ["/"], [ForResource] never
    returns: it first ensures the scope set and then panics on the index, in
    the Factory that [ensureFactory] left behind, so on an empty scope map
    the informer factories have been constructed when the panic comes.  [List] and [Get] that pass the authorization check panic
    alike. *)
Theorem ForResource_without_separator (ns gvr path : string) (sel : Selector) (f : Factory) :
  has_byte gvr slash = false ->
  (forall o f1, ensureFactory ns f = Done o f1 ->
     ForResource ns gvr f = Panicked (IndexOutOfRange 2 2) f1) /\
  (forall o f', ForResource ns gvr f <> Done o f') /\
  (factories f = ∅ -> conn_DynDial = true ->
   exists f1, ForResource ns gvr f = Panicked (IndexOutOfRange 2 2) f1 /\
              is_Some (factories f1 !! allNamespaces) /\
              (next_ref f < next_ref f1)%nat) /\
  (conn_CanI ns gvr ["list"] = (true, None) ->
   forall r f', List gvr ns sel f <> Done r f') /\
  (conn_CanI (namespaced path).1 gvr ["get"] = (true, None) ->
   forall r f', Get gvr path sel f <> Done r f').
Proof.
  intros Hgvr. pose proof (toGVR_without_separator gvr Hgvr) as Hpanic.
  assert (Hnever : forall s g o f', ForResource s gvr g <> Done o f').
  { intros s g o f' Hfr. apply ForResource_Done in Hfr as (fac & r & f1 & _ & Hr & _).
    congruence. }
  split; [|split; [apply Hnever|split; [|split]]].
  - intros o f1 He. rewrite ForResource_outcome, <- ensureFactory_outcome, He, Hpanic.
    now destruct o.
  - intros Hempty Hdial. rewrite ForResource_outcome. unfold ensure_outcome.
    rewrite Hempty, !lookup_empty, Hdial, Hpanic.
    destruct (decide (ns = allNamespaces)); eexists; (split; [reflexivity|]); simpl;
      rewrite lookup_insert_eq; split; eauto; lia.
  - intros Hauth r f'. rewrite List_outcome, Hauth.
    destruct (ForResource ns gvr _) as [o f1|p f1|] eqn:Hfr; [|discriminate|discriminate].
    now destruct (Hnever _ _ _ _ Hfr).
  - intros Hauth r f'. rewrite Get_outcome. cbv zeta. rewrite Hauth.
    destruct (ForResource (namespaced path).1 gvr _) as [o f1|p f1|] eqn:Hfr;
      [|discriminate|discriminate].
    now destruct (Hnever _ _ _ _ Hfr).
Qed.

(** X9.  [Debug] never constructs or starts an informer factory: it reads
    the all-namespaces entry as it is.  With a well-formed identifier, on a
    Factory without that entry (a new one, a terminated one) it panics on the
    nil informer factory and changes nothing; with the entry it asks that
    informer factory for the informer and lists its keys. *)
Theorem Debug_reads_the_cluster_wide_entry (gvr : string) (r : GVR) (f : Factory) :
  toGVR gvr = Ok r ->
  (factories f !! allNamespaces = None -> Debug gvr f = Panicked NilDereference f) /\
  (forall cw, factories f !! allNamespaces = Some cw -> informer_for cw r = true ->
     Debug gvr f =
     Done tt (log [EvForResource cw r; EvListKeys (mkInformer cw r)] f)) /\
  (forall f', outcome_state (Debug gvr f) = Some f' ->
     factories f' = factories f /\ next_ref f' = next_ref f /\
     exists es, trace f' = trace f ++ es /\
       count_events is_start_without_stop es = 0%nat /\
       count_events is_start_with_stop es = 0%nat).
Proof.
  intros Hr. unfold Debug, bind, gets. rewrite Hr. cbn [lift ret].
  split; [|split].
  - now intros ->.
  - intros cw -> Hinf. unfold fact_ForResource, bind, emit, modify, ret, informer_of.
    rewrite Hinf. cbn [Informer_ListKeys]. unfold emit, modify. now rewrite log_log.
  - intros f'. destruct (factories f !! allNamespaces) as [cw|].
    + unfold fact_ForResource, bind, emit, modify, ret.
      destruct (informer_of cw r); cbn [Informer_ListKeys]; unfold emit, modify, raise;
        simpl; intros [= <-]; repeat split; eexists; simpl;
        (split; [try rewrite <- app_assoc; reflexivity | now split]).
    + simpl. intros [= <-]. repeat split. exists []. now rewrite app_nil_r.
Qed.

(** X10.  [Start stop] calls [Start(stop)] once on every informer factory the
    scope map holds and changes nothing else; [Init] is [Start] with the
    Factory's own stop channel, and [WaitForCacheSync] waits once on every
    one.  On a Factory that a program can hold no informer factory is called
    twice, and on an empty scope map nothing is called. *)
Theorem Start_calls_every_informer_factory (stop : option nat) (f : Factory) :
  (exists es,
      Start stop f = Done tt (log es f) /\
      length es = size (factories f) /\
      (forall e, e ∈ es <->
                 exists k fac, factories f !! k = Some fac /\ e = EvFactoryStart fac stop) /\
      (reachable f -> NoDup es)) /\
  Init f = Start (stopChan f) f /\
  (exists es,
      WaitForCacheSync f = Done tt (log es f) /\
      length es = size (factories f) /\
      (forall e, e ∈ es <->
                 exists k fac, factories f !! k = Some fac /\
                               e = EvWaitForCacheSync fac (stopChan f)) /\
      (reachable f -> NoDup es)).
Proof.
  assert (Hloop : forall ev : nat -> event,
             (forall a b, ev a = ev b -> a = b) ->
             length (map (fun kv : string * nat => ev kv.2) (map_to_list (factories f)))
             = size (factories f) /\
             (forall e, e ∈ map (fun kv : string * nat => ev kv.2) (map_to_list (factories f))
                        <-> exists k fac, factories f !! k = Some fac /\ e = ev fac) /\
             (reachable f ->
              NoDup (map (fun kv : string * nat => ev kv.2) (map_to_list (factories f))))).
  { intros ev Hinj. split; [|split].
    - rewrite length_map. apply length_map_to_list.
    - intros e. split.
      + intros Hin. apply list_elem_of_fmap in Hin as ([k fac] & -> & Hin).
        apply elem_of_map_to_list in Hin. now exists k, fac.
      + intros (k & fac & Hk & ->).
        apply (list_elem_of_fmap_2 (fun kv : string * nat => ev kv.2) _ (k, fac)).
        now apply elem_of_map_to_list.
    - intros Hreach. pose proof (reachable_coherent f Hreach) as Hco.
      apply (NoDup_fmap_2_strong (fun kv : string * nat => ev kv.2)).
      + intros [k1 h1] [k2 h2] H1 H2 Heq. simpl in Heq. apply Hinj in Heq as ->.
        apply elem_of_map_to_list in H1, H2.
        now rewrite (coherent_refs_distinct f k1 k2 h2 Hco H1 H2).
      + apply NoDup_map_to_list. }
  split; [|split].
  - eexists. split.
    + unfold Start, bind, gets, fact_Start. now rewrite for_each_emit.
    + apply (Hloop (fun fac => EvFactoryStart fac stop)). now intros a b [= ->].
  - reflexivity.
  - eexists. split.
    + unfold WaitForCacheSync, bind, gets. now rewrite for_each_emit.
    + apply (Hloop (fun fac => EvWaitForCacheSync fac (stopChan f))). now intros a b [= ->].
Qed.

Lemma namespaced_absent (name : string) :
  has_byte name slash = false -> namespaced name = (EmptyString, name).
Proof. intros Hb. unfold namespaced. now rewrite (path_Split_absent _ Hb). Qed.

Lemma namespaced_final (pre name : string) :
  has_byte name slash = false ->
  namespaced (pre +:+ String slash name) = (Trim pre slash, name).
Proof.
  intros Hb. unfold namespaced. now rewrite (path_Split_final _ _ Hb), Trim_snoc.
Qed.

(** X11.  [Get] with a path that holds no ["/"] checks the authorization in
    the empty namespace and asks the lister for the name within the namespace
    [""]; the lookup by name alone is taken only when the part before the
    last ["/"] trims to ["-"], as for ["-/name"].  In general the namespace
    checked and queried is the part before the last ["/"], trimmed. *)
Theorem Get_routes_by_path (gvr pre name : string) (sel : Selector) (f f1 : Factory)
    (inf : Informer) :
  has_byte name slash = false ->
  (conn_CanI "" gvr ["get"] = (true, None) ->
   ForResource "" gvr (log [EvCanI "" gvr ["get"]] f) = Done (Some inf) f1 ->
   Get gvr name sel f =
   Done (lister_Get inf (Some "") name) (log [EvGetByNamespace inf "" name] f1)) /\
  (conn_CanI "-" gvr ["get"] = (true, None) ->
   ForResource "-" gvr (log [EvCanI "-" gvr ["get"]] f) = Done (Some inf) f1 ->
   Get gvr ("-" +:+ String slash name) sel f =
   Done (lister_Get inf None name) (log [EvGet inf name] f1)) /\
  (Trim pre slash <> clusterScope ->
   conn_CanI (Trim pre slash) gvr ["get"] = (true, None) ->
   ForResource (Trim pre slash) gvr (log [EvCanI (Trim pre slash) gvr ["get"]] f)
   = Done (Some inf) f1 ->
   Get gvr (pre +:+ String slash name) sel f =
   Done (lister_Get inf (Some (Trim pre slash)) name)
        (log [EvGetByNamespace inf (Trim pre slash) name] f1)).
Proof.
  intros Hb. split; [|split].
  - intros Hauth Hfr. rewrite Get_outcome, (namespaced_absent _ Hb). cbn [fst snd].
    now rewrite Hauth, Hfr.
  - intros Hauth Hfr. rewrite Get_outcome, (namespaced_final _ _ Hb). cbn [fst snd].
    change (Trim "-" slash) with "-". now rewrite Hauth, Hfr.
  - intros Hns Hauth Hfr. rewrite Get_outcome, (namespaced_final _ _ Hb). cbn [fst snd].
    rewrite Hauth, Hfr. now rewrite (proj2 (String.eqb_neq _ _) Hns).
Qed.

Lemma count_events_app (p : event -> bool) (es es' : list event) :
  count_events p (es ++ es') = (count_events p es + count_events p es')%nat.
Proof. unfold count_events. now rewrite List.filter_app, length_app. Qed.

(** Ensuring a scope set and asking it for an informer queries no store. *)
Lemma ForResource_queries_nothing (ns gvr : string) (f f' : Factory) :
  outcome_state (ForResource ns gvr f) = Some f' ->
  exists es, trace f' = trace f ++ es /\ count_events is_store_query es = 0%nat.
Proof.
  rewrite ForResource_outcome.
  assert (Hens : forall f1, outcome_state (ensure_outcome ns f) = Some f1 ->
                            exists es, trace f1 = trace f ++ es /\
                                       count_events is_store_query es = 0%nat).
  { intros f1. unfold ensure_outcome.
    destruct (factories f !! allNamespaces);
      [simpl; intros [= <-]; exists []; now rewrite app_nil_r|].
    destruct (factories f !! ns);
      [simpl; intros [= <-]; exists []; now rewrite app_nil_r|].
    destruct conn_DynDial; [|simpl; intros [= <-]; now eexists].
    destruct (decide (ns = allNamespaces)); simpl; intros [= <-]; now eexists. }
  destruct (ensure_outcome ns f) as [[fac|] f1|p f1|] eqn:He; simpl.
  - destruct (Hens f1 eq_refl) as (es & Hes & Hcount).
    destruct (toGVR gvr) as [r|p]; simpl; intros [= <-].
    + exists (es ++ warm fac (stopChan f1) [r]). simpl. rewrite Hes, <- app_assoc.
      split; [reflexivity|]. now rewrite count_events_app, Hcount.
    + now exists es.
  - destruct (Hens f1 eq_refl) as (es & Hes & Hcount).
    destruct (toGVR gvr) as [r|p]; simpl; intros [= <-]; now exists es.
  - intros [= <-]. exact (Hens f1 eq_refl).
  - discriminate.
Qed.

(** X12.  In every run, returning or panicking, [List] and [Get] query a
    store at most once; and when the informer factory hands out no informer
    they return the no-resource error having queried nothing, with the scope
    set they ensured left in place. *)
Theorem reads_query_at_most_once (gvr ns path : string) (sel : Selector) (f : Factory) :
  (forall f', outcome_state (List gvr ns sel f) = Some f' ->
     exists es, trace f' = trace f ++ es /\
                (count_events is_store_query es <= 1)%nat) /\
  (forall f', outcome_state (Get gvr path sel f) = Some f' ->
     exists es, trace f' = trace f ++ es /\
                (count_events is_store_query es <= 1)%nat) /\
  (forall f1, conn_CanI ns gvr ["list"] = (true, None) ->
     ForResource ns gvr (log [EvCanI ns gvr ["list"]] f) = Done None f1 ->
     List gvr ns sel f = Done (None, Some (ErrNoResource gvr)) f1 /\
     exists es, trace f1 = trace f ++ es /\ count_events is_store_query es = 0%nat) /\
  (forall f1, conn_CanI (namespaced path).1 gvr ["get"] = (true, None) ->
     ForResource (namespaced path).1 gvr
       (log [EvCanI (namespaced path).1 gvr ["get"]] f) = Done None f1 ->
     Get gvr path sel f = Done (None, Some (ErrNoResource gvr)) f1 /\
     exists es, trace f1 = trace f ++ es /\ count_events is_store_query es = 0%nat).
Proof.
  assert (Hfr : forall s v f', outcome_state (ForResource s gvr (log [EvCanI s gvr v] f))
                               = Some f' ->
                  exists es, trace f' = trace f ++ es /\
                             count_events is_store_query es = 0%nat).
  { intros s v f' Hst. apply ForResource_queries_nothing in Hst as (es & Hes & Hcount).
    exists (EvCanI s gvr v :: es). simpl in Hes. rewrite Hes, <- app_assoc.
    split; [reflexivity | exact Hcount]. }
  split; [|split; [|split]].
  - intros f'. rewrite List_outcome.
    destruct (conn_CanI ns gvr ["list"]) as [[|] [err|]];
      try (simpl; intros [= <-]; eexists; split; [reflexivity | unfold count_events; simpl; lia]).
    pose proof (Hfr ns ["list"]) as Htr.
    destruct (ForResource ns gvr _) as [[inf|] f1|p f1|]; try discriminate;
      destruct (Htr f1 eq_refl) as (es & Hes & Hcount).
    + destruct (String.eqb ns clusterScope); simpl; intros [= <-]; eexists; simpl;
        (split; [rewrite Hes, <- app_assoc; reflexivity|]);
        rewrite count_events_app, Hcount; unfold count_events; simpl; lia.
    + simpl. intros [= <-]. exists es. split; [exact Hes | lia].
    + simpl. intros [= <-]. exists es. split; [exact Hes | lia].
  - intros f'. rewrite Get_outcome. cbv zeta.
    destruct (conn_CanI (namespaced path).1 gvr ["get"]) as [[|] [err|]];
      try (simpl; intros [= <-]; eexists; split; [reflexivity | unfold count_events; simpl; lia]).
    pose proof (Hfr (namespaced path).1 ["get"]) as Htr.
    destruct (ForResource (namespaced path).1 gvr _) as [[inf|] f1|p f1|];
      try discriminate; destruct (Htr f1 eq_refl) as (es & Hes & Hcount).
    + destruct (String.eqb (namespaced path).1 clusterScope); simpl; intros [= <-];
        eexists; simpl; (split; [rewrite Hes, <- app_assoc; reflexivity|]);
        rewrite count_events_app, Hcount; unfold count_events; simpl; lia.
    + simpl. intros [= <-]. exists es. split; [exact Hes | lia].
    + simpl. intros [= <-]. exists es. split; [exact Hes | lia].
  - intros f1 Hauth Hnil. split; [now rewrite List_outcome, Hauth, Hnil|].
    apply (Hfr ns ["list"]). now rewrite Hnil.
  - intros f1 Hauth Hnil. split; [now rewrite Get_outcome; cbv zeta; rewrite Hauth, Hnil|].
    apply (Hfr (namespaced path).1 ["get"]). now rewrite Hnil.
Qed.

(** X13.  A session that a later registration under the same path replaced
    is never stopped: neither [DeleteForwarder] on that path nor [Terminate]
    stops it, they stop the session registered last.  (On a Factory that a
    program can hold every session is registered under its own path.) *)
Theorem replaced_forwarder_is_never_stopped (pf1 pf2 : Forwarder) (f : Factory) :
  reachable f ->
  Path pf1 = Path pf2 ->
  pf1 <> pf2 ->
  (forall k pf, forwarders f !! k = Some pf -> Path pf = k) /\
  (exists (f3 : Factory) (es : list event),
      (do! RegisterForwarder pf1 in
       do! RegisterForwarder pf2 in
       Terminate) f = Done tt f3 /\
      trace f3 = trace f ++ es /\
      EvForwarderStop pf2 ∈ es /\
      EvForwarderStop pf1 ∉ es) /\
  (exists f3 : Factory,
      (do! RegisterForwarder pf1 in
       do! RegisterForwarder pf2 in
       DeleteForwarder (Path pf1)) f = Done tt f3 /\
      trace f3 = trace f ++ [EvForwarderStop pf2] /\
      forwarders f3 !! Path pf1 = None).
Proof.
  intros Hreach Hpath Hdiff.
  set (f2 := set_forwarders <[Path pf2 := pf2]> (set_forwarders <[Path pf1 := pf1]> f)).
  assert (Hreach2 : reachable f2).
  { apply (reach_done (CallRegisterForwarder pf2)
             (set_forwarders <[Path pf1 := pf1]> f) tt); [|reflexivity].
    apply (reach_done (CallRegisterForwarder pf1) f tt); [exact Hreach | reflexivity]. }
  destruct (reachable_coherent f Hreach) as (_ & _ & Hkeys).
  destruct (reachable_coherent f2 Hreach2) as (_ & _ & Hkeys2).
  destruct (reachable_wf f2 Hreach2) as [_ Hopen2].
  assert (Hheld : forwarders f2 !! Path pf2 = Some pf2) by apply lookup_insert_eq.
  split; [exact Hkeys|]. split.
  - exists (terminated f2). eexists.
    split; [|split; [reflexivity|split]].
    + unfold bind, RegisterForwarder, modify. now apply Terminate_outcome.
    + apply elem_of_app. right.
      apply (list_elem_of_fmap_2 (fun kv : string * Forwarder => EvForwarderStop kv.2)
               _ (Path pf2, pf2)).
      now apply elem_of_map_to_list.
    + intros Hin. apply elem_of_app in Hin as [Hin | Hin].
      { simpl in Hin. destruct (stopChan f); [|inversion Hin].
        apply list_elem_of_singleton in Hin. discriminate. }
      apply list_elem_of_fmap in Hin as ([k pf] & [= <-] & Hin).
      apply elem_of_map_to_list in Hin. pose proof (Hkeys2 _ _ Hin) as Hk.
      rewrite <- Hk, Hpath, Hheld in Hin. congruence.
  - exists (set_forwarders (delete (Path pf1)) (log [EvForwarderStop pf2] f2)).
    split; [|split; [reflexivity | apply lookup_delete_eq]].
    change ((do! RegisterForwarder pf1 in
             do! RegisterForwarder pf2 in
             DeleteForwarder (Path pf1)) f) with (DeleteForwarder (Path pf1) f2).
    rewrite DeleteForwarder_outcome. now rewrite Hpath, Hheld.
Qed.

(** X14.  Registering a session under a free path and deleting that path
    again leaves the registry as it was and stops exactly that session. *)
Theorem register_then_delete (pf : Forwarder) (f : Factory) :
  forwarders f !! Path pf = None ->
  exists f' : Factory,
    (do! RegisterForwarder pf in DeleteForwarder (Path pf)) f = Done tt f' /\
    forwarders f' = forwarders f /\
    factories f' = factories f /\
    trace f' = trace f ++ [EvForwarderStop pf] /\
    ForwarderFor (Path pf) f' = Done None f'.
Proof.
  intros Hfree.
  exists (set_forwarders (delete (Path pf))
            (log [EvForwarderStop pf] (set_forwarders <[Path pf := pf]> f))).
  assert (Hback : delete (Path pf) (<[Path pf := pf]> (forwarders f)) = forwarders f)
    by (rewrite delete_insert_eq; now apply delete_id).
  split; [|split; [exact Hback|split; [reflexivity|split; [reflexivity|]]]].
  - change ((do! RegisterForwarder pf in DeleteForwarder (Path pf)) f)
      with (DeleteForwarder (Path pf) (set_forwarders <[Path pf := pf]> f)).
    rewrite DeleteForwarder_outcome. cbn [forwarders set_forwarders].
    now rewrite lookup_insert_eq.
  - unfold ForwarderFor, gets. cbn [forwarders set_forwarders log].
    now rewrite Hback, Hfree.
Qed.

End FactoryExtras.

(** * [APIClient] *)

Section ClientConnProofs.
Context `{ClientConn.Cluster} `{ClientConn.Server}.
Import ClientConn.

Ltac unfold_client :=
  unfold DialOrDie, CachedDiscovery, DynDialOrDie, MXDial, RestConfigOrDie,
    call_mustHomeDir, reset, ask, fresh, bind, ret, die, gets, modify.

Ltac split_answers :=
  repeat match goal with
    | |- context [if ?b then _ else _] => destruct b; simpl
    end.

Lemma DialOrDie_outcome (s : APIClient) :
  DialOrDie s =
  match client s with
  | Some h => Returns h s
  | None =>
      if config_RESTConfig (history s) then
        if kubernetes_NewForConfig (history (configured s)) then
          Returns (next_handle s)
                  (set_client (Some (next_handle s))
                     (allocated (called NewClientset (configured s))))
        else Dies FatalExit (called NewClientset (configured s))
      else Dies PanicMsg (configured s)
  end.
Proof.
  unfold_client. unfold homed, configured. destruct (client s); [reflexivity|].
  simpl. split_answers; reflexivity.
Qed.

Lemma CachedDiscovery_outcome (s : APIClient) :
  CachedDiscovery s =
  match cachedDiscovery s with
  | Some h => Returns (Some h, None) s
  | None =>
      if config_RESTConfig (history s) then
        if mustHomeDir (history (configured s)) then
          if mustHomeDir (history (called HomeDir (configured s))) then
            if disk_NewCachedDiscoveryClientForConfig (history (homed s)) then
              Returns (Some (next_handle s), None)
                      (set_cachedDiscovery (Some (next_handle s))
                         (allocated (called NewDiscovery (homed s))))
            else Returns (None, Some (FailureOf NewDiscovery))
                         (set_cachedDiscovery None (called NewDiscovery (homed s)))
          else Dies HomeDirFailed (homed s)
        else Dies HomeDirFailed (called HomeDir (configured s))
      else Dies PanicMsg (configured s)
  end.
Proof.
  unfold_client. unfold homed, configured. destruct (cachedDiscovery s); [reflexivity|].
  simpl. split_answers; reflexivity.
Qed.

Lemma DynDialOrDie_outcome (s : APIClient) :
  DynDialOrDie s =
  match dClient s with
  | Some h => Returns (Some h) s
  | None =>
      if config_RESTConfig (history s) then
        if dynamic_NewForConfig (history (configured s)) then
          Returns (Some (next_handle s))
                  (set_dClient (Some (next_handle s))
                     (allocated (called NewDynamic (configured s))))
        else if unsent_panic_event_panics then
          Dies PanicMsg (set_dClient None (called NewDynamic (configured s)))
        else Returns None (set_dClient None (called NewDynamic (configured s)))
      else Dies PanicMsg (configured s)
  end.
Proof.
  unfold_client. unfold homed, configured. destruct (dClient s); [reflexivity|].
  simpl. split_answers; reflexivity.
Qed.

Lemma MXDial_outcome (s : APIClient) :
  MXDial s =
  match mxsClient s with
  | Some h => Returns (Some h, None) s
  | None =>
      if config_RESTConfig (history s) then
        if versioned_NewForConfig (history (configured s)) then
          Returns (Some (next_handle s), None)
                  (set_mxsClient (Some (next_handle s))
                     (allocated (called NewMetrics (configured s))))
        else Returns (None, Some (FailureOf NewMetrics))
                     (set_mxsClient None (called NewMetrics (configured s)))
      else Dies PanicMsg (configured s)
  end.
Proof.
  unfold_client. unfold homed, configured. destruct (mxsClient s); [reflexivity|].
  simpl. split_answers; reflexivity.
Qed.

(** ** The authorization check *)

Lemma set_Verb_twice (u v : string) (sar : ResourceAttributes) :
  set_Verb v (set_Verb u sar) = set_Verb v sar.
Proof. reflexivity. Qed.

(** The review created for a verb is the one that [makeSAR] built, with the
    verb written into it. *)
Lemma set_Verb_makeSAR (ns gvr v : string) :
  set_Verb v (makeSAR ns gvr) = review_of ns gvr v.
Proof. reflexivity. Qed.

(** Only the verb of the review passed around changes, so the loop does not
    depend on the verb left in it by the previous round. *)
Lemma CanI_loop_set_Verb (dial : nat) (ns gvr u : string) (sar : ResourceAttributes)
    (verbs : list string) :
  CanI_loop dial ns gvr (set_Verb u sar) verbs = CanI_loop dial ns gvr sar verbs.
Proof. destruct verbs as [|v verbs]; reflexivity. Qed.

Lemma CanI_loop_cons (dial : nat) (ns gvr v : string) (verbs : list string) (s : APIClient) :
  CanI_loop dial ns gvr (makeSAR ns gvr) (v :: verbs) s =
  match sar_Create (history s) dial (review_of ns gvr v) with
  | Failed msg =>
      Returns (false, Some (ErrRemote msg)) (called (CreateReview dial (review_of ns gvr v)) s)
  | Denied =>
      Returns (false, Some (ErrAccessDenied v ns gvr))
              (called (CreateReview dial (review_of ns gvr v)) s)
  | Allowed =>
      CanI_loop dial ns gvr (makeSAR ns gvr) verbs
                (called (CreateReview dial (review_of ns gvr v)) s)
  end.
Proof.
  cbn [CanI_loop]. rewrite set_Verb_makeSAR. unfold bind at 1. unfold ask.
  destruct (sar_Create (history s) dial (review_of ns gvr v)); try reflexivity.
  rewrite <- (set_Verb_makeSAR ns gvr v) at 1. now rewrite CanI_loop_set_Verb.
Qed.

Lemma CanI_outcome (ns gvr : string) (verbs : list string) (s : APIClient) :
  CanI ns gvr verbs s =
  match DialOrDie s with
  | Returns dial s1 => CanI_loop dial ns gvr (makeSAR ns gvr) verbs s1
  | Dies d s1 => Dies d s1
  end.
Proof. reflexivity. Qed.

Lemma history_reviewed (dial : nat) (sent : list ResourceAttributes) (s : APIClient) :
  history (reviewed dial sent s) = history s ++ map (CreateReview dial) sent.
Proof.
  revert s. induction sent as [|sar sent IH]; intros s; simpl.
  - now rewrite app_nil_r.
  - change (reviewed dial (sar :: sent) s)
      with (reviewed dial sent (called (CreateReview dial sar) s)).
    rewrite IH. simpl. now rewrite <- app_assoc.
Qed.

Lemma reviewed_app (dial : nat) (l1 l2 : list ResourceAttributes) (s : APIClient) :
  reviewed dial (l1 ++ l2) s = reviewed dial l2 (reviewed dial l1 s).
Proof. unfold reviewed. apply foldl_app. Qed.

Lemma all_allowed_app (dial : nat) (hist : list call) (l1 l2 : list ResourceAttributes) :
  all_allowed dial hist (l1 ++ l2) <->
  all_allowed dial hist l1 /\ all_allowed dial (hist ++ map (CreateReview dial) l1) l2.
Proof.
  revert hist. induction l1 as [|sar l1 IH]; intros hist; simpl.
  - rewrite app_nil_r. tauto.
  - rewrite IH, <- app_assoc. simpl. tauto.
Qed.

(** The loop of [CanI], unfolded: every review is allowed and the loop runs
    to its end, or the reviews before some verb are allowed and the review of
    that verb is refused or fails, which ends the loop. *)
Lemma CanI_loop_spec (dial : nat) (ns gvr : string) (verbs : list string) (s : APIClient) :
  (all_allowed dial (history s) (map (review_of ns gvr) verbs) /\
   CanI_loop dial ns gvr (makeSAR ns gvr) verbs s =
   Returns (true, None) (reviewed dial (map (review_of ns gvr) verbs) s)) \/
  (exists (before : list string) (v : string) (after : list string),
      verbs = before ++ v :: after /\
      all_allowed dial (history s) (map (review_of ns gvr) before) /\
      ((sar_Create (history (reviewed dial (map (review_of ns gvr) before) s)) dial
          (review_of ns gvr v) = Denied /\
        CanI_loop dial ns gvr (makeSAR ns gvr) verbs s =
        Returns (false, Some (ErrAccessDenied v ns gvr))
                (reviewed dial (map (review_of ns gvr) (before ++ [v])) s)) \/
       (exists msg : string,
           sar_Create (history (reviewed dial (map (review_of ns gvr) before) s)) dial
             (review_of ns gvr v) = Failed msg /\
           CanI_loop dial ns gvr (makeSAR ns gvr) verbs s =
           Returns (false, Some (ErrRemote msg))
                   (reviewed dial (map (review_of ns gvr) (before ++ [v])) s)))).
Proof.
  revert s. induction verbs as [|v verbs IH]; intros s.
  - left. now split.
  - rewrite CanI_loop_cons.
    destruct (sar_Create (history s) dial (review_of ns gvr v)) as [| |msg] eqn:Hv.
    + destruct (IH (called (CreateReview dial (review_of ns gvr v)) s))
        as [(Hall & Hrun) | (before & w & after & -> & Hall & Hw)].
      * left. split; [now split | exact Hrun].
      * right. exists (v :: before), w, after. split; [reflexivity|].
        split; [now split | exact Hw].
    + right. exists [], v, verbs. split; [reflexivity|]. split; [exact I|].
      left. now split.
    + right. exists [], v, verbs. split; [reflexivity|]. split; [exact I|].
      right. exists msg. now split.
Qed.

(** C4.  [CanI] first asks for the clientset, and ends as [DialOrDie] ends
    when that call does not return, before any verb is examined.  Otherwise
    it creates one review per verb through that clientset, in the order of
    the list, each for the namespace and resource given and for that verb,
    up to and including the first verb that the server denies or whose review
    fails, and none after it.  When every verb is allowed the answer is
    [(true, nil)]; a denial answers [false] with the error built for that
    verb, namespace and resource, a failed review answers [false] with the
    server's error, and the two errors differ. *)
Theorem CanI_checks_in_order_and_stops (ns gvr : string) (verbs : list string)
    (s : APIClient) :
  (forall d s1, DialOrDie s = Dies d s1 -> CanI ns gvr verbs s = Dies d s1) /\
  (forall dial s1, DialOrDie s = Returns dial s1 ->
     (all_allowed dial (history s1) (map (review_of ns gvr) verbs) /\
      CanI ns gvr verbs s =
      Returns (true, None) (reviewed dial (map (review_of ns gvr) verbs) s1)) \/
     (exists (before : list string) (v : string) (after : list string),
         verbs = before ++ v :: after /\
         all_allowed dial (history s1) (map (review_of ns gvr) before) /\
         history (final (CanI ns gvr verbs s)) =
         history s1 ++ map (CreateReview dial) (map (review_of ns gvr) (before ++ [v])) /\
         ((sar_Create (history s1 ++ map (CreateReview dial) (map (review_of ns gvr) before))
             dial (review_of ns gvr v) = Denied /\
           CanI ns gvr verbs s =
           Returns (false, Some (ErrAccessDenied v ns gvr))
                   (reviewed dial (map (review_of ns gvr) (before ++ [v])) s1) /\
           is_denial (false, Some (ErrAccessDenied v ns gvr)) = true) \/
          (exists msg : string,
              sar_Create (history s1 ++ map (CreateReview dial) (map (review_of ns gvr) before))
                dial (review_of ns gvr v) = Failed msg /\
              CanI ns gvr verbs s =
              Returns (false, Some (ErrRemote msg))
                      (reviewed dial (map (review_of ns gvr) (before ++ [v])) s1) /\
              is_denial (false, Some (ErrRemote msg)) = false)))).
Proof.
  split.
  - intros d s1 Hd. now rewrite CanI_outcome, Hd.
  - intros dial s1 Hd. rewrite CanI_outcome, Hd.
    destruct (CanI_loop_spec dial ns gvr verbs s1)
      as [(Hall & Hrun) | (before & v & after & Hverbs & Hall & Hv)].
    + left. now split.
    + right. exists before, v, after. split; [exact Hverbs|]. split; [exact Hall|].
      rewrite history_reviewed in Hv.
      destruct Hv as [(Hdenied & Hrun) | (msg & Hfailed & Hrun)].
      * split; [rewrite Hrun; apply history_reviewed|]. left. now repeat split.
      * split; [rewrite Hrun; apply history_reviewed|]. right. exists msg. now repeat split.
Qed.

(** X4.  [CanI] never returns [(false, nil)], nor [true] with an error: the
    answer [false] always comes with an error. *)
Lemma CanI_false_has_error (ns gvr : string) (verbs : list string) (s s' : APIClient)
    (r : bool * option error) :
  CanI ns gvr verbs s = Returns r s' ->
  r <> (false, None) /\ (r = (true, None) \/ exists e, r = (false, Some e)).
Proof.
  rewrite CanI_outcome. destruct (DialOrDie s) as [dial s1|d s1]; [|discriminate].
  destruct (CanI_loop_spec dial ns gvr verbs s1)
    as [(_ & ->) | (before & v & after & _ & _ & [(_ & ->) | (msg & _ & ->)])];
    intros [= <- _]; (split; [discriminate|]); eauto.
Qed.

(** X15.  When the clientset is had, [CanI] answers [(true, nil)] exactly
    when the server allows the review of every verb of the list, each created
    after those before it, and then it has created one review per verb, in
    order; it never creates more reviews than there are verbs, and for the
    empty list it answers [true] without creating any. *)
Theorem CanI_true_iff_all_allowed (ns gvr : string) (verbs : list string)
    (s s1 : APIClient) (dial : nat) :
  DialOrDie s = Returns dial s1 ->
  ((exists s', CanI ns gvr verbs s = Returns (true, None) s') <->
   all_allowed dial (history s1) (map (review_of ns gvr) verbs)) /\
  (forall e s', CanI ns gvr verbs s = Returns (true, e) s' ->
     s' = reviewed dial (map (review_of ns gvr) verbs) s1 /\
     history s' = history s1 ++ map (CreateReview dial) (map (review_of ns gvr) verbs)) /\
  (exists sent : list ResourceAttributes,
      history (final (CanI ns gvr verbs s)) = history s1 ++ map (CreateReview dial) sent /\
      (length sent <= length verbs)%nat) /\
  CanI ns gvr [] s = Returns (true, None) s1.
Proof.
  intros Hd. rewrite !CanI_outcome, Hd.
  destruct (CanI_loop_spec dial ns gvr verbs s1)
    as [(Hall & Hrun) | (before & v & after & Hverbs & Hall & Hv)].
  - rewrite Hrun. split; [|split; [|split]].
    + split; [intros _; exact Hall | intros _; now eexists].
    + intros e s' [= _ <-]. split; [reflexivity | apply history_reviewed].
    + exists (map (review_of ns gvr) verbs). split; [apply history_reviewed|].
      now rewrite length_map.
    + reflexivity.
  - assert (Hrefused :
              sar_Create (history (reviewed dial (map (review_of ns gvr) before) s1)) dial
                (review_of ns gvr v) <> Allowed)
      by (destruct Hv as [(-> & _) | (msg & -> & _)]; discriminate).
    assert (Hsent : exists r,
               CanI_loop dial ns gvr (makeSAR ns gvr) verbs s1 =
               Returns (false, r) (reviewed dial (map (review_of ns gvr) (before ++ [v])) s1))
      by (destruct Hv as [(_ & ->) | (msg & _ & ->)]; eauto).
    destruct Hsent as [r ->]. split; [|split; [|split]].
    + split; [intros [s' [=]]|]. intros Hwhole. exfalso. apply Hrefused.
      rewrite Hverbs, map_app in Hwhole. apply all_allowed_app in Hwhole as [_ [Hv' _]].
      now rewrite history_reviewed.
    + intros e s' [=].
    + exists (map (review_of ns gvr) (before ++ [v])). split; [apply history_reviewed|].
      rewrite length_map, Hverbs, !length_app. simpl. lia.
    + reflexivity.
Qed.

Lemma prefix_then_verb (before after : list string) (v : string) :
  forall w, w ∈ before ++ [v] -> w ∈ before ++ v :: after.
Proof.
  intros w Hw. apply elem_of_app. apply elem_of_app in Hw as [Hw | Hw]; [now left|].
  right. apply list_elem_of_singleton in Hw as ->. apply list_elem_of_here.
Qed.

(** The loop for the cluster scope runs as the loop for the empty
    namespace: same answer, same client; only the text of a denial names the
    namespace as it was given. *)
Lemma CanI_loop_cluster_scope (dial : nat) (gvr : string) (verbs : list string)
    (s : APIClient) :
  exists (b : bool) (e1 e2 : option error) (s' : APIClient),
    CanI_loop dial "-" gvr (makeSAR "-" gvr) verbs s = Returns (b, e1) s' /\
    CanI_loop dial "" gvr (makeSAR "" gvr) verbs s = Returns (b, e2) s'.
Proof.
  revert s. induction verbs as [|v verbs IH]; intros s.
  - exists true, None, None, s. now split.
  - rewrite !CanI_loop_cons.
    change (review_of "-" gvr v) with (review_of "" gvr v).
    destruct (sar_Create (history s) dial (review_of "" gvr v)) as [| |msg].
    + apply IH.
    + eexists false, _, _, _. now split.
    + eexists false, _, _, _. now split.
Qed.

(** X16.  The cluster scope ["-"] is authorized as the empty namespace:
    [CanI "-"] creates the reviews that [CanI ""] creates, answers [true] or
    [false] as it does and ends as it ends.  Every review that [CanI]
    creates carries the namespace so normalised, the group, resource and
    subresource read from the identifier, and a verb of the list; none
    carries ["-"] as namespace. *)
Theorem CanI_cluster_scope_is_empty_namespace (ns gvr : string) (verbs : list string)
    (s : APIClient) :
  (forall b s', (exists e, CanI "-" gvr verbs s = Returns (b, e) s') <->
                (exists e, CanI "" gvr verbs s = Returns (b, e) s')) /\
  (forall d s', CanI "-" gvr verbs s = Dies d s' <-> CanI "" gvr verbs s = Dies d s') /\
  (forall dial s1, DialOrDie s = Returns dial s1 ->
     exists sent : list ResourceAttributes,
       history (final (CanI ns gvr verbs s)) = history s1 ++ map (CreateReview dial) sent /\
       forall sar, sar ∈ sent ->
         ra_Namespace sar = (if String.eqb ns "-" then "" else ns) /\
         ra_Namespace sar <> "-" /\
         ra_Group sar = Group (AsGVR gvr) /\
         ra_Resource sar = Resource (AsGVR gvr) /\
         ra_Subresource sar = SubResource gvr /\
         ra_Verb sar ∈ verbs).
Proof.
  split; [|split].
  - intros b s'. rewrite !CanI_outcome. destruct (DialOrDie s) as [dial s1|d s1].
    + destruct (CanI_loop_cluster_scope dial gvr verbs s1) as (b0 & e1 & e2 & s0 & -> & ->).
      split; intros [e [= <- _ <-]]; eauto.
    + split; intros [e [=]].
  - intros d s'. rewrite !CanI_outcome. destruct (DialOrDie s) as [dial s1|d1 s1].
    + destruct (CanI_loop_cluster_scope dial gvr verbs s1) as (b0 & e1 & e2 & s0 & -> & ->).
      split; intros [=].
    + tauto.
  - intros dial s1 Hd. rewrite CanI_outcome, Hd.
    assert (Hsent : exists ws : list string,
               final (CanI_loop dial ns gvr (makeSAR ns gvr) verbs s1) =
               reviewed dial (map (review_of ns gvr) ws) s1 /\
               forall w, w ∈ ws -> w ∈ verbs).
    { destruct (CanI_loop_spec dial ns gvr verbs s1)
        as [(_ & ->) | (before & v & after & -> & _ & [(_ & ->) | (msg & _ & ->)])].
      - now exists verbs.
      - exists (before ++ [v]). split; [reflexivity|]. apply prefix_then_verb.
      - exists (before ++ [v]). split; [reflexivity|]. apply prefix_then_verb. }
    destruct Hsent as (ws & -> & Hws).
    exists (map (review_of ns gvr) ws). split; [apply history_reviewed|].
    intros sar Hin. apply list_elem_of_fmap in Hin as (w & -> & Hw).
    cbn [review_of ra_Namespace ra_Verb ra_Group ra_Resource ra_Subresource].
    repeat split; try reflexivity; [|now apply Hws].
    destruct (String.eqb ns "-") eqn:Hns; [discriminate|].
    now apply String.eqb_neq.
Qed.

(** ** Cached handles *)

(** X17.  The handles are built once: a call that returns a handle has
    stored it, and the next call returns the same handle without calling any
    collaborator.  A handle built on a call is the one allocated last. *)
Theorem handles_are_built_once (s s1 : APIClient) (h : nat) :
  (DialOrDie s = Returns h s1 ->
   client s1 = Some h /\ DialOrDie s1 = Returns h s1 /\
   (client s = None -> h = next_handle s /\ next_handle s1 = S h)) /\
  (CachedDiscovery s = Returns (Some h, None) s1 ->
   cachedDiscovery s1 = Some h /\ CachedDiscovery s1 = Returns (Some h, None) s1 /\
   (cachedDiscovery s = None -> h = next_handle s /\ next_handle s1 = S h)) /\
  (DynDialOrDie s = Returns (Some h) s1 ->
   dClient s1 = Some h /\ DynDialOrDie s1 = Returns (Some h) s1 /\
   (dClient s = None -> h = next_handle s /\ next_handle s1 = S h)) /\
  (MXDial s = Returns (Some h, None) s1 ->
   mxsClient s1 = Some h /\ MXDial s1 = Returns (Some h, None) s1 /\
   (mxsClient s = None -> h = next_handle s /\ next_handle s1 = S h)).
Proof.
  split; [|split; [|split]].
  - rewrite (DialOrDie_outcome s), (DialOrDie_outcome s1).
    destruct (client s) as [c|] eqn:Hc.
    + intros [= <- <-]. rewrite Hc. now repeat split.
    + destruct (config_RESTConfig (history s)); [|discriminate].
      destruct (kubernetes_NewForConfig (history (configured s))); [|discriminate].
      intros [= <- <-]. now repeat split.
  - rewrite (CachedDiscovery_outcome s), (CachedDiscovery_outcome s1).
    destruct (cachedDiscovery s) as [c|] eqn:Hc.
    + intros [= <- <-]. rewrite Hc. now repeat split.
    + destruct (config_RESTConfig (history s)); [|discriminate].
      destruct (mustHomeDir (history (configured s))); [|discriminate].
      destruct (mustHomeDir (history (called HomeDir (configured s)))); [|discriminate].
      destruct (disk_NewCachedDiscoveryClientForConfig (history (homed s)));
        [|discriminate].
      intros [= <- <-]. now repeat split.
  - rewrite (DynDialOrDie_outcome s), (DynDialOrDie_outcome s1).
    destruct (dClient s) as [c|] eqn:Hc.
    + intros [= <- <-]. rewrite Hc. now repeat split.
    + destruct (config_RESTConfig (history s)); [|discriminate].
      destruct (dynamic_NewForConfig (history (configured s))).
      * intros [= <- <-]. now repeat split.
      * destruct unsent_panic_event_panics; discriminate.
  - rewrite (MXDial_outcome s), (MXDial_outcome s1).
    destruct (mxsClient s) as [c|] eqn:Hc.
    + intros [= <- <-]. rewrite Hc. now repeat split.
    + destruct (config_RESTConfig (history s)); [|discriminate].
      destruct (versioned_NewForConfig (history (configured s))); [|discriminate].
      intros [= <- <-]. now repeat split.
Qed.

(** X18.  A discovery or metrics client whose construction failed is not
    cached: the call returns the error with a nil handle and leaves the field
    nil, so the next call constructs again, starting from the
    configuration.  Neither call ever returns a nil handle without an
    error. *)
Theorem failed_construction_is_retried (s s1 : APIClient) (e : failure) :
  (CachedDiscovery s = Returns (None, Some e) s1 ->
   cachedDiscovery s1 = None /\ e = FailureOf NewDiscovery /\
   history s1 = history s ++ [RESTConfig; HomeDir; HomeDir; NewDiscovery] /\
   exists rest, history (final (CachedDiscovery s1)) = history s1 ++ RESTConfig :: rest) /\
  (MXDial s = Returns (None, Some e) s1 ->
   mxsClient s1 = None /\ e = FailureOf NewMetrics /\
   history s1 = history s ++ [RESTConfig; NewMetrics] /\
   exists rest, history (final (MXDial s1)) = history s1 ++ RESTConfig :: rest) /\
  (forall o oe s2, CachedDiscovery s = Returns (o, oe) s2 ->
     cachedDiscovery s2 = o /\ (o = None <-> oe <> None)) /\
  (forall o oe s2, MXDial s = Returns (o, oe) s2 ->
     mxsClient s2 = o /\ (o = None <-> oe <> None)).
Proof.
  split; [|split; [|split]].
  - rewrite (CachedDiscovery_outcome s).
    destruct (cachedDiscovery s) as [c|]; [discriminate|].
    destruct (config_RESTConfig (history s)); [|discriminate].
    destruct (mustHomeDir (history (configured s))); [|discriminate].
    destruct (mustHomeDir (history (called HomeDir (configured s)))); [|discriminate].
    destruct (disk_NewCachedDiscoveryClientForConfig (history (homed s)));
      [discriminate|].
    intros [= <- <-]. split; [reflexivity|]. split; [reflexivity|]. split.
    + simpl. now rewrite <- !app_assoc.
    + rewrite CachedDiscovery_outcome. cbn [cachedDiscovery set_cachedDiscovery].
      set (s1 := set_cachedDiscovery None _).
      clearbody s1. split_answers; eexists; simpl; rewrite <- ?app_assoc; reflexivity.
  - rewrite (MXDial_outcome s).
    destruct (mxsClient s) as [c|]; [discriminate|].
    destruct (config_RESTConfig (history s)); [|discriminate].
    destruct (versioned_NewForConfig (history (configured s))); [discriminate|].
    intros [= <- <-]. split; [reflexivity|]. split; [reflexivity|]. split.
    + simpl. now rewrite <- !app_assoc.
    + rewrite MXDial_outcome. cbn [mxsClient set_mxsClient].
      set (s1 := set_mxsClient None _).
      clearbody s1. split_answers; eexists; simpl; rewrite <- ?app_assoc; reflexivity.
  - intros o oe s2. rewrite CachedDiscovery_outcome.
    destruct (cachedDiscovery s) as [c|] eqn:Hc.
    + intros [= <- <- <-]. split; [exact Hc|]. split; [discriminate | congruence].
    + destruct (config_RESTConfig (history s)); [|discriminate].
      destruct (mustHomeDir (history (configured s))); [|discriminate].
      destruct (mustHomeDir (history (called HomeDir (configured s)))); [|discriminate].
      destruct (disk_NewCachedDiscoveryClientForConfig (history (homed s)));
        intros [= <- <- <-]; (split; [reflexivity|]);
        (split; [try discriminate; congruence | try discriminate; congruence]).
  - intros o oe s2. rewrite MXDial_outcome.
    destruct (mxsClient s) as [c|] eqn:Hc.
    + intros [= <- <- <-]. split; [exact Hc|]. split; [discriminate | congruence].
    + destruct (config_RESTConfig (history s)); [|discriminate].
      destruct (versioned_NewForConfig (history (configured s)));
        intros [= <- <- <-]; (split; [reflexivity|]);
        (split; [try discriminate; congruence | try discriminate; congruence]).
Qed.

(** ** Discovery queries *)

Lemma supportsMxServer_outcome (s : APIClient) :
  supportsMxServer s =
  match CachedDiscovery s with
  | Returns (Some disc, None) s1 =>
      Returns match discovery_ServerGroups (history s1) disc with
              | Some groups => supportsMxServer_loop groups
              | None => false
              end (called (ServerGroups disc) s1)
  | Returns (None, None) s1 => Dies NilPointer s1
  | Returns (_, Some _) s1 => Returns false s1
  | Dies d s1 => Dies d s1
  end.
Proof.
  unfold supportsMxServer, bind.
  destruct (CachedDiscovery s) as [[[disc|] [e|]] s1|d s1]; try reflexivity.
  unfold ask, ret. now destruct (discovery_ServerGroups (history s1) disc).
Qed.

Lemma is_supported_spec (version : string) (supported : list string) :
  is_supported version supported = true <-> version ∈ supported.
Proof.
  induction supported as [|v supported IH]; simpl.
  - split; [discriminate | inversion 1].
  - destruct (String.eqb version v) eqn:Hv.
    + apply String.eqb_eq in Hv as ->. split; [left | reflexivity].
    + apply String.eqb_neq in Hv. rewrite IH. split; [now right|].
      intros Hin. apply elem_of_cons in Hin as [Heq | Hin]; [congruence | exact Hin].
Qed.

Lemma checkMetricsVersion_spec (grp : APIGroup) :
  checkMetricsVersion grp = true <->
  exists v, v ∈ grp_Versions grp /\ gv_Version v = "v1beta1".
Proof.
  unfold checkMetricsVersion. induction (grp_Versions grp) as [|v vs IH]; simpl.
  - split; [discriminate | intros (v & Hin & _); inversion Hin].
  - destruct (String.eqb (gv_Version v) "v1beta1") eqn:Hv.
    + apply String.eqb_eq in Hv. split; [|reflexivity]. intros _. exists v. split; [left | exact Hv].
    + apply String.eqb_neq in Hv. rewrite IH. split.
      * intros (w & Hin & Hw). exists w. split; [now right | exact Hw].
      * intros (w & Hin & Hw). apply elem_of_cons in Hin as [-> | Hin]; [congruence|].
        now exists w.
Qed.

(** X19.  [supportsMxServer] answers [true] exactly when the discovery client
    is had, it lists the groups, and some group of the metrics name lists the
    version ["v1beta1"]; a metrics group without that version does not end
    the search.  It answers [false] when the discovery client cannot be
    built. *)
Theorem supportsMxServer_finds_metrics (s s1 : APIClient) :
  (forall groups,
      supportsMxServer_loop groups = true <->
      exists grp, grp ∈ groups /\ grp_Name grp = metrics_GroupName /\
                  exists v, v ∈ grp_Versions grp /\ gv_Version v = "v1beta1") /\
  (supportsMxServer s = Returns true s1 <->
   exists s0 disc groups,
     CachedDiscovery s = Returns (Some disc, None) s0 /\
     s1 = called (ServerGroups disc) s0 /\
     discovery_ServerGroups (history s0) disc = Some groups /\
     supportsMxServer_loop groups = true) /\
  (forall e s0, CachedDiscovery s = Returns (None, Some e) s0 ->
     supportsMxServer s = Returns false s0).
Proof.
  assert (Hloop : forall groups,
      supportsMxServer_loop groups = true <->
      exists grp, grp ∈ groups /\ grp_Name grp = metrics_GroupName /\
                  exists v, v ∈ grp_Versions grp /\ gv_Version v = "v1beta1").
  { induction groups as [|grp groups IH]; simpl.
    - split; [discriminate | intros (g & Hin & _); inversion Hin].
    - assert (Htail : (exists g, g ∈ groups /\ grp_Name g = metrics_GroupName /\
                         exists v, v ∈ grp_Versions g /\ gv_Version v = "v1beta1") ->
                      exists g, g ∈ grp :: groups /\ grp_Name g = metrics_GroupName /\
                         exists v, v ∈ grp_Versions g /\ gv_Version v = "v1beta1").
      { intros (g & Hin & Hg). exists g. split; [now right | exact Hg]. }
      destruct (String.eqb (grp_Name grp) metrics_GroupName) eqn:Hname; simpl.
      + apply String.eqb_eq in Hname.
        destruct (checkMetricsVersion grp) eqn:Hcheck.
        * split; [|reflexivity]. intros _. exists grp. split; [left|]. split; [exact Hname|].
          now apply checkMetricsVersion_spec.
        * rewrite IH. split; [exact Htail|].
          intros (g & Hin & Hg & Hv). apply elem_of_cons in Hin as [-> | Hin]; [|now exists g].
          apply checkMetricsVersion_spec in Hv. congruence.
      + apply String.eqb_neq in Hname. rewrite IH. split; [exact Htail|].
        intros (g & Hin & Hg & Hv). apply elem_of_cons in Hin as [-> | Hin]; [congruence|].
        now exists g. }
  split; [exact Hloop|]. split.
  - rewrite supportsMxServer_outcome.
    destruct (CachedDiscovery s) as [[[disc|] [e|]] s0|d s0].
    + split; [discriminate | now intros (? & ? & ? & [=] & _)].
    + split.
      * destruct (discovery_ServerGroups (history s0) disc) as [groups|] eqn:Hgroups;
          [|discriminate]. intros [= Hmx <-]. now exists s0, disc, groups.
      * intros (s0' & disc' & groups & [= <- <-] & -> & -> & ->). reflexivity.
    + split; [discriminate | now intros (? & ? & ? & [=] & _)].
    + split; [discriminate | now intros (? & ? & ? & [=] & _)].
    + split; [discriminate | now intros (? & ? & ? & [=] & _)].
  - intros e s0 Hd. now rewrite supportsMxServer_outcome, Hd.
Qed.

Lemma SupportsRes_loop_outcome (group : string) (groups : list APIGroup) (s : APIClient) :
  SupportsRes_loop group groups s =
  match List.find (fun grp => String.eqb (grp_Name grp) group) groups with
  | None => Returns (EmptyString, false, None) s
  | Some grp =>
      match last (grp_Versions grp) with
      | Some v => Returns (gv_Version v, true, None) s
      | None => Dies (IndexPanic (-1) 0) s
      end
  end.
Proof.
  induction groups as [|grp groups IH]; simpl; [reflexivity|].
  destruct (String.eqb (grp_Name grp) group); simpl; [|exact IH].
  rewrite last_lookup. destruct (grp_Versions grp) as [|v vs]; [reflexivity|].
  cbn [length]. destruct (Z.ltb_spec (Z.of_nat (S (length vs)) - 1) 0) as [Hlt|_]; [lia|].
  replace (Z.to_nat (Z.of_nat (S (length vs)) - 1)) with (pred (S (length vs))) by lia.
  destruct ((v :: vs) !! pred (S (length vs))) as [w|] eqn:Hw; [reflexivity|].
  apply lookup_ge_None in Hw. simpl in Hw. lia.
Qed.

(** X20.  [SupportsRes] answers with the last version listed by the first
    group of the given name, whatever [versions] it is handed; it answers
    [("", false, nil)] when no group has the name, panics on the index when
    that first group lists no version, and hands back the error when the
    discovery client cannot be built or the groups cannot be listed. *)
Theorem SupportsRes_first_group_last_version (group : string) (versions : list string)
    (s s0 : APIClient) :
  (forall disc groups,
      CachedDiscovery s = Returns (Some disc, None) s0 ->
      discovery_ServerGroups (history s0) disc = Some groups ->
      SupportsRes group versions s =
      match List.find (fun grp => String.eqb (grp_Name grp) group) groups with
      | None => Returns (EmptyString, false, None) (called (ServerGroups disc) s0)
      | Some grp =>
          match last (grp_Versions grp) with
          | Some v => Returns (gv_Version v, true, None) (called (ServerGroups disc) s0)
          | None => Dies (IndexPanic (-1) 0) (called (ServerGroups disc) s0)
          end
      end) /\
  (forall disc,
      CachedDiscovery s = Returns (Some disc, None) s0 ->
      discovery_ServerGroups (history s0) disc = None ->
      SupportsRes group versions s =
      Returns (EmptyString, false, Some (FailureOf (ServerGroups disc)))
              (called (ServerGroups disc) s0)) /\
  (forall e,
      CachedDiscovery s = Returns (None, Some e) s0 ->
      SupportsRes group versions s = Returns (EmptyString, false, Some e) s0).
Proof.
  split; [|split].
  - intros disc groups Hd Hg. unfold SupportsRes. unfold bind at 1. rewrite Hd.
    unfold bind, ask. rewrite Hg. apply SupportsRes_loop_outcome.
  - intros disc Hd Hg. unfold SupportsRes. unfold bind at 1. rewrite Hd.
    unfold bind, ask. now rewrite Hg.
  - intros e Hd. unfold SupportsRes, bind. now rewrite Hd.
Qed.

Lemma find_app {A} (p : A -> bool) (l l' : list A) :
  List.find p (l ++ l') =
  match List.find p l with
  | Some x => Some x
  | None => List.find p l'
  end.
Proof. induction l as [|x l IH]; simpl; [reflexivity|]. now destruct (p x). Qed.

Lemma IsNamespaced_resources_outcome (res : string) (rs : list APIResource) :
  IsNamespaced_resources res rs =
  ar_Namespaced <$> List.find (fun r => String.eqb (ar_Name r) res) rs.
Proof.
  induction rs as [|r rs IH]; simpl; [reflexivity|].
  now destruct (String.eqb (ar_Name r) res).
Qed.

Lemma IsNamespaced_loop_outcome (res : string) (lists : list APIResourceList) :
  IsNamespaced_loop res lists =
  match List.find (fun r => String.eqb (ar_Name r) res)
                  (concat (map rl_APIResources lists)) with
  | Some r => ar_Namespaced r
  | None => false
  end.
Proof.
  induction lists as [|l lists IH]; simpl; [reflexivity|].
  rewrite find_app, IsNamespaced_resources_outcome.
  now destruct (List.find _ (rl_APIResources l)).
Qed.

(** X21.  [IsNamespaced] answers with the [Namespaced] flag of the first
    resource of the given name in the preferred resources, read list after
    list, whichever group lists it, and [false] when none has the name.  It
    reads the lists also when they came with an error, and answers [false]
    when the discovery client cannot be built. *)
Theorem IsNamespaced_first_resource (res : string) (s s0 : APIClient) :
  (forall disc,
      CachedDiscovery s = Returns (Some disc, None) s0 ->
      IsNamespaced res s =
      Returns match List.find (fun r => String.eqb (ar_Name r) res)
                    (concat (map rl_APIResources
                               (discovery_ServerPreferredResources (history s0) disc).1)) with
              | Some r => ar_Namespaced r
              | None => false
              end (called (ServerPreferredResources disc) s0)) /\
  (forall e,
      CachedDiscovery s = Returns (None, Some e) s0 ->
      IsNamespaced res s = Returns false s0).
Proof.
  split.
  - intros disc Hd. unfold IsNamespaced. unfold bind at 1. rewrite Hd.
    unfold bind, ask, ret. now rewrite IsNamespaced_loop_outcome.
  - intros e Hd. unfold IsNamespaced, bind. now rewrite Hd.
Qed.

Lemma SupportsResource_loop_spec (group : string) (lists : list APIResourceList) :
  SupportsResource_loop group lists = true <->
  exists l, l ∈ lists /\ rl_GroupVersion l = group.
Proof.
  induction lists as [|l lists IH]; simpl.
  - split; [discriminate | intros (l & Hin & _); inversion Hin].
  - destruct (String.eqb (rl_GroupVersion l) group) eqn:Hl.
    + apply String.eqb_eq in Hl. split; [|reflexivity]. intros _. exists l. split; [left | exact Hl].
    + apply String.eqb_neq in Hl. rewrite IH. split.
      * intros (l' & Hin & Hl'). exists l'. split; [now right | exact Hl'].
      * intros (l' & Hin & Hl'). apply elem_of_cons in Hin as [-> | Hin]; [congruence|].
        now exists l'.
Qed.

(** X22.  [SupportsResource] answers [true] exactly when the discovery
    client is had, the preferred resources are listed without an error, and
    one of the lists has the given group version.  Lists that come with an
    error are not read: the answer is [false]. *)
Theorem SupportsResource_needs_a_clean_listing (group : string) (s s1 : APIClient) :
  (SupportsResource group s = Returns true s1 <->
   exists s0 disc,
     CachedDiscovery s = Returns (Some disc, None) s0 /\
     s1 = called (ServerPreferredResources disc) s0 /\
     (discovery_ServerPreferredResources (history s0) disc).2 = false /\
     exists l, l ∈ (discovery_ServerPreferredResources (history s0) disc).1 /\
               rl_GroupVersion l = group) /\
  (forall disc s0,
      CachedDiscovery s = Returns (Some disc, None) s0 ->
      (discovery_ServerPreferredResources (history s0) disc).2 = true ->
      SupportsResource group s = Returns false (called (ServerPreferredResources disc) s0)).
Proof.
  split.
  - unfold SupportsResource. unfold bind at 1.
    destruct (CachedDiscovery s) as [[[disc|] [e|]] s0|d s0];
      try (split; [discriminate | now intros (? & ? & [=] & _)]).
    unfold bind, ask, ret.
    destruct (discovery_ServerPreferredResources (history s0) disc) as [lists err] eqn:Ha.
    cbn [fst snd]. destruct err.
    + split; [discriminate|]. intros (s0' & disc' & [= <- <-] & _ & Herr & _).
      rewrite Ha in Herr. discriminate.
    + split.
      * intros [= Hloop <-]. exists s0, disc. rewrite Ha.
        repeat split. now apply SupportsResource_loop_spec.
      * intros (s0' & disc' & [= <- <-] & -> & _ & Hl). rewrite Ha in Hl.
        apply SupportsResource_loop_spec in Hl. cbn [fst] in Hl. now rewrite Hl.
  - intros disc s0 Hd Herr. unfold SupportsResource. unfold bind at 1. rewrite Hd.
    unfold bind, ask, ret. now rewrite Herr.
Qed.

(** ** Switching the context *)

Lemma SwitchContextOrDie_outcome (ctx : string) (s : APIClient) :
  SwitchContextOrDie ctx s =
  match config_CurrentContextName (history s) with
  | None => Dies FatalExit (called CurrentContextName s)
  | Some currentCtx =>
      if String.eqb currentCtx ctx then Returns tt (called CurrentContextName s)
      else if config_SwitchContext (history (called CurrentContextName s)) ctx then
        match supportsMxServer (switching ctx s) with
        | Returns mx s2 => Returns tt (set_useMetricServer mx s2)
        | Dies d s2 => Dies d s2
        end
      else Dies FatalExit (switching ctx s)
  end.
Proof.
  unfold SwitchContextOrDie. unfold bind at 1. unfold ask at 1.
  destruct (config_CurrentContextName (history s)) as [cur|]; [|reflexivity].
  destruct (String.eqb cur ctx); [reflexivity|]. cbn [negb].
  unfold bind at 1 2 3, modify at 1, reset, modify at 1, ask at 1.
  cbn [history called set_cachedDiscovery cachedDiscovery useMetricServer next_handle].
  destruct (config_SwitchContext (history s ++ [CurrentContextName]) ctx); reflexivity.
Qed.

(** On a client without a discovery client, [supportsMxServer] first builds
    one, from the configuration. *)
Lemma supportsMxServer_rebuilds (s s1 : APIClient) (mx : bool) :
  cachedDiscovery s = None ->
  supportsMxServer s = Returns mx s1 ->
  client s1 = client s /\ dClient s1 = dClient s /\ nsClient s1 = nsClient s /\
  mxsClient s1 = mxsClient s /\
  (cachedDiscovery s1 = None /\ mx = false \/ cachedDiscovery s1 = Some (next_handle s)) /\
  (next_handle s <= next_handle s1)%nat /\
  exists rest, history s1 = history s ++ RESTConfig :: rest.
Proof.
  intros Hnone. rewrite supportsMxServer_outcome, CachedDiscovery_outcome, Hnone.
  destruct (config_RESTConfig (history s)); [|discriminate].
  destruct (mustHomeDir (history (configured s))); [|discriminate].
  destruct (mustHomeDir (history (called HomeDir (configured s)))); [|discriminate].
  destruct (disk_NewCachedDiscoveryClientForConfig (history (homed s)));
    intros [= <- <-]; simpl; repeat split; auto; try lia;
    eexists; rewrite <- ?app_assoc; reflexivity.
Qed.

(** X23.  [SwitchContextOrDie] to the context that the [Config] names as
    current changes nothing and does not ask for a switch.  To another
    context, when it returns, it has dropped every handle before asking the
    [Config] to switch, and afterwards holds at most a discovery client built
    after the switch, from which [useMetricServer] was computed anew.  When
    the current context cannot be named, or the switch is refused, the
    process exits. *)
Theorem SwitchContextOrDie_drops_the_handles (ctx : string) (s : APIClient) :
  (config_CurrentContextName (history s) = Some ctx ->
   SwitchContextOrDie ctx s = Returns tt (called CurrentContextName s)) /\
  (forall cur s1,
      config_CurrentContextName (history s) = Some cur -> cur <> ctx ->
      SwitchContextOrDie ctx s = Returns tt s1 ->
      client s1 = None /\ dClient s1 = None /\ nsClient s1 = None /\
      mxsClient s1 = None /\
      (cachedDiscovery s1 = None /\ useMetricServer s1 = false \/
       cachedDiscovery s1 = Some (next_handle s)) /\
      (exists rest,
          history s1 =
          history s ++ CurrentContextName :: SwitchContext ctx :: RESTConfig :: rest) /\
      exists s2, supportsMxServer (switching ctx s) = Returns (useMetricServer s1) s2) /\
  (config_CurrentContextName (history s) = None ->
   SwitchContextOrDie ctx s = Dies FatalExit (called CurrentContextName s)) /\
  (forall cur,
      config_CurrentContextName (history s) = Some cur -> cur <> ctx ->
      config_SwitchContext (history s ++ [CurrentContextName]) ctx = false ->
      SwitchContextOrDie ctx s = Dies FatalExit (switching ctx s)).
Proof.
  split; [|split; [|split]].
  - intros Hcur. rewrite SwitchContextOrDie_outcome, Hcur. now rewrite String.eqb_refl.
  - intros cur s1 Hcur Hne. rewrite SwitchContextOrDie_outcome, Hcur.
    rewrite (proj2 (String.eqb_neq _ _) Hne).
    destruct (config_SwitchContext _ ctx); [|discriminate].
    destruct (supportsMxServer (switching ctx s)) as [mx s2|d s2] eqn:Hmx; [|discriminate].
    intros [= <-].
    destruct (supportsMxServer_rebuilds (switching ctx s) s2 mx eq_refl Hmx)
      as (Hc & Hd & Hn & Hm & Hdisc & _ & rest & Hhist).
    unfold switching in Hc, Hd, Hn, Hm, Hdisc, Hhist.
    cbn [client dClient nsClient mxsClient next_handle history called dropped]
      in Hc, Hd, Hn, Hm, Hdisc, Hhist.
    cbn [client dClient nsClient mxsClient cachedDiscovery useMetricServer
         set_useMetricServer history].
    rewrite Hc, Hd, Hn, Hm. repeat split.
    + destruct Hdisc as [[-> ->] | ->]; [now left | now right].
    + exists rest. rewrite Hhist. simpl. now rewrite <- !app_assoc.
    + now exists s2.
  - intros Hcur. now rewrite SwitchContextOrDie_outcome, Hcur.
  - intros cur Hcur Hne Hrefused. rewrite SwitchContextOrDie_outcome, Hcur.
    rewrite (proj2 (String.eqb_neq _ _) Hne). simpl. now rewrite Hrefused.
Qed.

(** ** Handles are allocated once *)

Lemma handles_allocated_fields (s : APIClient) :
  handles_allocated s <->
  forall x,
    client s = Some x \/ dClient s = Some x \/ nsClient s = Some x \/
    mxsClient s = Some x \/ cachedDiscovery s = Some x ->
    (x < next_handle s)%nat.
Proof.
  unfold handles_allocated, handles. split; intros Hall x Hx; apply Hall.
  - rewrite !elem_of_cons. destruct Hx as [-> | [-> | [-> | [-> | ->]]]]; auto 10.
  - rewrite !elem_of_cons in Hx.
    destruct Hx as [<- | [<- | [<- | [<- | [<- | Hx]]]]]; auto 10. inversion Hx.
Qed.

Ltac allocated_fields :=
  match goal with
  | Hall : handles_allocated ?s |- _ =>
      rewrite handles_allocated_fields in Hall;
      split; [|simpl; lia];
      apply handles_allocated_fields; simpl; intros x Hx;
      destruct Hx as [Hx | [Hx | [Hx | [Hx | Hx]]]];
      try discriminate; try (injection Hx as <-; lia);
      (assert (x < next_handle s)%nat by (apply Hall; auto 10)); lia
  end.

Lemma DialOrDie_grown (s s1 : APIClient) (h : nat) :
  handles_allocated s -> DialOrDie s = Returns h s1 -> grown s s1.
Proof.
  intros Hall. rewrite DialOrDie_outcome. destruct (client s); [intros [= <- <-]; now split|].
  split_answers; try discriminate. intros [= <- <-]. unfold grown. allocated_fields.
Qed.

Lemma CachedDiscovery_grown (s s1 : APIClient) (r : option nat * option failure) :
  handles_allocated s -> CachedDiscovery s = Returns r s1 -> grown s s1.
Proof.
  intros Hall. rewrite CachedDiscovery_outcome.
  destruct (cachedDiscovery s); [intros [= <- <-]; now split|].
  split_answers; try discriminate; intros [= <- <-]; unfold grown; allocated_fields.
Qed.

Lemma DynDialOrDie_grown (s s1 : APIClient) (r : option nat) :
  handles_allocated s -> DynDialOrDie s = Returns r s1 -> grown s s1.
Proof.
  intros Hall. rewrite DynDialOrDie_outcome.
  destruct (dClient s); [intros [= <- <-]; now split|].
  split_answers; try discriminate; intros [= <- <-]; unfold grown; allocated_fields.
Qed.

Lemma MXDial_grown (s s1 : APIClient) (r : option nat * option failure) :
  handles_allocated s -> MXDial s = Returns r s1 -> grown s s1.
Proof.
  intros Hall. rewrite MXDial_outcome.
  destruct (mxsClient s); [intros [= <- <-]; now split|].
  split_answers; try discriminate; intros [= <- <-]; unfold grown; allocated_fields.
Qed.

Lemma called_grown (c : call) (s s1 : APIClient) : grown s s1 -> grown s (called c s1).
Proof. now intros [Hall Hle]. Qed.

Lemma supportsMxServer_grown (s s1 : APIClient) (mx : bool) :
  handles_allocated s -> supportsMxServer s = Returns mx s1 -> grown s s1.
Proof.
  intros Hall. rewrite supportsMxServer_outcome.
  destruct (CachedDiscovery s) as [[[disc|] [e|]] s0|d s0] eqn:Hd; try discriminate;
    intros [= <- <-]; try apply called_grown; exact (CachedDiscovery_grown _ _ _ Hall Hd).
Qed.

Lemma reviewed_grown (dial : nat) (sent : list ResourceAttributes) (s s1 : APIClient) :
  grown s s1 -> grown s (reviewed dial sent s1).
Proof.
  revert s1. induction sent as [|sar sent IH]; intros s1 Hg; [exact Hg|].
  apply (IH (called (CreateReview dial sar) s1)). now apply called_grown.
Qed.

Lemma CanI_grown (ns gvr : string) (verbs : list string) (s s1 : APIClient)
    (r : bool * option error) :
  handles_allocated s -> CanI ns gvr verbs s = Returns r s1 -> grown s s1.
Proof.
  intros Hall. rewrite CanI_outcome.
  destruct (DialOrDie s) as [dial s0|d s0] eqn:Hd; [|discriminate].
  pose proof (DialOrDie_grown _ _ _ Hall Hd) as Hg.
  destruct (CanI_loop_spec dial ns gvr verbs s0)
    as [(_ & ->) | (before & v & after & _ & _ & [(_ & ->) | (msg & _ & ->)])];
    intros [= _ <-]; now apply reviewed_grown.
Qed.

Lemma run_grown (o : op) (s s1 : APIClient) :
  handles_allocated s -> run o s = Returns tt s1 -> grown s s1.
Proof.
  intros Hall.
  destruct o as [ns gvr verbs| | | | | |ctx| |group versions|res|group]; cbn [run].
  - unfold bind at 1. destruct (CanI ns gvr verbs s) as [r s0|d s0] eqn:Hc; [|discriminate].
    intros [= <-]. exact (CanI_grown _ _ _ _ _ _ Hall Hc).
  - unfold bind at 1. destruct (DialOrDie s) as [h s0|d s0] eqn:Hd; [|discriminate].
    intros [= <-]. exact (DialOrDie_grown _ _ _ Hall Hd).
  - unfold RestConfigOrDie, bind, ask, ret, die.
    destruct (config_RESTConfig (history s)); [|discriminate]. intros [= <-]. now split.
  - unfold bind at 1. destruct (CachedDiscovery s) as [r s0|d s0] eqn:Hd; [|discriminate].
    intros [= <-]. exact (CachedDiscovery_grown _ _ _ Hall Hd).
  - unfold bind at 1. destruct (DynDialOrDie s) as [r s0|d s0] eqn:Hd; [|discriminate].
    intros [= <-]. exact (DynDialOrDie_grown _ _ _ Hall Hd).
  - unfold bind at 1. destruct (MXDial s) as [r s0|d s0] eqn:Hd; [|discriminate].
    intros [= <-]. exact (MXDial_grown _ _ _ Hall Hd).
  - rewrite SwitchContextOrDie_outcome.
    destruct (config_CurrentContextName (history s)) as [cur|]; [|discriminate].
    destruct (String.eqb cur ctx); [intros [= <-]; now split|].
    destruct (config_SwitchContext _ ctx); [|discriminate].
    destruct (supportsMxServer (switching ctx s)) as [mx s2|d s2] eqn:Hmx; [|discriminate].
    intros [= <-].
    assert (Hdropped : handles_allocated (switching ctx s)).
    { apply handles_allocated_fields. simpl. intros x [Hx|[Hx|[Hx|[Hx|Hx]]]]; discriminate. }
    destruct (supportsMxServer_grown _ _ _ Hdropped Hmx) as [Hall2 Hle]. now split.
  - unfold HasMetrics, bind, gets, ret. intros [= <-]. now split.
  - unfold SupportsRes. unfold bind at 1 2.
    destruct (CachedDiscovery s) as [[[disc|] [e|]] s0|d s0] eqn:Hd; try discriminate.
    + unfold ret. intros [= <-]. exact (CachedDiscovery_grown _ _ _ Hall Hd).
    + unfold bind, ask. destruct (discovery_ServerGroups (history s0) disc) as [groups|].
      * rewrite SupportsRes_loop_outcome.
        destruct (List.find _ groups) as [grp|];
          [destruct (last (grp_Versions grp)); [|discriminate]|];
          unfold ret; intros [= <-]; apply called_grown;
          exact (CachedDiscovery_grown _ _ _ Hall Hd).
      * unfold ret. intros [= <-]. apply called_grown.
        exact (CachedDiscovery_grown _ _ _ Hall Hd).
    + unfold ret. intros [= <-]. exact (CachedDiscovery_grown _ _ _ Hall Hd).
  - unfold IsNamespaced. unfold bind at 1 2.
    destruct (CachedDiscovery s) as [[[disc|] [e|]] s0|d s0] eqn:Hd; try discriminate;
      unfold bind, ask, ret; intros [= <-]; try apply called_grown;
      exact (CachedDiscovery_grown _ _ _ Hall Hd).
  - unfold SupportsResource. unfold bind at 1 2.
    destruct (CachedDiscovery s) as [[[disc|] [e|]] s0|d s0] eqn:Hd; try discriminate;
      unfold bind, ask, ret;
      try destruct ((discovery_ServerPreferredResources (history s0) disc).2);
      intros [= <-]; try apply called_grown;
      exact (CachedDiscovery_grown _ _ _ Hall Hd).
Qed.

Lemma reachable_client_allocated (s : APIClient) :
  reachable_client s -> handles_allocated s.
Proof.
  induction 1 as [s Hinit | o s s1 _ IH Hrun].
  - unfold InitConnectionOrDie, bind in Hinit.
    destruct (supportsMxServer empty_client) as [mx s0|d s0] eqn:Hmx; [|discriminate].
    injection Hinit as <-.
    assert (Hempty : handles_allocated empty_client).
    { apply handles_allocated_fields. simpl. intros x [Hx|[Hx|[Hx|[Hx|Hx]]]]; discriminate. }
    now destruct (supportsMxServer_grown _ _ _ Hempty Hmx).
  - now destruct (run_grown _ _ _ IH Hrun).
Qed.

(** X24.  No handle outlives a context switch: after a returning
    [SwitchContextOrDie] to another context, no handle that the client held
    before is held any more, and the clientset, the dynamic client and the
    metrics client that the next calls return are built anew, after the
    switch. *)
Theorem no_handle_outlives_a_switch (ctx cur : string) (s s1 : APIClient) :
  reachable_client s ->
  config_CurrentContextName (history s) = Some cur ->
  cur <> ctx ->
  SwitchContextOrDie ctx s = Returns tt s1 ->
  (forall x, Some x ∈ handles s1 -> Some x ∉ handles s) /\
  (forall h s2, DialOrDie s1 = Returns h s2 ->
     (Some h ∉ handles s) /\ history s2 = history s1 ++ [RESTConfig; NewClientset]) /\
  (forall h s2, DynDialOrDie s1 = Returns (Some h) s2 ->
     (Some h ∉ handles s) /\ history s2 = history s1 ++ [RESTConfig; NewDynamic]) /\
  (forall h e s2, MXDial s1 = Returns (Some h, e) s2 ->
     (Some h ∉ handles s) /\ history s2 = history s1 ++ [RESTConfig; NewMetrics]).
Proof.
  intros Hreach Hcur Hne. pose proof (reachable_client_allocated s Hreach) as Hall.
  rewrite SwitchContextOrDie_outcome, Hcur, (proj2 (String.eqb_neq _ _) Hne).
  destruct (config_SwitchContext _ ctx); [|discriminate].
  destruct (supportsMxServer (switching ctx s)) as [mx s2|d s2] eqn:Hmx; [|discriminate].
  intros [= <-].
  destruct (supportsMxServer_rebuilds (switching ctx s) s2 mx eq_refl Hmx)
    as (Hc & Hd & Hn & Hm & Hdisc & Hle & _).
  unfold switching in Hc, Hd, Hn, Hm, Hdisc, Hle.
  cbn [client dClient nsClient mxsClient next_handle history called dropped]
    in Hc, Hd, Hn, Hm, Hdisc, Hle.
  assert (Hnew : forall x, (next_handle s <= x)%nat -> Some x ∉ handles s).
  { intros x Hx Hin. apply Hall in Hin. lia. }
  split; [|split; [|split]].
  - intros x Hin. apply Hnew. unfold handles in Hin.
    cbn [client dClient nsClient mxsClient cachedDiscovery set_useMetricServer] in Hin.
    rewrite Hc, Hd, Hn, Hm in Hin. rewrite !elem_of_cons in Hin.
    destruct Hin as [Hx|[Hx|[Hx|[Hx|[Hx|Hx]]]]]; try discriminate; [|inversion Hx].
    destruct Hdisc as [[Hnone _] | Hsome]; [congruence|].
    rewrite Hsome in Hx. injection Hx as ->. lia.
  - intros h s3. rewrite DialOrDie_outcome.
    cbn [client set_useMetricServer history next_handle]. rewrite Hc.
    split_answers; try discriminate. intros [= <- <-].
    split; [apply Hnew; lia | simpl; now rewrite <- app_assoc].
  - intros h s3. rewrite DynDialOrDie_outcome.
    cbn [dClient set_useMetricServer history next_handle]. rewrite Hd.
    split_answers; try discriminate. intros [= <- <-].
    split; [apply Hnew; lia | simpl; now rewrite <- app_assoc].
  - intros h e s3. rewrite MXDial_outcome.
    cbn [mxsClient set_useMetricServer history next_handle]. rewrite Hm.
    split_answers; try discriminate. intros [= <- <- <-].
    split; [apply Hnew; lia | simpl; now rewrite <- app_assoc].
Qed.

End ClientConnProofs.

(** * [render.Alias] *)

Section RenderProofs.
Context `{Render.GVRAccessors}.
Import Render.

Lemma Split_cons_sep (a r : string) (c : ascii) :
  has_byte a c = false -> Split (a +:+ String c r) c = a :: Split r c.
Proof.
  induction a as [|x a IH]; intros Hb.
  - rewrite append_nil. simpl. now rewrite Ascii.eqb_refl.
  - simpl in Hb. apply orb_false_iff in Hb as [Hx Ha].
    rewrite append_cons. simpl. now rewrite Hx, (IH Ha).
Qed.

Lemma Split_Join (elems : list string) :
  elems <> [] ->
  Forall (fun a => has_byte a ","%char = false) elems ->
  Split (Join elems ",") ","%char = elems.
Proof.
  induction elems as [|a [|b rest] IH]; intros Hne Hall; [congruence| |].
  - simpl. apply Split_absent. now inversion Hall.
  - inversion Hall as [|? ? Ha Hrest]; subst.
    change (Join (a :: b :: rest) ",") with (a +:+ String ","%char (Join (b :: rest) ",")).
    rewrite (Split_cons_sep _ _ _ Ha). f_equal. now apply IH.
Qed.

(** X25.  [Alias.Render] of a value that is no [AliasRes] leaves the row as
    it is and returns the error naming the value's type.  Of an [AliasRes] it
    sets the row's ID to the identifier it is handed (not the one in the
    value) and appends three fields to those the row already has, one per
    header column: the second result of [ToRAndG], the aliases joined by
    commas, and the first result of [ToRAndG].  The commas split the joined
    field back into the aliases when there is an alias and none holds a
    comma. *)
Theorem Render_appends_a_field_per_header (o : object) (gvr ns : string) (r : Row) :
  (forall type_name, o = OtherValue type_name ->
     Render o gvr r = (r, Some (ExpectedAliasRes type_name))) /\
  (forall a, o = AliasResValue a ->
     (Render o gvr r).2 = None /\
     ID (Render o gvr r).1 = gvr /\
     Fields (Render o gvr r).1 =
       Fields r ++ [(ToRAndG (res_GVR a)).2; Join (Aliases a) ","; (ToRAndG (res_GVR a)).1] /\
     length (Fields (Render o gvr r).1) = (length (Fields r) + length (Header ns))%nat /\
     (Aliases a <> [] ->
      Forall (fun alias => has_byte alias ","%char = false) (Aliases a) ->
      exists command, Fields (Render o gvr r).1 !! S (length (Fields r)) = Some command /\
                      Split command ","%char = Aliases a)).
Proof.
  split.
  - now intros type_name ->.
  - intros a ->. unfold Render. destruct (ToRAndG (res_GVR a)) as [grp res] eqn:Hrg.
    cbn [fst snd ID Fields]. repeat split.
    + rewrite length_app. reflexivity.
    + intros Hne Hall. exists (Join (Aliases a) ","). split; [|now apply Split_Join].
      rewrite lookup_app_r by lia.
      now replace (S (length (Fields r)) - length (Fields r))%nat with 1%nat by lia.
Qed.

End RenderProofs.

(** ** The further theorems at work *)

Lemma reachable_scope_map_witness :
  exists f : Factory,
    @SetActive open_connection plain_informers "default" NewFactory = Done tt f /\
    (size (factories f) <= 2)%nat /\
    is_Some (factories f !! allNamespaces).
Proof.
  eexists. split; [vm_compute; reflexivity|].
  destruct (@reachable_scope_map open_connection plain_informers
              (set_activeNS "default" (created_scoped "default" NewFactory)))
    as (Hsize & Hall & _).
  - apply (reach_done (CallSetActive "default") NewFactory tt);
      [apply reach_new | vm_compute; reflexivity].
  - split; [exact Hsize|]. apply (Hall "default"). vm_compute. eauto.
Defined.

Lemma SetActive_makes_cluster_wide_witness :
  exists f' : Factory,
    @SetActive open_connection plain_informers "kube-system" NewFactory = Done tt f' /\
    activeNS f' = "kube-system" /\
    is_Some (factories f' !! allNamespaces).
Proof.
  destruct (@SetActive_makes_cluster_wide open_connection plain_informers
              "kube-system" NewFactory reach_new) as [Hret Hdone].
  destruct (Hdone eq_refl) as [f' Hrun]. exists f'. split; [exact Hrun|].
  destruct (Hret f' Hrun) as (Hns & Hcw & _). now split.
Defined.

Lemma ensureFactory_after_Terminate_witness :
  exists (f1 f2 : Factory) (es : list event),
    @Terminate NewFactory = Done tt f1 /\
    @ensureFactory open_connection plain_informers "default" f1 = Done (Some 0%nat) f2 /\
    trace f2 = trace f1 ++ es /\
    stopChan f2 = None /\
    (0 < count_events is_start_without_stop es)%nat /\
    count_events is_start_with_stop es = 0%nat.
Proof.
  destruct (@ensureFactory_after_Terminate open_connection plain_informers
              "default" NewFactory reach_new eq_refl)
    as (f1 & f2 & es & Hterm & Hens & Htrace & Hstop & _ & _ & Hnil & Hnone).
  exists f1, f2, es. repeat split; assumption.
Defined.

Lemma ForResource_without_separator_witness :
  exists f1 : Factory,
    @ForResource open_connection plain_informers "default" "nodes" NewFactory
    = Panicked (IndexOutOfRange 2 2) f1 /\
    is_Some (factories f1 !! allNamespaces).
Proof.
  destruct (@ForResource_without_separator open_connection plain_informers
              "default" "nodes" "default/node-1" "app=web" NewFactory eq_refl)
    as (_ & _ & Hnew & _).
  destruct (Hnew eq_refl eq_refl) as (f1 & Hrun & Hcw & _). now exists f1.
Defined.

Lemma Debug_reads_the_cluster_wide_entry_witness :
  @Debug plain_informers "v1/pods" NewFactory = Panicked NilDereference NewFactory /\
  @Debug plain_informers "v1/pods" (created_all NewFactory)
  = Done tt (log [EvForResource 0%nat r_pods; EvListKeys (mkInformer 0%nat r_pods)]
                 (created_all NewFactory)).
Proof.
  split.
  - apply (@Debug_reads_the_cluster_wide_entry plain_informers "v1/pods" r_pods
             NewFactory eq_refl). reflexivity.
  - apply (@Debug_reads_the_cluster_wide_entry plain_informers "v1/pods" r_pods
             (created_all NewFactory) eq_refl); reflexivity.
Defined.

Lemma Start_calls_every_informer_factory_witness :
  exists es : list event,
    @Start None (created_scoped "default" NewFactory)
    = Done tt (log es (created_scoped "default" NewFactory)) /\
    length es = 2%nat /\
    EvFactoryStart 0%nat None ∈ es /\ EvFactoryStart 1%nat None ∈ es.
Proof.
  destruct (@Start_calls_every_informer_factory open_connection plain_informers
              None (created_scoped "default" NewFactory))
    as ((es & Hrun & Hlen & Hin & _) & _).
  exists es. split; [exact Hrun|]. split; [rewrite Hlen; vm_compute; reflexivity|].
  split; apply Hin.
  - exists "default", 0%nat. split; [vm_compute|]; reflexivity.
  - exists allNamespaces, 1%nat. split; [vm_compute|]; reflexivity.
Defined.

Lemma Get_routes_by_path_witness :
  (exists (inf : Informer) (f1 : Factory),
      @Get open_connection plain_informers "v1/pods" "web-0" "app=web" NewFactory
      = Done (Some "web-0", None) (log [EvGetByNamespace inf "" "web-0"] f1)) /\
  (exists (inf : Informer) (f1 : Factory),
      @Get open_connection plain_informers "v1/pods" "-/web-0" "app=web" NewFactory
      = Done (Some "web-0", None) (log [EvGet inf "web-0"] f1)).
Proof.
  split.
  - eexists. eexists.
    apply (@Get_routes_by_path open_connection plain_informers
             "v1/pods" "default" "web-0" "app=web" NewFactory);
      [reflexivity | reflexivity | vm_compute; reflexivity].
  - eexists. eexists.
    apply (@Get_routes_by_path open_connection plain_informers
             "v1/pods" "default" "web-0" "app=web" NewFactory);
      [reflexivity | reflexivity | vm_compute; reflexivity].
Defined.

Lemma reads_query_at_most_once_witness :
  exists f1 : Factory,
    @List open_connection no_informers "v1/pods" "default" "app=web" NewFactory
    = Done (None, Some (ErrNoResource "v1/pods")) f1 /\
    exists es, trace f1 = trace NewFactory ++ es /\ count_events is_store_query es = 0%nat.
Proof.
  eexists.
  apply (@reads_query_at_most_once open_connection no_informers
           "v1/pods" "default" "default/web-0" "app=web" NewFactory);
    [reflexivity | vm_compute; reflexivity].
Defined.

Lemma replaced_forwarder_is_never_stopped_witness :
  exists (f3 : Factory) (es : list event),
    (do! RegisterForwarder web_forward in
     do! RegisterForwarder web_forward' in
     Terminate) NewFactory = Done tt f3 /\
    trace f3 = trace NewFactory ++ es /\
    EvForwarderStop web_forward' ∈ es /\
    EvForwarderStop web_forward ∉ es.
Proof.
  apply (@replaced_forwarder_is_never_stopped open_connection plain_informers
           web_forward web_forward' NewFactory reach_new eq_refl).
  discriminate.
Defined.

Lemma register_then_delete_witness :
  exists f' : Factory,
    (do! RegisterForwarder web_forward in DeleteForwarder (Path web_forward)) NewFactory
    = Done tt f' /\
    forwarders f' = forwarders NewFactory /\
    factories f' = factories NewFactory /\
    trace f' = trace NewFactory ++ [EvForwarderStop web_forward] /\
    ForwarderFor (Path web_forward) f' = Done None f'.
Proof. apply (register_then_delete web_forward NewFactory). reflexivity. Defined.

Lemma handles_are_built_once_witness :
  exists s1 : ClientConn.APIClient,
    @ClientConn.DialOrDie ClientConn.metrics_cluster ClientConn.connected_client
    = ClientConn.Returns 1%nat s1 /\
    ClientConn.client s1 = Some 1%nat /\
    @ClientConn.DialOrDie ClientConn.metrics_cluster s1 = ClientConn.Returns 1%nat s1 /\
    ClientConn.history s1
    = ClientConn.history ClientConn.connected_client
      ++ [ClientConn.RESTConfig; ClientConn.NewClientset].
Proof.
  eexists. split; [vm_compute; reflexivity|].
  destruct (@handles_are_built_once ClientConn.metrics_cluster
              ClientConn.connected_client
              (ClientConn.final (@ClientConn.DialOrDie ClientConn.metrics_cluster
                                   ClientConn.connected_client)) 1%nat)
    as ((Hheld & Hagain & _) & _); [vm_compute; reflexivity|].
  split; [exact Hheld|]. split; [exact Hagain | reflexivity].
Defined.

Lemma failed_construction_is_retried_witness :
  exists s1 : ClientConn.APIClient,
    @ClientConn.CachedDiscovery ClientConn.offline_cluster ClientConn.empty_client
    = ClientConn.Returns (None, Some (ClientConn.FailureOf ClientConn.NewDiscovery)) s1 /\
    ClientConn.cachedDiscovery s1 = None /\
    exists rest,
      ClientConn.history
        (ClientConn.final (@ClientConn.CachedDiscovery ClientConn.offline_cluster s1))
      = ClientConn.history s1 ++ ClientConn.RESTConfig :: rest.
Proof.
  eexists. split; [vm_compute; reflexivity|].
  destruct (@failed_construction_is_retried ClientConn.offline_cluster
              ClientConn.empty_client
              (ClientConn.final (@ClientConn.CachedDiscovery ClientConn.offline_cluster
                                   ClientConn.empty_client))
              (ClientConn.FailureOf ClientConn.NewDiscovery))
    as ((Hnil & _ & _ & Hretry) & _); [vm_compute; reflexivity|].
  split; [exact Hnil | exact Hretry].
Defined.

Lemma supportsMxServer_finds_metrics_witness :
  @ClientConn.supportsMxServer ClientConn.metrics_cluster ClientConn.empty_client
  = ClientConn.Returns true
      (ClientConn.called (ClientConn.ServerGroups 0)
         (ClientConn.final (@ClientConn.CachedDiscovery ClientConn.metrics_cluster
                              ClientConn.empty_client))) /\
  @ClientConn.supportsMxServer ClientConn.offline_cluster ClientConn.empty_client
  = ClientConn.Returns false
      (ClientConn.final (@ClientConn.CachedDiscovery ClientConn.offline_cluster
                           ClientConn.empty_client)).
Proof.
  split.
  - apply (@supportsMxServer_finds_metrics ClientConn.metrics_cluster).
    eexists. exists 0%nat. eexists.
    split; [vm_compute; reflexivity|]. split; [reflexivity|].
    split; [reflexivity|]. vm_compute. reflexivity.
  - destruct (@supportsMxServer_finds_metrics ClientConn.offline_cluster
                ClientConn.empty_client ClientConn.empty_client) as (_ & _ & Hfailed).
    apply (Hfailed (ClientConn.FailureOf ClientConn.NewDiscovery)).
    vm_compute. reflexivity.
Defined.

Lemma SupportsRes_first_group_last_version_witness :
  exists s1 : ClientConn.APIClient,
    @ClientConn.SupportsRes ClientConn.metrics_cluster "metrics.k8s.io" ["v1"]
      ClientConn.connected_client
    = ClientConn.Returns ("v1beta1", true, None) s1.
Proof.
  eexists.
  destruct (@SupportsRes_first_group_last_version ClientConn.metrics_cluster
              "metrics.k8s.io" ["v1"] ClientConn.connected_client
              ClientConn.connected_client) as (Hlisted & _).
  rewrite (Hlisted 0%nat _ eq_refl eq_refl). vm_compute. reflexivity.
Defined.

Lemma IsNamespaced_first_resource_witness :
  (exists s1 : ClientConn.APIClient,
      @ClientConn.IsNamespaced ClientConn.metrics_cluster "nodes" ClientConn.connected_client
      = ClientConn.Returns false s1) /\
  (exists s1 : ClientConn.APIClient,
      @ClientConn.IsNamespaced ClientConn.metrics_cluster "deployments"
        ClientConn.connected_client
      = ClientConn.Returns true s1).
Proof.
  split; eexists.
  - destruct (@IsNamespaced_first_resource ClientConn.metrics_cluster "nodes"
                ClientConn.connected_client ClientConn.connected_client) as (Hhad & _).
    rewrite (Hhad 0%nat eq_refl). vm_compute. reflexivity.
  - destruct (@IsNamespaced_first_resource ClientConn.metrics_cluster "deployments"
                ClientConn.connected_client ClientConn.connected_client) as (Hhad & _).
    rewrite (Hhad 0%nat eq_refl). vm_compute. reflexivity.
Defined.

Lemma SupportsResource_needs_a_clean_listing_witness :
  @ClientConn.SupportsResource ClientConn.metrics_cluster "apps/v1"
    ClientConn.connected_client
  = ClientConn.Returns true
      (ClientConn.called (ClientConn.ServerPreferredResources 0)
         ClientConn.connected_client).
Proof.
  apply (@SupportsResource_needs_a_clean_listing ClientConn.metrics_cluster).
  exists ClientConn.connected_client, 0%nat.
  split; [reflexivity|]. split; [reflexivity|]. split; [reflexivity|].
  exists (ClientConn.mkResourceList "apps/v1" [ClientConn.mkResource "deployments" true]).
  split; [|reflexivity].
  apply list_elem_of_further, list_elem_of_here.
Defined.

Lemma SwitchContextOrDie_drops_the_handles_witness :
  @ClientConn.SwitchContextOrDie ClientConn.metrics_cluster "prod"
    ClientConn.connected_client
  = ClientConn.Returns tt
      (ClientConn.called ClientConn.CurrentContextName ClientConn.connected_client) /\
  exists s1 : ClientConn.APIClient,
    @ClientConn.SwitchContextOrDie ClientConn.metrics_cluster "staging"
      ClientConn.connected_client
    = ClientConn.Returns tt s1 /\
    ClientConn.client s1 = None /\
    ClientConn.cachedDiscovery s1 = Some 1%nat.
Proof.
  destruct (@SwitchContextOrDie_drops_the_handles ClientConn.metrics_cluster "prod"
              ClientConn.connected_client) as (Hsame & _).
  split; [exact (Hsame eq_refl)|].
  eexists. split; [vm_compute; reflexivity|].
  destruct (@SwitchContextOrDie_drops_the_handles ClientConn.metrics_cluster "staging"
              ClientConn.connected_client) as (_ & Hother & _).
  destruct (Hother "prod"
              (ClientConn.final (@ClientConn.SwitchContextOrDie ClientConn.metrics_cluster
                                   "staging" ClientConn.connected_client)))
    as (Hclient & _); [reflexivity | discriminate | vm_compute; reflexivity|].
  split; [exact Hclient | reflexivity].
Defined.

Lemma no_handle_outlives_a_switch_witness :
  exists s1 : ClientConn.APIClient,
    @ClientConn.SwitchContextOrDie ClientConn.metrics_cluster "staging"
      ClientConn.connected_client
    = ClientConn.Returns tt s1 /\
    forall x, Some x ∈ ClientConn.handles s1 ->
              Some x ∉ ClientConn.handles ClientConn.connected_client.
Proof.
  eexists. split; [vm_compute; reflexivity|].
  apply (@no_handle_outlives_a_switch ClientConn.metrics_cluster ClientConn.reading_server
           "staging" "prod" ClientConn.connected_client).
  - apply ClientConn.client_new. vm_compute. reflexivity.
  - reflexivity.
  - discriminate.
  - vm_compute. reflexivity.
Defined.

Lemma Render_appends_a_field_per_header_witness :
  @Render.Render Render.slash_accessors
    (Render.AliasResValue (Render.mkAliasRes "apps/deployments" ["dp"; "deploy"]))
    "apps/v1/deployments" (Render.mkRow "" [])
  = (Render.mkRow "apps/v1/deployments" ["deployments"; "dp,deploy"; "apps"], None) /\
  Split "dp,deploy" ","%char = ["dp"; "deploy"].
Proof.
  destruct (@Render_appends_a_field_per_header Render.slash_accessors
              (Render.AliasResValue (Render.mkAliasRes "apps/deployments" ["dp"; "deploy"]))
              "apps/v1/deployments" "default" (Render.mkRow "" [])) as (_ & Hres).
  destruct (Hres _ eq_refl) as (_ & _ & _ & _ & Hsplit).
  destruct Hsplit as (command & Hat & Hback);
    [discriminate | repeat constructor|].
  split; [reflexivity|].
  injection Hat as <-. exact Hback.
Defined.

(** The authorization check on a client that holds no clientset yet: the
    clientset is built first (handle 1), then the reviews are created. *)
Lemma CanI_checks_in_order_and_stops_witness :
  @ClientConn.CanI ClientConn.unconfigured_cluster ClientConn.reading_server
    "default" "v1/pods" ["get"; "list"] ClientConn.empty_client
  = ClientConn.Dies ClientConn.PanicMsg
      (ClientConn.called ClientConn.RESTConfig ClientConn.empty_client) /\
  exists s' : ClientConn.APIClient,
    @ClientConn.CanI ClientConn.metrics_cluster ClientConn.reading_server
      "default" "v1/pods" ["get"; "list"] ClientConn.connected_client
    = ClientConn.Returns (true, None) s' /\
    ClientConn.history s'
    = ClientConn.history ClientConn.connected_client
      ++ [ClientConn.RESTConfig; ClientConn.NewClientset;
          ClientConn.CreateReview 1 (ClientConn.mkAttrs "default" "get" "" "pods" "");
          ClientConn.CreateReview 1 (ClientConn.mkAttrs "default" "list" "" "pods" "")].
Proof.
  split.
  - apply (@CanI_checks_in_order_and_stops ClientConn.unconfigured_cluster
             ClientConn.reading_server "default" "v1/pods" ["get"; "list"]
             ClientConn.empty_client).
    reflexivity.
  - destruct (@CanI_checks_in_order_and_stops ClientConn.metrics_cluster
                ClientConn.reading_server "default" "v1/pods" ["get"; "list"]
                ClientConn.connected_client) as [_ Hreturns].
    destruct (Hreturns 1%nat
                (ClientConn.final (@ClientConn.DialOrDie ClientConn.metrics_cluster
                                     ClientConn.connected_client)) eq_refl)
      as [(_ & Hrun) | (before & v & after & Hverbs & _ & _ & Hrefused)].
    + eexists. split; [exact Hrun | reflexivity].
    + exfalso.
      assert (Hv : v ∈ ["get"; "list"])
        by (rewrite Hverbs; apply elem_of_app; right; apply list_elem_of_here).
      apply elem_of_cons in Hv as [-> | Hv];
        [|apply list_elem_of_singleton in Hv as ->];
        destruct Hrefused as [(Hd & _) | (msg & Hf & _)]; discriminate.
Defined.

Lemma CanI_false_has_error_witness :
  exists (e : error) (s' : ClientConn.APIClient),
    @ClientConn.CanI ClientConn.metrics_cluster ClientConn.reading_server
      "default" "v1/pods" ["get"; "delete"; "list"] ClientConn.connected_client
    = ClientConn.Returns (false, Some e) s' /\
    ClientConn.history s'
    = ClientConn.history ClientConn.connected_client
      ++ [ClientConn.RESTConfig; ClientConn.NewClientset;
          ClientConn.CreateReview 1 (ClientConn.mkAttrs "default" "get" "" "pods" "");
          ClientConn.CreateReview 1 (ClientConn.mkAttrs "default" "delete" "" "pods" "")].
Proof.
  destruct (@CanI_false_has_error ClientConn.metrics_cluster ClientConn.reading_server
              "default" "v1/pods" ["get"; "delete"; "list"] ClientConn.connected_client
              (ClientConn.final
                 (@ClientConn.CanI ClientConn.metrics_cluster ClientConn.reading_server
                    "default" "v1/pods" ["get"; "delete"; "list"]
                    ClientConn.connected_client))
              (false, Some (ErrAccessDenied "delete" "default" "v1/pods")))
    as [_ [Htrue | [e He]]].
  - vm_compute. reflexivity.
  - discriminate.
  - exists e. eexists. split; [rewrite <- He; vm_compute; reflexivity | reflexivity].
Defined.

Lemma CanI_true_iff_all_allowed_witness :
  (exists s' : ClientConn.APIClient,
      @ClientConn.CanI ClientConn.metrics_cluster ClientConn.reading_server
        "default" "v1/pods" ["get"; "list"] ClientConn.connected_client
      = ClientConn.Returns (true, None) s') /\
  exists s1 : ClientConn.APIClient,
    @ClientConn.CanI ClientConn.metrics_cluster ClientConn.reading_server
      "default" "v1/pods" [] ClientConn.connected_client
    = ClientConn.Returns (true, None) s1 /\
    ClientConn.client s1 = Some 1%nat.
Proof.
  split.
  - apply (@CanI_true_iff_all_allowed ClientConn.metrics_cluster ClientConn.reading_server
             "default" "v1/pods" ["get"; "list"] ClientConn.connected_client
             (ClientConn.final (@ClientConn.DialOrDie ClientConn.metrics_cluster
                                  ClientConn.connected_client)) 1%nat eq_refl).
    repeat split.
  - eexists. split.
    + apply (@CanI_true_iff_all_allowed ClientConn.metrics_cluster ClientConn.reading_server
               "default" "v1/pods" [] ClientConn.connected_client
               (ClientConn.final (@ClientConn.DialOrDie ClientConn.metrics_cluster
                                    ClientConn.connected_client)) 1%nat eq_refl).
    + reflexivity.
Defined.

Lemma CanI_cluster_scope_is_empty_namespace_witness :
  (exists (e : option error) (s' : ClientConn.APIClient),
      @ClientConn.CanI ClientConn.metrics_cluster ClientConn.reading_server
        "" "v1/nodes" ["get"; "watch"] ClientConn.connected_client
      = ClientConn.Returns (false, e) s') /\
  exists sent : list ClientConn.ResourceAttributes,
    ClientConn.history
      (ClientConn.final (@ClientConn.CanI ClientConn.metrics_cluster ClientConn.reading_server
                           "-" "v1/nodes" ["get"; "watch"] ClientConn.connected_client))
    = ClientConn.history ClientConn.connected_client
      ++ [ClientConn.RESTConfig; ClientConn.NewClientset]
      ++ map (ClientConn.CreateReview 1) sent /\
    forall sar, sar ∈ sent -> ClientConn.ra_Namespace sar = "".
Proof.
  destruct (@CanI_cluster_scope_is_empty_namespace ClientConn.metrics_cluster
              ClientConn.reading_server "-" "v1/nodes" ["get"; "watch"]
              ClientConn.connected_client) as (Hsame & _ & Hsent).
  split.
  - destruct (Hsame false
                (ClientConn.final (@ClientConn.CanI ClientConn.metrics_cluster
                                     ClientConn.reading_server "-" "v1/nodes"
                                     ["get"; "watch"] ClientConn.connected_client)))
      as [Hto _].
    destruct Hto as [e He]; [exists (Some (ErrRemote "timeout")); reflexivity|].
    eexists e, _. exact He.
  - destruct (Hsent 1%nat
                (ClientConn.final (@ClientConn.DialOrDie ClientConn.metrics_cluster
                                     ClientConn.connected_client)) eq_refl)
      as (sent & Hhist & Hfields).
    exists sent. split; [rewrite Hhist; reflexivity|].
    intros sar Hin. now destruct (Hfields sar Hin) as [Hns _].
Defined.
